(** * ChoreQuest icon generator ([android/generate_icons.py])

    A shallow embedding of the script and the properties of its
    specification.

    - [Float]: Python's [float] (IEEE 754 binary64, round to nearest, ties
      to even), every operation being the rounding of its exact rational
      result.
    - Python's numeric operators on [int] and [float] values, with the
      exceptions they raise.
    - The part of Pillow the script calls ([Image.new], [ImageDraw.Draw],
      [rectangle], [polygon], [convert], [alpha_composite], [save]) on a
      store of mutable image objects.
    - [create_play_store_icon], [main] and the module-level import guard,
      as computations in a state-and-exception monad over the interpreter's
      world (loaded modules, image objects, file system, standard output). *)

From Stdlib Require Import ZArith QArith Qround Qabs Lia Lqa Ascii String List Bool.
From Stdlib Require Import DecimalString.
Import ListNotations.
Open Scope Z_scope.

(** ** Binary64 floating point *)

Module Float.

Definition prec : Z := 53.
Definition emax : Z := 1024.

(** Every finite binary64 number is an integer multiple of [2^-1074], the
    smallest positive subnormal.  A finite float is stored as that integer,
    so that the representation is canonical.  The sign of zero is not kept:
    the script never divides by a float nor prints one, which are the only
    ways to observe it. *)
Definition unit_exp : Z := 1074.
Definition U : Z := Eval vm_compute in 2 ^ 1074.
Definition Upos : positive := Eval vm_compute in Z.to_pos (2 ^ 1074).

(** [2^1024] in units: the first magnitude that overflows. *)
Definition huge : Z := Eval vm_compute in 2 ^ (1024 + 1074).

Inductive float : Type :=
| Finite (n : Z)
| Inf (neg : bool)
| NaN.

(** The rational value of a finite float. *)
Definition F2Q (n : Z) : Q := n # Upos.

(** Nearest integer, ties to even. *)
Definition rne (q : Q) : Z :=
  let f := Qfloor q in
  match Qcompare (q - inject_Z f) (1 # 2) with
  | Lt => f
  | Gt => f + 1
  | Eq => if Z.even f then f else f + 1
  end.

(** Spacing of the floats around a magnitude whose integer part, in units,
    is [f]: [2^sh] units, where the significand keeps [prec] bits. *)
Definition shift_of (f : Z) : Z := Z.max (Z.log2 f + 1 - prec) 0.

(** Rounding of a non-negative quantity [x], given in units, to the
    nearest multiple of the spacing; a tie goes to the even significand. *)
Definition round_pos (x : Q) : Z :=
  let f := Qfloor x in
  let sh := shift_of f in
  let m := Z.shiftr f sh in
  let lo := Z.shiftl m sh in
  let g := Z.shiftl 1 sh in
  match Qcompare (x - inject_Z lo) (g # 2) with
  | Lt => lo
  | Gt => lo + g
  | Eq => if Z.even m then lo else lo + g
  end.

Definition round_units (x : Q) : Z :=
  match Qcompare x 0 with
  | Lt => - round_pos (- x)
  | _ => round_pos x
  end.

(** The float nearest to [x] units; beyond the largest finite float the
    result is an infinity. *)
Definition of_units (x : Q) : float :=
  let n := round_units x in
  if Z.abs n <? huge then Finite n else Inf (n <? 0).

(** Rounding of the real number [q] to binary64. *)
Definition round (q : Q) : float := of_units (q * inject_Z U).

Definition is_zero (n : Z) : bool := n =? 0.

Definition fneg (x : float) : float :=
  match x with
  | Finite a => Finite (- a)
  | Inf s => Inf (negb s)
  | NaN => NaN
  end.

(** The operations round their exact result, computed here in units:
    [a + b] units for a sum, [a * b / 2^1074] for a product and
    [a * 2^1074 / b] for a quotient ([fadd_exact], [fmul_exact] and
    [fdiv_exact] below relate them to [round]). *)
Definition fadd (x y : float) : float :=
  match x, y with
  | Finite a, Finite b => of_units (inject_Z (a + b))
  | Inf s, Finite _ => Inf s
  | Finite _, Inf s => Inf s
  | Inf s1, Inf s2 => if Bool.eqb s1 s2 then Inf s1 else NaN
  | _, _ => NaN
  end.

Definition fsub (x y : float) : float := fadd x (fneg y).

Definition fmul (x y : float) : float :=
  match x, y with
  | Finite a, Finite b => of_units ((a * b) # Upos)
  | Inf s, Finite b => if is_zero b then NaN else Inf (xorb s (b <? 0))
  | Finite a, Inf s => if is_zero a then NaN else Inf (xorb (a <? 0) s)
  | Inf s1, Inf s2 => Inf (xorb s1 s2)
  | _, _ => NaN
  end.

(** Division by a non-zero float (Python raises on a zero divisor before
    any IEEE division takes place). *)
Definition fdiv (x y : float) : float :=
  match x, y with
  | Finite a, Finite b => of_units (inject_Z (a * U) / inject_Z b)
  | Inf s, Finite b => Inf (xorb s (b <? 0))
  | Finite _, Inf _ => Finite 0
  | _, _ => NaN
  end.

(** The correctly rounded quotient of two integers: [int / int], and a
    decimal literal [num/den] of the source text. *)
Definition quotient (x y : Z) : float := of_units (inject_Z (x * U) / inject_Z y).

Definition literal (num den : Z) : float := quotient num den.

End Float.

Import Float.

(** ** Python values, exceptions and arithmetic *)

Inductive exn : Type :=
| OverflowError
| ZeroDivisionError
| ValueError
| ImportError
| NameError
| FileExistsError
| FileNotFoundError
| OSError
| SystemExit (status : Z).

Inductive result (A : Type) : Type :=
| Ok (a : A)
| Raise (e : exn).

Arguments Ok {A} a.
Arguments Raise {A} e.

Definition bindR {A B : Type} (c : result A) (k : A -> result B) : result B :=
  match c with
  | Ok a => k a
  | Raise e => Raise e
  end.

Declare Scope res_scope.
Delimit Scope res_scope with res.
Notation "x <- c ;; k" := (bindR c (fun x => k))
  (at level 61, c at next level, right associativity) : res_scope.

(** A Python number: an [int] of arbitrary size or a [float]. *)
Inductive num : Type :=
| PyInt (z : Z)
| PyFloat (f : float).

(** [float(n)] as done implicitly in mixed arithmetic: correctly rounded,
    [OverflowError] when the integer is beyond the float range. *)
Definition float_of_int (z : Z) : result float :=
  match of_units (inject_Z (z * U)) with
  | Finite n => Ok (Finite n)
  | _ => Raise OverflowError
  end.

Definition to_float (v : num) : result float :=
  match v with
  | PyInt z => float_of_int z
  | PyFloat f => Ok f
  end.

Definition arith (iop : Z -> Z -> Z) (fop : float -> float -> float)
    (a b : num) : result num :=
  match a, b with
  | PyInt x, PyInt y => Ok (PyInt (iop x y))
  | _, _ =>
      (x <- to_float a ;; y <- to_float b ;; Ok (PyFloat (fop x y)))%res
  end.

Definition py_add : num -> num -> result num := arith Z.add fadd.
Definition py_sub : num -> num -> result num := arith Z.sub fsub.
Definition py_mul : num -> num -> result num := arith Z.mul fmul.

(** True division [a / b].  Between two [int]s the exact quotient is
    rounded once, and a quotient beyond the float range raises. *)
Definition py_truediv (a b : num) : result num :=
  match a, b with
  | PyInt x, PyInt y =>
      if y =? 0 then Raise ZeroDivisionError
      else match quotient x y with
           | Finite n => Ok (PyFloat (Finite n))
           | _ => Raise OverflowError
           end
  | _, _ =>
      (x <- to_float a ;;
       y <- to_float b ;;
       match y with
       | Finite 0 => Raise ZeroDivisionError
       | _ => Ok (PyFloat (fdiv x y))
       end)%res
  end.

(** [int(v)]: truncation toward zero. *)
Definition py_int (v : num) : result Z :=
  match v with
  | PyInt z => Ok z
  | PyFloat (Finite n) => Ok (Z.quot n U)
  | PyFloat (Inf _) => Raise OverflowError
  | PyFloat NaN => Raise ValueError
  end.

(** Operators on expressions, evaluated left to right; an exception in an
    operand propagates. *)
Definition binop (op : num -> num -> result num) (a b : result num) : result num :=
  (x <- a ;; y <- b ;; op x y)%res.

Declare Scope py_scope.
Delimit Scope py_scope with py.
Notation "a + b" := (binop py_add a b) : py_scope.
Notation "a - b" := (binop py_sub a b) : py_scope.
Notation "a * b" := (binop py_mul a b) : py_scope.
Notation "a / b" := (binop py_truediv a b) : py_scope.

(** Operands: an [int] value, and a value of either kind. *)
Definition Int (z : Z) : result num := Ok (PyInt z).
Definition Val (v : num) : result num := Ok v.

Definition int_ (e : result num) : result Z := bindR e py_int.

(** [range(n)] *)
Definition range (n : Z) : list Z := map Z.of_nat (seq 0 (Z.to_nat n)).

(** The float literals of the source. *)
Definition lit_0_7 : num := Eval vm_compute in PyFloat (literal 7 10).
Definition lit_16_2 : num := Eval vm_compute in PyFloat (literal 162 10).
Definition lit_0_6 : num := Eval vm_compute in PyFloat (literal 6 10).
Definition lit_0_9 : num := Eval vm_compute in PyFloat (literal 9 10).
Definition lit_1_1 : num := Eval vm_compute in PyFloat (literal 11 10).
Definition lit_0_3 : num := Eval vm_compute in PyFloat (literal 3 10).
Definition lit_0_8 : num := Eval vm_compute in PyFloat (literal 8 10).
Definition lit_0_85 : num := Eval vm_compute in PyFloat (literal 85 100).
Definition lit_0_15 : num := Eval vm_compute in PyFloat (literal 15 100).
Definition lit_0_5 : num := Eval vm_compute in PyFloat (literal 5 10).
Definition lit_0_2 : num := Eval vm_compute in PyFloat (literal 2 10).
Definition lit_0_4 : num := Eval vm_compute in PyFloat (literal 4 10).
Definition lit_3_14159 : num := Eval vm_compute in PyFloat (literal 314159 100000).
Definition lit_1_5708 : num := Eval vm_compute in PyFloat (literal 15708 10000).

(** *** The arithmetic of [create_play_store_icon] *)

(** Lines 33-41: the colour of row [y] of the background gradient. *)
Definition gradient_color (size y : Z) : result (Z * Z * Z) :=
  (ratio <- (Int y / Int size)%py ;;
   let '(r1, g1, b1) := (0x4A, 0x90, 0xE2) in
   let '(r2, g2, b2) := (0x9B, 0x59, 0xB6) in
   r <- int_ (Int r1 + Int (r2 - r1) * Val ratio)%py ;;
   g <- int_ (Int g1 + Int (g2 - g1) * Val ratio)%py ;;
   b <- int_ (Int b1 + Int (b2 - b1) * Val ratio)%py ;;
   Ok (r, g, b))%res.

(** A polygon: the vertex list handed to [ImageDraw.polygon]. *)
Definition point : Type := num * num.

(** Lines 59-62. *)
Record placement : Type := {
  scale : num;
  foreground_scale : num;
  translate_x : num;
  translate_y : num
}.

Definition compute_placement (size : Z) : result placement :=
  (scale <- (Int size / Int 108)%py ;;
   foreground_scale <- (Val lit_0_7 * Val scale)%py ;;
   translate_x <- (Val lit_16_2 * Val scale)%py ;;
   translate_y <- (Val lit_16_2 * Val scale)%py ;;
   Ok {| scale := scale; foreground_scale := foreground_scale;
         translate_x := translate_x; translate_y := translate_y |})%res.

(** Lines 70-72. *)
Definition compute_base_x (p : placement) : result Z :=
  int_ (Int 54 * Val (foreground_scale p) + Val (translate_x p))%py.

Definition compute_base_y (p : placement) : result Z :=
  int_ (Int 54 * Val (foreground_scale p) + Val (translate_y p))%py.

Definition compute_shield_size (p : placement) : result Z :=
  int_ (Int 26 * Val (foreground_scale p))%py.

Fixpoint sequence {A : Type} (l : list (result A)) : result (list A) :=
  match l with
  | [] => Ok []
  | c :: l' => (a <- c ;; r <- sequence l' ;; Ok (a :: r))%res
  end.

Definition pt (x y : result num) : result point :=
  (a <- x ;; b <- y ;; Ok (a, b))%res.

(** Lines 75-84. *)
Definition compute_shield_path (base_x base_y shield_size : Z) : result (list point) :=
  sequence [
    pt (Int base_x - Int shield_size) (Int base_y - Int shield_size * Val lit_0_6);
    pt (Int base_x - Int shield_size * Val lit_0_7) (Int base_y - Int shield_size * Val lit_0_9);
    pt (Int base_x) (Int base_y - Int shield_size * Val lit_1_1);
    pt (Int base_x + Int shield_size * Val lit_0_7) (Int base_y - Int shield_size * Val lit_0_9);
    pt (Int base_x + Int shield_size) (Int base_y - Int shield_size * Val lit_0_6);
    pt (Int base_x + Int shield_size) (Int base_y + Int shield_size * Val lit_0_3);
    pt (Int base_x) (Int base_y + Int shield_size * Val lit_0_8);
    pt (Int base_x - Int shield_size) (Int base_y + Int shield_size * Val lit_0_3)
  ]%py.

(** Lines 88-89: the list comprehension over [shield_path]. *)
Definition compute_inner_shield (base_x base_y : Z) (shield_path : list point)
    : result (list point) :=
  sequence (map (fun p : point =>
    (x <- int_ (Val (fst p) * Val lit_0_85 + Int base_x * Val lit_0_15)%py ;;
     y <- int_ (Val (snd p) * Val lit_0_85 + Int base_y * Val lit_0_15)%py ;;
     Ok (PyInt x, PyInt y))%res) shield_path).

(** Lines 93-101. *)
Definition compute_check_size (p : placement) : result Z :=
  int_ (Int 12 * Val (foreground_scale p))%py.

Definition compute_check_points (base_x base_y check_size : Z) : result (list point) :=
  sequence [
    pt (Int base_x - Int check_size) (Int base_y);
    pt (Int base_x - Int check_size * Val lit_0_3) (Int base_y + Int check_size * Val lit_0_5);
    pt (Int base_x + Int check_size * Val lit_0_8) (Int base_y - Int check_size * Val lit_0_8);
    pt (Int base_x + Int check_size * Val lit_0_6) (Int base_y - Int check_size);
    pt (Int base_x - Int check_size * Val lit_0_3) (Int base_y + Int check_size * Val lit_0_2);
    pt (Int base_x - Int check_size * Val lit_0_6) (Int base_y - Int check_size * Val lit_0_2)
  ]%py.

(** Lines 106-107. *)
Definition compute_star_y (p : placement) : result Z :=
  int_ (Int (54 - 34) * Val (foreground_scale p) + Val (translate_y p))%py.

Definition compute_star_radius (p : placement) : result Z :=
  int_ (Int 6 * Val (foreground_scale p))%py.

(** Lines 110-113: one iteration of the star loop.  [angle] is computed
    and never read. *)
Definition star_vertex (star_x star_y star_radius i : Z) : result point :=
  (angle <- ((Int i * Val lit_3_14159 / Int 5) - Val lit_1_5708)%py ;;
   radius <- (if i mod 2 =? 0 then Int star_radius else Int star_radius * Val lit_0_4)%py ;;
   dx <- int_ (Val radius * Int (if i mod 2 =? 0 then 1 else -1) * Val lit_0_7)%py ;;
   x <- (Int star_x + Int dx)%py ;;
   dy <- int_ (Val radius * Int (if i mod 2 =? 0 then 1 else -1) * Val lit_0_7)%py ;;
   y <- (Int star_y + Int dy)%py ;;
   Ok (x, y))%res.

(** Lines 108-114: [star_points], appended to in the order of [range(10)]. *)
Definition compute_star_points (star_x star_y star_radius : Z) : result (list point) :=
  fold_left (fun acc i =>
    (star_points <- acc ;;
     v <- star_vertex star_x star_y star_radius i ;;
     Ok (star_points ++ [v]))%res) (range 10) (Ok []).

(** The values that the claims about the glyph layout speak of, as
    functions of [size]: the shield anchor [(base_x, base_y)] and the
    vertex list of the star, computed as [create_play_store_icon] does. *)
Definition shield_anchor (size : Z) : result (Z * Z) :=
  (p <- compute_placement size ;;
   base_x <- compute_base_x p ;;
   base_y <- compute_base_y p ;;
   Ok (base_x, base_y))%res.

Definition star_points (size : Z) : result (list point) :=
  (p <- compute_placement size ;;
   base_x <- compute_base_x p ;;
   let star_x := base_x in
   star_y <- compute_star_y p ;;
   star_radius <- compute_star_radius p ;;
   compute_star_points star_x star_y star_radius)%res.

(** ** Images (Pillow) *)

Definition rgb : Type := Z * Z * Z.
Definition rgba : Type := Z * Z * Z * Z.

Inductive mode : Type := RGB | RGBA.

(** The pixel buffer, row by row; its constructor is the image mode. *)
Inductive raster : Type :=
| RasterRGB (rows : list (list rgb))
| RasterRGBA (rows : list (list rgba)).

Record image : Type := {
  im_size : Z * Z;
  im_data : raster
}.


(** A colour argument: a ["#rrggbb"] string or a tuple of bands. *)
Inductive color : Type :=
| ColorName (s : string)
| ColorTuple3 (r g b : Z)
| ColorTuple4 (r g b a : Z).

Definition hex_digit (c : Ascii.ascii) : option Z :=
  let n := Z.of_nat (Ascii.nat_of_ascii c) in
  if (48 <=? n) && (n <=? 57) then Some (n - 48)
  else if (97 <=? n) && (n <=? 102) then Some (n - 87)
  else if (65 <=? n) && (n <=? 70) then Some (n - 55)
  else None.

Definition hex_byte (hi lo : Ascii.ascii) : option Z :=
  match hex_digit hi, hex_digit lo with
  | Some h, Some l => Some (16 * h + l)
  | _, _ => None
  end.

(** [ImageColor.getrgb] on the only form of colour string the script uses. *)
Definition getrgb (s : string) : result rgb :=
  match s with
  | String "#"%char (String r1 (String r0 (String g1 (String g0
      (String b1 (String b0 EmptyString)))))) =>
      match hex_byte r1 r0, hex_byte g1 g0, hex_byte b1 b0 with
      | Some r, Some g, Some b => Ok (r, g, b)
      | _, _, _ => Raise ValueError
      end
  | _ => Raise ValueError
  end.

Definition clip8 (z : Z) : Z := Z.max 0 (Z.min 255 z).

(** The ink a colour argument gives in an image of each mode. *)
Definition ink_rgb (c : color) : result rgb :=
  match c with
  | ColorName s => getrgb s
  | ColorTuple3 r g b => Ok (clip8 r, clip8 g, clip8 b)
  | ColorTuple4 r g b _ => Ok (clip8 r, clip8 g, clip8 b)
  end.

Definition ink_rgba (c : color) : result rgba :=
  match c with
  | ColorName s => (c' <- getrgb s ;; let '(r, g, b) := c' in Ok (r, g, b, 255))%res
  | ColorTuple3 r g b => Ok (clip8 r, clip8 g, clip8 b, 255)
  | ColorTuple4 r g b a => Ok (clip8 r, clip8 g, clip8 b, clip8 a)
  end.

(** What the script takes from the imaging library without fixing it: the
    set of pixels a filled polygon covers, and the blend of one source
    pixel over one destination pixel in [alpha_composite]. *)
Class Backend : Type := {
  polygon_covers : list point -> Z -> Z -> bool;
  blend_over : rgba -> rgba -> rgba
}.

Fixpoint mapi_from {A B : Type} (f : Z -> A -> B) (i : Z) (l : list A) : list B :=
  match l with
  | [] => []
  | a :: l' => f i a :: mapi_from f (i + 1) l'
  end.

(** Every pixel [(x, y)] that [covers] selects takes the ink. *)
Definition paint {A : Type} (covers : Z -> Z -> bool) (ink : A)
    (rows : list (list A)) : list (list A) :=
  mapi_from (fun y row => mapi_from (fun x p => if covers x y then ink else p) 0 row) 0 rows.

Definition blank {A : Type} (size : Z * Z) (ink : A) : list (list A) :=
  repeat (repeat ink (Z.to_nat (fst size))) (Z.to_nat (snd size)).

(** [Image.new(mode, size, color)] *)
Definition new_image (m : mode) (size : Z * Z) (c : color) : result image :=
  if (fst size <? 0) || (snd size <? 0) then Raise ValueError
  else match m with
       | RGB => (ink <- ink_rgb c ;;
                 Ok {| im_size := size; im_data := RasterRGB (blank size ink) |})%res
       | RGBA => (ink <- ink_rgba c ;;
                  Ok {| im_size := size; im_data := RasterRGBA (blank size ink) |})%res
       end.

Definition fill (covers : Z -> Z -> bool) (c : color) (im : image) : result image :=
  match im_data im with
  | RasterRGB rows =>
      (ink <- ink_rgb c ;;
       Ok {| im_size := im_size im; im_data := RasterRGB (paint covers ink rows) |})%res
  | RasterRGBA rows =>
      (ink <- ink_rgba c ;;
       Ok {| im_size := im_size im; im_data := RasterRGBA (paint covers ink rows) |})%res
  end.

(** A filled rectangle covers its bounding box, both corners included. *)
Definition in_box (p0 p1 : Z * Z) (x y : Z) : bool :=
  (fst p0 <=? x) && (x <=? fst p1) && (snd p0 <=? y) && (y <=? snd p1).

Definition fill_rectangle (p0 p1 : Z * Z) (c : color) (im : image) : result image :=
  if (fst p1 <? fst p0) || (snd p1 <? snd p0) then Raise ValueError
  else fill (in_box p0 p1) c im.

Definition fill_polygon `{Backend} (xy : list point) (c : color) (im : image)
    : result image :=
  fill (polygon_covers xy) c im.

(** [im.convert(mode)] between the two modes: an opaque alpha band is
    added, or the alpha band is dropped. *)
Definition convert_image (m : mode) (im : image) : image :=
  match m, im_data im with
  | RGB, RasterRGBA rows =>
      {| im_size := im_size im;
         im_data := RasterRGB (map (map (fun p : rgba => let '(r, g, b, _) := p in (r, g, b))) rows) |}
  | RGBA, RasterRGB rows =>
      {| im_size := im_size im;
         im_data := RasterRGBA (map (map (fun p : rgb => let '(r, g, b) := p in (r, g, b, 255))) rows) |}
  | _, _ => im
  end.

Definition zip_with {A B C : Type} (f : A -> B -> C) (l : list A) (l' : list B) : list C :=
  map (fun ab => f (fst ab) (snd ab)) (combine l l').

(** [Image.alpha_composite(im1, im2)]: [im2] over [im1], both RGBA and of
    one size. *)
Definition alpha_composite `{Backend} (im1 im2 : image) : result image :=
  match im_data im1, im_data im2 with
  | RasterRGBA dst, RasterRGBA src =>
      if ((fst (im_size im1) =? fst (im_size im2))
          && (snd (im_size im1) =? snd (im_size im2)))%bool
      then Ok {| im_size := im_size im1;
                 im_data := RasterRGBA (zip_with (zip_with blend_over) dst src) |}
      else Raise ValueError
  | _, _ => Raise ValueError
  end.

(** ** The interpreter's world *)

Inductive entry : Type :=
| Directory
| PngFile (content : image).

Record world : Type := {
  installed : string -> bool;
  io_fails : string -> bool;
  modules : list string;
  heap : list image;
  fs : list (string * entry);
  stdout : list string
}.

Definition set_modules (w : world) (m : list string) : world :=
  {| installed := installed w; io_fails := io_fails w; modules := m;
     heap := heap w; fs := fs w; stdout := stdout w |}.

Definition set_heap (w : world) (h : list image) : world :=
  {| installed := installed w; io_fails := io_fails w; modules := modules w;
     heap := h; fs := fs w; stdout := stdout w |}.

Definition set_fs (w : world) (f : list (string * entry)) : world :=
  {| installed := installed w; io_fails := io_fails w; modules := modules w;
     heap := heap w; fs := f; stdout := stdout w |}.

Definition set_stdout (w : world) (o : list string) : world :=
  {| installed := installed w; io_fails := io_fails w; modules := modules w;
     heap := heap w; fs := fs w; stdout := o |}.

(** Computations: a result or an exception, and the world they leave. *)
Definition M (A : Type) : Type := world -> result A * world.

Definition ret {A : Type} (a : A) : M A := fun w => (Ok a, w).

Definition raise {A : Type} (e : exn) : M A := fun w => (Raise e, w).

Definition bind {A B : Type} (c : M A) (k : A -> M B) : M B :=
  fun w =>
    match c w with
    | (Ok a, w') => k a w'
    | (Raise e, w') => (Raise e, w')
    end.

Definition lift {A : Type} (r : result A) : M A := fun w => (r, w).

Declare Scope M_scope.
Delimit Scope M_scope with M.
Notation "x <- c ;; k" := (bind c (fun x => k))
  (at level 61, c at next level, right associativity) : M_scope.
Notation "c ;; k" := (bind c (fun _ => k))
  (at level 61, right associativity) : M_scope.

(** [for x in xs: body(x)] *)
Fixpoint for_ {A : Type} (xs : list A) (body : A -> M unit) : M unit :=
  match xs with
  | [] => ret tt
  | x :: xs' => (body x ;; for_ xs' body)%M
  end.

(** [try: c except ImportError: handler] *)
Definition try_except_ImportError {A : Type} (c handler : M A) : M A :=
  fun w =>
    match c w with
    | (Raise ImportError, w') => handler w'
    | r => r
    end.

(** *** Objects *)

Definition ref : Type := nat.

Definition alloc (im : image) : M ref :=
  fun w => (Ok (length (heap w)), set_heap w (heap w ++ [im])).

Definition load (r : ref) : M image :=
  fun w =>
    match nth_error (heap w) r with
    | Some im => (Ok im, w)
    | None => (Raise NameError, w)
    end.

Fixpoint update {A : Type} (l : list A) (i : nat) (a : A) : list A :=
  match l, i with
  | [], _ => []
  | _ :: l', O => a :: l'
  | b :: l', S i' => b :: update l' i' a
  end.

Definition store (r : ref) (im : image) : M unit :=
  fun w => (Ok tt, set_heap w (update (heap w) r im)).

(** A name of a module is usable once the module has been imported. *)
Definition has_module (name : string) (w : world) : bool :=
  existsb (String.eqb name) (modules w).

Definition need (name : string) : M unit :=
  fun w => if has_module name w then (Ok tt, w) else (Raise NameError, w).

Definition import_ (name : string) : M unit :=
  fun w =>
    if installed w name then (Ok tt, set_modules w (name :: modules w))
    else (Raise ImportError, w).

(** *** The Pillow calls of the script *)

Definition Image_new (m : mode) (size : Z * Z) (c : color) : M ref :=
  (need "PIL" ;; im <- lift (new_image m size c) ;; alloc im)%M.

(** A drawing context keeps a reference to its image and draws in place. *)
Definition ImageDraw_Draw (im : ref) : M ref :=
  (need "PIL" ;; _ <- load im ;; ret im)%M.

Definition draw_rectangle (draw : ref) (p0 p1 : Z * Z) (c : color) : M unit :=
  (im <- load draw ;; im' <- lift (fill_rectangle p0 p1 c im) ;; store draw im')%M.

Definition draw_polygon `{Backend} (draw : ref) (xy : list point) (c : color) : M unit :=
  (im <- load draw ;; im' <- lift (fill_polygon xy c im) ;; store draw im')%M.

Definition Image_convert (r : ref) (m : mode) : M ref :=
  (im <- load r ;; alloc (convert_image m im))%M.

Definition Image_alpha_composite `{Backend} (r1 r2 : ref) : M ref :=
  (need "PIL" ;;
   im1 <- load r1 ;; im2 <- load r2 ;;
   im <- lift (alpha_composite im1 im2) ;;
   alloc im)%M.

(** *** Files and output *)

Fixpoint fs_lookup (path : string) (f : list (string * entry)) : option entry :=
  match f with
  | [] => None
  | (p, e) :: f' => if String.eqb p path then Some e else fs_lookup path f'
  end.

Definition fs_set (path : string) (e : entry) (f : list (string * entry))
    : list (string * entry) :=
  (path, e) :: filter (fun pe => negb (String.eqb (fst pe) path)) f.

Definition print (s : string) : M unit :=
  fun w => (Ok tt, set_stdout w (stdout w ++ [s])).

Definition sys_exit {A : Type} (status : Z) : M A := raise (SystemExit status).

(** [os.makedirs(path, exist_ok=True)] for a path of one component. *)
Definition os_makedirs (path : string) : M unit :=
  fun w =>
    match fs_lookup path (fs w) with
    | Some Directory => (Ok tt, w)
    | Some (PngFile _) => (Raise FileExistsError, w)
    | None =>
        if io_fails w path then (Raise OSError, w)
        else (Ok tt, set_fs w (fs_set path Directory (fs w)))
    end.

(** [os.path.join(a, b)] for a relative [b]. *)
Definition os_path_join (a b : string) : string := (a ++ "/" ++ b)%string.

(** [os.path.dirname]: the text before the last ["/"]. *)
Fixpoint dirname_aux (s : string) : option string :=
  match s with
  | EmptyString => None
  | String c s' =>
      match dirname_aux s' with
      | Some d => Some (String c d)
      | None => if Ascii.eqb c "/"%char then Some EmptyString else None
      end
  end.

Definition dirname (s : string) : string :=
  match dirname_aux s with
  | Some d => d
  | None => EmptyString
  end.

(** [im.save(path, 'PNG', quality=100)]: the directory of [path] must
    exist; the file is created or replaced. *)
Definition Image_save (r : ref) (path : string) : M unit :=
  (im <- load r ;;
   fun w =>
     let dir := dirname path in
     match (if String.eqb dir EmptyString then Some Directory else fs_lookup dir (fs w)) with
     | Some Directory =>
         match fs_lookup path (fs w) with
         | Some Directory => (Raise OSError, w)
         | _ =>
             if io_fails w path then (Raise OSError, w)
             else (Ok tt, set_fs w (fs_set path (PngFile im) (fs w)))
         end
     | _ => (Raise FileNotFoundError, w)
     end)%M.

Definition str (z : Z) : string := NilZero.string_of_int (Z.to_int z).

(** ** The script *)

Section Script.

Context `{Backend}.

(** Lines 32-42: the background gradient, one rectangle per row. *)
Definition draw_gradient (draw : ref) (size : Z) : M unit :=
  for_ (range size) (fun y =>
    (color <- lift (gradient_color size y) ;;
     let '(r, g, b) := color in
     draw_rectangle draw (0, y) (size, y + 1) (ColorTuple3 r g b))%M).

(** Lines 24-120. *)
Definition create_play_store_icon (size : Z) : M ref :=
  (img <- Image_new RGB (size, size) (ColorName "#FFFFFF") ;;
   draw <- ImageDraw_Draw img ;;
   draw_gradient draw size ;;
   (* yellow accent triangle *)
   yellow_overlay <- Image_new RGBA (size, size) (ColorTuple4 0 0 0 0) ;;
   yellow_draw <- ImageDraw_Draw yellow_overlay ;;
   draw_polygon yellow_draw
     [(PyInt 0, PyInt 0); (PyInt size, PyInt (size / 2)); (PyInt 0, PyInt size)]
     (ColorTuple4 255 217 61 76) ;;
   img_rgba <- Image_convert img RGBA ;;
   composite <- Image_alpha_composite img_rgba yellow_overlay ;;
   img <- Image_convert composite RGB ;;
   (* purple overlay *)
   purple_overlay <- Image_new RGBA (size, size) (ColorTuple4 0 0 0 0) ;;
   purple_draw <- ImageDraw_Draw purple_overlay ;;
   draw_rectangle purple_draw (0, 0) (size, size) (ColorTuple4 155 89 182 153) ;;
   img_rgba <- Image_convert img RGBA ;;
   composite <- Image_alpha_composite img_rgba purple_overlay ;;
   img <- Image_convert composite RGB ;;
   (* scale factor for foreground elements *)
   p <- lift (compute_placement size) ;;
   foreground <- Image_new RGBA (size, size) (ColorTuple4 0 0 0 0) ;;
   fg_draw <- ImageDraw_Draw foreground ;;
   (* shield *)
   base_x <- lift (compute_base_x p) ;;
   base_y <- lift (compute_base_y p) ;;
   shield_size <- lift (compute_shield_size p) ;;
   shield_path <- lift (compute_shield_path base_x base_y shield_size) ;;
   draw_polygon fg_draw shield_path (ColorName "#FFFFFF") ;;
   inner_shield <- lift (compute_inner_shield base_x base_y shield_path) ;;
   draw_polygon fg_draw inner_shield (ColorName "#E8F4FD") ;;
   (* checkmark *)
   check_size <- lift (compute_check_size p) ;;
   check_points <- lift (compute_check_points base_x base_y check_size) ;;
   draw_polygon fg_draw check_points (ColorName "#27AE60") ;;
   (* star *)
   let star_x := base_x in
   star_y <- lift (compute_star_y p) ;;
   star_radius <- lift (compute_star_radius p) ;;
   star_points <- lift (compute_star_points star_x star_y star_radius) ;;
   draw_polygon fg_draw star_points (ColorName "#FFD93D") ;;
   (* composite foreground onto background *)
   img_rgba <- Image_convert img RGBA ;;
   composite <- Image_alpha_composite img_rgba foreground ;;
   img <- Image_convert composite RGB ;;
   ret img)%M.

(** The [sizes] dictionary, in insertion order. *)
Definition sizes : list (Z * string) :=
  [(512, "chorequest_icon_512x512.png"%string);
   (1024, "chorequest_icon_1024x1024.png"%string)].

(** Lines 122-146. *)
Definition main : M unit :=
  (let output_dir := "play_store_icons"%string in
   os_makedirs output_dir ;;
   print "🎮 Generating ChoreQuest Play Store Icons..." ;;
   print EmptyString ;;
   for_ sizes (fun item =>
     let '(size, filename) := item in
     print ("Generating " ++ str size ++ "x" ++ str size ++ " icon...") ;;
     icon <- create_play_store_icon size ;;
     let output_path := os_path_join output_dir filename in
     Image_save icon output_path ;;
     print ("✓ Saved: " ++ output_path)) ;;
   print EmptyString ;;
   print "✅ Icon generation complete!" ;;
   print ("📁 Icons saved in: " ++ output_dir ++ "/") ;;
   print EmptyString ;;
   print "For Play Store submission, use: chorequest_icon_512x512.png")%string%M.

(** Lines 16-22 and 148-149: the import guard, then [main]. *)
Definition import_guard : M unit :=
  try_except_ImportError
    (import_ "PIL" ;; import_ "cairosvg")%M
    (print "Error: Missing required packages." ;;
     print "Install with: pip install cairosvg pillow" ;;
     sys_exit 1)%M.

Definition script : M unit := (import_guard ;; main)%M.

(** The exit status of the process: [0] on normal termination, the
    argument of [sys.exit], and [1] for any other uncaught exception. *)
Definition exit_status {A : Type} (r : result A) : Z :=
  match r with
  | Ok _ => 0
  | Raise (SystemExit n) => n
  | Raise _ => 1
  end.

Definition run_script (w : world) : Z * world :=
  let '(r, w') := script w in (exit_status r, w').

End Script.

(** * Vocabulary of the statements *)

(** A simple instance of [Backend]: a polygon covers the bounding box of
    its vertices, and blending is the integer [over] operator. *)
Definition coord (v : num) : Z :=
  match py_int v with
  | Ok z => z
  | Raise _ => 0
  end.

Definition box_covers (xy : list point) (x y : Z) : bool :=
  match xy with
  | [] => false
  | p :: _ =>
      let xs := map (fun q => coord (fst q)) xy in
      let ys := map (fun q => coord (snd q)) xy in
      (fold_right Z.min (coord (fst p)) xs <=? x)
      && (x <=? fold_right Z.max (coord (fst p)) xs)
      && (fold_right Z.min (coord (snd p)) ys <=? y)
      && (y <=? fold_right Z.max (coord (snd p)) ys)
  end.

Definition over (dst src : rgba) : rgba :=
  let '(dr, dg, db, da) := dst in
  let '(sr, sg, sb, sa) := src in
  ((sr * sa + dr * (255 - sa)) / 255,
   (sg * sa + dg * (255 - sa)) / 255,
   (sb * sa + db * (255 - sa)) / 255,
   sa + da * (255 - sa) / 255).

Definition box_backend : Backend :=
  {| polygon_covers := box_covers; blend_over := over |}.

(** A machine with the given packages installed, before the script
    starts: nothing imported, no object, no file, no output. *)
Definition machine (packages : list string) : world :=
  {| installed := fun name => existsb (String.eqb name) packages;
     io_fails := fun _ => false;
     modules := [];
     heap := [];
     fs := [];
     stdout := [] |}.

Definition full_machine : world := machine ["PIL"; "cairosvg"]%string.
Definition pil_only_machine : world := machine ["PIL"]%string.
Definition bare_machine : world := machine [].

(** The same machine once Pillow has been imported. *)
Definition pil_world : world := set_modules full_machine ["PIL"%string].

Definition spacing (x : Q) : Z := 2 ^ shift_of (Qfloor x).

Definition representable (n : Z) : Prop := (2 ^ shift_of (Z.abs n) | n).

(** Rounding of a whole number of units. *)
Definition rz (k : Z) : Z := round_units (inject_Z k).

Definition ratio_units (size y : Z) : Z :=
  round_units (inject_Z (y * U) / inject_Z size).

Definition channel (c d n : Z) : Z := Z.quot (rz (c * U + rz (d * n))) U.

Fixpoint foldR {A B : Type} (f : B -> A -> result B) (l : list A) (b : B) : result B :=
  match l with
  | [] => Ok b
  | a :: l' => (b' <- f b a ;; foldR f l' b')%res
  end.

Section Pure.

Context `{Backend}.

Definition gradient_step (size : Z) (im : image) (y : Z) : result image :=
  (color <- gradient_color size y ;;
   let '(r, g, b) := color in
   fill_rectangle (0, y) (size, y + 1) (ColorTuple3 r g b) im)%res.

Definition gradient_image (size : Z) (im : image) : result image :=
  foldR (gradient_step size) (range size) im.

Definition overlay_on (img overlay : image) : result image :=
  (composite <- alpha_composite (convert_image RGBA img) overlay ;;
   Ok (convert_image RGB composite))%res.

Definition render_image (size : Z) : result image :=
  (img <- new_image RGB (size, size) (ColorName "#FFFFFF") ;;
   img <- gradient_image size img ;;
   yellow_overlay <- new_image RGBA (size, size) (ColorTuple4 0 0 0 0) ;;
   yellow_overlay <- fill_polygon
     [(PyInt 0, PyInt 0); (PyInt size, PyInt (size / 2)); (PyInt 0, PyInt size)]
     (ColorTuple4 255 217 61 76) yellow_overlay ;;
   img <- overlay_on img yellow_overlay ;;
   purple_overlay <- new_image RGBA (size, size) (ColorTuple4 0 0 0 0) ;;
   purple_overlay <- fill_rectangle (0, 0) (size, size) (ColorTuple4 155 89 182 153)
     purple_overlay ;;
   img <- overlay_on img purple_overlay ;;
   p <- compute_placement size ;;
   foreground <- new_image RGBA (size, size) (ColorTuple4 0 0 0 0) ;;
   base_x <- compute_base_x p ;;
   base_y <- compute_base_y p ;;
   shield_size <- compute_shield_size p ;;
   shield_path <- compute_shield_path base_x base_y shield_size ;;
   foreground <- fill_polygon shield_path (ColorName "#FFFFFF") foreground ;;
   inner_shield <- compute_inner_shield base_x base_y shield_path ;;
   foreground <- fill_polygon inner_shield (ColorName "#E8F4FD") foreground ;;
   check_size <- compute_check_size p ;;
   check_points <- compute_check_points base_x base_y check_size ;;
   foreground <- fill_polygon check_points (ColorName "#27AE60") foreground ;;
   let star_x := base_x in
   star_y <- compute_star_y p ;;
   star_radius <- compute_star_radius p ;;
   star_points <- compute_star_points star_x star_y star_radius ;;
   foreground <- fill_polygon star_points (ColorName "#FFD93D") foreground ;;
   overlay_on img foreground)%res.

End Pure.

(** The image a call returns: the object its result refers to. *)
Definition returned_image (out : result ref * world) : result image :=
  match out with
  | (Ok r, w) =>
      match nth_error (heap w) r with
      | Some im => Ok im
      | None => Raise NameError
      end
  | (Raise e, _) => Raise e
  end.

Definition pil_ready (w : world) : Prop := has_module "PIL" w = true.

(** The outcome of a call, against the image the function of [size] gives:
    the call returns a new object holding that image, or raises the same
    exception; objects that existed before are left as they were. *)
Definition simulates (w : world) (h0 : list image) (spec : result image) (out : result ref * world) : Prop :=
  match spec with
  | Ok im =>
      exists r l, out = (Ok r, set_heap w (h0 ++ l))
                  /\ nth_error (h0 ++ l) r = Some im
                  /\ r = (length h0 + 12)%nat /\ length l = 13%nat
  | Raise e => exists l, out = (Raise e, set_heap w (h0 ++ l))
  end.

(** A raster of [n] rows of [n] pixels. *)
Definition square {A : Type} (n : nat) (rows : list (list A)) : Prop :=
  length rows = n /\ Forall (fun row => length row = n) rows.

(** An image of [size] by [size] pixels in mode [m], with a pixel buffer of
    that shape. *)
Definition well_formed (size : Z) (m : mode) (im : image) : Prop :=
  im_size im = (size, size) /\
  match im_data im with
  | RasterRGB rows => m = RGB /\ square (Z.to_nat size) rows
  | RasterRGBA rows => m = RGBA /\ square (Z.to_nat size) rows
  end.

Definition color_ok (c : color) : Prop :=
  match c with
  | ColorName s => exists v, getrgb s = Ok v
  | _ => True
  end.

(** The colour of row [y]. *)
Definition row_color (size y : Z) : rgb :=
  (channel 74 81 (ratio_units size y),
   channel 144 (-55) (ratio_units size y),
   channel 226 (-44) (ratio_units size y)).

(** [mag k v]: the number [v] is finite and at most [2^k] units in
    absolute value. *)
Definition mag (k : Z) (v : num) : Prop :=
  match v with
  | PyInt z => Z.abs z * U <= 2 ^ k
  | PyFloat (Finite n) => Z.abs n <= 2 ^ k
  | PyFloat _ => False
  end.

Definition top : Z := emax + unit_exp.

Definition emag (k : Z) (e : result num) : Prop :=
  exists v, e = Ok v /\ mag k v.

(** The float literals of the script are below [32]. *)
Definition lit_bound : Z := unit_exp + 5.

(** The sizes for which every quantity of the layout is shown finite. *)
Definition size_exp : Z := 960.
Definition max_size : Z := 2 ^ size_exp.

Definition side (j k l : Z) : bool :=
  (0 <=? j) && (j <? top) && (0 <=? k) && (k <? top) && (0 <=? l) && (l <? top).

Definition placement_ok (p : placement) : Prop :=
  mag 2034 (scale p) /\ mag 2039 (foreground_scale p)
  /\ mag 2039 (translate_x p) /\ mag 2039 (translate_y p).

Definition zmag (k z : Z) : Prop := Z.abs z * U <= 2 ^ k.

Definition pmag (k : Z) (q : point) : Prop := mag k (fst q) /\ mag k (snd q).

Definition output_dir : string := "play_store_icons".
Definition path_512 : string := "play_store_icons/chorequest_icon_512x512.png".
Definition path_1024 : string := "play_store_icons/chorequest_icon_1024x1024.png".

(** What [main] prints when both icons are written. *)
Definition main_output : list string :=
  ["🎮 Generating ChoreQuest Play Store Icons...";
   EmptyString;
   "Generating 512x512 icon...";
   "✓ Saved: play_store_icons/chorequest_icon_512x512.png";
   "Generating 1024x1024 icon...";
   "✓ Saved: play_store_icons/chorequest_icon_1024x1024.png";
   EmptyString;
   "✅ Icon generation complete!";
   "📁 Icons saved in: play_store_icons/";
   EmptyString;
   "For Play Store submission, use: chorequest_icon_512x512.png"]%string.

(** The outcome of [main] once [os.makedirs] has left the file system
    [f0]: both icons are rendered and saved, in this order, and the eleven
    lines are printed. *)
Definition main_post `{Backend} (w : world) (f0 : list (string * entry))
    (out : result unit * world) : Prop :=
  exists im512 im1024 l,
    out = (Ok tt,
           set_stdout
             (set_fs (set_heap w (heap w ++ l))
                (fs_set path_1024 (PngFile im1024)
                   (fs_set path_512 (PngFile im512) f0)))
             (stdout w ++ main_output))
    /\ render_image 512 = Ok im512 /\ well_formed 512 RGB im512
    /\ render_image 1024 = Ok im1024 /\ well_formed 1024 RGB im1024.

Definition missing_output : list string :=
  ["Error: Missing required packages.";
   "Install with: pip install cairosvg pillow"]%string.

Definition eps : Q := 1 # (2 ^ 53).

Definition big : Z := 2 ^ 2000.


(** Two colours that agree up to one unit in each channel. *)
Definition within_one (c e : rgb) : Prop :=
  let '(r, g, b) := c in
  let '(r', g', b') := e in
  Z.abs (r - r') <= 1 /\ Z.abs (g - g') <= 1 /\ Z.abs (b - b') <= 1.

(** The bottom row of the gradient has the end colour up to rounding. *)
Definition bottom_row_at_end (size : Z) : Prop :=
  exists c, gradient_color size (size - 1) = Ok c /\ within_one c (0x9B, 0x59, 0xB6).

(** The anchors of two sizes are at the same relative position:
    [base(s1) / s1 = base(s2) / s2], cross-multiplied. *)
Definition proportional_anchors (s1 s2 : Z) : Prop :=
  exists x1 y1 x2 y2,
    shield_anchor s1 = Ok (x1, y1) /\ shield_anchor s2 = Ok (x2, y2)
    /\ x1 * s2 = x2 * s1 /\ y1 * s2 = y2 * s1.

(** A canvas as [Image.new('RGB', (size, size), '#FFFFFF')] makes it. *)
Definition white_canvas (size : Z) : image :=
  {| im_size := (size, size);
     im_data := RasterRGB (blank (size, size) (255, 255, 255)) |}.

(** A world in which Pillow is imported and object [0] is a white canvas
    of 2 by 2 pixels. *)
Definition canvas_world : world :=
  {| installed := fun _ => true;
     io_fails := fun _ => false;
     modules := ["PIL"%string];
     heap := [white_canvas 2];
     fs := [];
     stdout := [] |}.

(** A new run of the interpreter on the same machine: the packages and
    the files are those of [w], nothing is imported and no object exists. *)
Definition restart (w : world) : world :=
  {| installed := installed w;
     io_fails := io_fails w;
     modules := [];
     heap := [];
     fs := fs w;
     stdout := [] |}.

Definition clear_layer (size : Z) : image :=
  {| im_size := (size, size);
     im_data := RasterRGBA (blank (size, size) (0, 0, 0, 0)) |}.

(** A world in which Pillow is imported and object [0] is a transparent
    layer of 3 by 3 pixels. *)
Definition layer_world : world :=
  {| installed := fun _ => true;
     io_fails := fun _ => false;
     modules := ["PIL"%string];
     heap := [clear_layer 3];
     fs := [];
     stdout := [] |}.

(** A machine on which a file has the name of the output directory. *)
Definition blocked_machine : world :=
  set_fs full_machine [(output_dir, PngFile (white_canvas 1))].


(** The channel that exact arithmetic gives: [c + d * y / size], rounded
    down. *)
Definition exact_channel (c d size y : Z) : Z := c + (d * y) / size.

(** The pixel in column [x] of row [y]. *)
Definition pixel {A : Type} (rows : list (list A)) (x y : Z) : option A :=
  match nth_error rows (Z.to_nat y) with
  | Some row => nth_error row (Z.to_nat x)
  | None => None
  end.





Section Picture.

Context `{Backend}.





End Picture.

(** An image of [size] by [size] pixels on which pixel [(x, y)] is
    [f x y]. *)
Definition shows {A : Type} (size : Z) (rows : list (list A)) (f : Z -> Z -> A) : Prop :=
  square (Z.to_nat size) rows
  /\ forall x y, 0 <= x < size -> 0 <= y < size -> pixel rows x y = Some (f x y).

Definition depicts_rgb (size : Z) (im : image) (f : Z -> Z -> rgb) : Prop :=
  im_size im = (size, size)
  /\ exists rows, im_data im = RasterRGB rows /\ shows size rows f.


(** * Theory *)

(** ** A rasteriser and some worlds to run the script in *)

(** * Rounding *)

Lemma Qfloor_unique (y : Q) (n : Z) :
  (inject_Z n <= y)%Q -> (y < inject_Z (n + 1))%Q -> Qfloor y = n.
Proof.
  intros Hlo Hhi.
  pose proof (Qfloor_le y) as H1.
  pose proof (Qlt_floor y) as H2.
  assert (Qfloor y < n + 1).
  { rewrite Zlt_Qlt. eapply Qle_lt_trans; eassumption. }
  assert (n < Qfloor y + 1).
  { rewrite Zlt_Qlt. eapply Qle_lt_trans; eassumption. }
  lia.
Qed.

Lemma Qcompare_scale (a b c : Q) :
  (0 < c)%Q -> Qcompare (a * c) (b * c) = Qcompare a b.
Proof.
  intros Hc.
  destruct (Qcompare_spec a b) as [E | L | G].
  - apply Qeq_alt. rewrite E. reflexivity.
  - apply Qlt_alt. apply Qmult_lt_r; assumption.
  - apply Qgt_alt. apply Qmult_lt_r; assumption.
Qed.

Lemma rne_floor (q : Q) : Qfloor q <= rne q <= Qfloor q + 1.
Proof.
  unfold rne.
  destruct (Qcompare _ _); try destruct (Z.even _); lia.
Qed.

Lemma rne_ge_int (q : Q) (n : Z) : (inject_Z n <= q)%Q -> n <= rne q.
Proof.
  intros Hn.
  pose proof (rne_floor q).
  pose proof (Qfloor_resp_le _ _ Hn) as Hf.
  rewrite Qfloor_Z in Hf. lia.
Qed.

Lemma rne_le_int (q : Q) (n : Z) : (q <= inject_Z n)%Q -> rne q <= n.
Proof.
  intros Hn.
  pose proof (Qfloor_resp_le _ _ Hn) as Hf.
  rewrite Qfloor_Z in Hf.
  destruct (Z.eq_dec (Qfloor q) n) as [E | NE].
  - unfold rne. rewrite E.
    destruct (Qcompare_spec (q - inject_Z n) (1 # 2)) as [E1 | L1 | G1];
      try lia; exfalso; lra.
  - pose proof (rne_floor q). lia.
Qed.

Lemma rne_mono (p q : Q) : (p <= q)%Q -> rne p <= rne q.
Proof.
  intros Hpq.
  pose proof (Qfloor_resp_le _ _ Hpq) as Hf.
  destruct (Z.eq_dec (Qfloor p) (Qfloor q)) as [E | NE].
  - unfold rne. rewrite E.
    destruct (Qcompare_spec (p - inject_Z (Qfloor q)) (1 # 2)) as [E1 | L1 | G1];
      destruct (Qcompare_spec (q - inject_Z (Qfloor q)) (1 # 2)) as [E2 | L2 | G2];
      try destruct (Z.even (Qfloor q)); try lia; exfalso; lra.
  - pose proof (rne_floor p). pose proof (rne_floor q). lia.
Qed.

Lemma rne_error (q : Q) :
  (inject_Z (rne q) - (1 # 2) <= q <= inject_Z (rne q) + (1 # 2))%Q.
Proof.
  pose proof (Qfloor_le q) as H1.
  pose proof (Qlt_floor q) as H2.
  rewrite inject_Z_plus in H2.
  unfold rne.
  destruct (Qcompare_spec (q - inject_Z (Qfloor q)) (1 # 2)) as [E | L | G];
    try destruct (Z.even (Qfloor q)); rewrite ?inject_Z_plus;
    change (inject_Z 1) with 1%Q in *; lra.
Qed.

Lemma rne_int (n : Z) : rne (inject_Z n) = n.
Proof.
  apply Z.le_antisymm.
  - apply rne_le_int. apply Qle_refl.
  - apply rne_ge_int. apply Qle_refl.
Qed.

(** ** Rounding to the float grid *)

Lemma shift_of_nonneg (f : Z) : 0 <= shift_of f.
Proof. unfold shift_of. lia. Qed.

Lemma spacing_pos (x : Q) : 0 < spacing x.
Proof. unfold spacing. apply Z.pow_pos_nonneg; [lia | apply shift_of_nonneg]. Qed.

Lemma inject_Z_pos (g : Z) : 0 < g -> (0 < inject_Z g)%Q.
Proof. intros Hg. rewrite Zlt_Qlt in Hg. exact Hg. Qed.

Lemma Qfloor_div (x : Q) (g : Z) :
  0 < g -> Qfloor (x / inject_Z g) = Qfloor x / g.
Proof.
  intros Hg.
  pose proof (inject_Z_pos g Hg) as Hgq.
  pose proof (Qfloor_le x) as H1.
  pose proof (Qlt_floor x) as H2.
  pose proof (Z.mul_div_le (Qfloor x) g Hg) as H3.
  pose proof (Z.mul_succ_div_gt (Qfloor x) g Hg) as H4.
  apply Qfloor_unique.
  - apply Qle_shift_div_l; [assumption |].
    rewrite <- inject_Z_mult.
    eapply Qle_trans; [| exact H1].
    rewrite <- Zle_Qle. lia.
  - apply Qlt_shift_div_r; [assumption |].
    rewrite <- inject_Z_mult.
    eapply Qlt_le_trans; [exact H2 |].
    rewrite <- Zle_Qle. lia.
Qed.

Lemma round_pos_rne (x : Q) :
  round_pos x = rne (x / inject_Z (spacing x)) * spacing x.
Proof.
  unfold round_pos, spacing.
  pose proof (shift_of_nonneg (Qfloor x)) as Hsh.
  set (sh := shift_of (Qfloor x)) in *.
  rewrite Z.shiftr_div_pow2, !Z.shiftl_mul_pow2 by assumption.
  rewrite Z.mul_1_l.
  assert (Hg : 0 < 2 ^ sh) by (apply Z.pow_pos_nonneg; lia).
  set (g := 2 ^ sh) in *. clearbody g.
  pose proof (inject_Z_pos g Hg) as Hgq.
  unfold rne.
  rewrite (Qfloor_div x g Hg).
  set (m := Qfloor x / g).
  rewrite <- (Qcompare_scale (x / inject_Z g - inject_Z m) (1 # 2) (inject_Z g) Hgq).
  assert (E1 : ((x / inject_Z g - inject_Z m) * inject_Z g == x - inject_Z (m * g))%Q).
  { rewrite inject_Z_mult. field. intros E. rewrite E in Hgq. apply (Qlt_irrefl 0). exact Hgq. }
  assert (E2 : ((1 # 2) * inject_Z g == g # 2)%Q).
  { unfold Qeq, Qmult, inject_Z. cbn [Qnum Qden]. lia. }
  rewrite E1, E2.
  destruct (Qcompare _ _); try destruct (Z.even m); lia.
Qed.

Lemma round_pos_le_multiple (x : Q) (k : Z) :
  (x <= inject_Z (k * spacing x))%Q -> round_pos x <= k * spacing x.
Proof.
  intros Hx.
  pose proof (spacing_pos x) as Hg.
  rewrite round_pos_rne.
  apply Z.mul_le_mono_nonneg_r; [lia |].
  apply rne_le_int.
  apply Qle_shift_div_r; [apply inject_Z_pos; assumption |].
  rewrite <- inject_Z_mult. exact Hx.
Qed.

Lemma round_pos_ge_multiple (x : Q) (k : Z) :
  (inject_Z (k * spacing x) <= x)%Q -> k * spacing x <= round_pos x.
Proof.
  intros Hx.
  pose proof (spacing_pos x) as Hg.
  rewrite round_pos_rne.
  apply Z.mul_le_mono_nonneg_r; [lia |].
  apply rne_ge_int.
  apply Qle_shift_div_l; [apply inject_Z_pos; assumption |].
  rewrite <- inject_Z_mult. exact Hx.
Qed.

Lemma round_pos_nonneg (x : Q) : (0 <= x)%Q -> 0 <= round_pos x.
Proof.
  intros Hx.
  apply (round_pos_ge_multiple x 0). simpl. exact Hx.
Qed.

Lemma Qfloor_nonneg (x : Q) : (0 <= x)%Q -> 0 <= Qfloor x.
Proof.
  intros Hx. apply Qfloor_resp_le in Hx. exact Hx.
Qed.

(** The integer part of [x] has at most [Z.log2 f + 1] bits. *)
Lemma lt_pow2_digits (f : Z) : 0 <= f -> f + 1 <= 2 ^ (Z.log2 f + 1).
Proof.
  intros Hf.
  destruct (Z.eq_dec f 0) as [-> | Hne].
  - simpl. lia.
  - pose proof (Z.log2_spec f ltac:(lia)) as H. unfold Z.succ in H. lia.
Qed.

Theorem round_pos_mono (x y : Q) :
  (0 <= x)%Q -> (x <= y)%Q -> round_pos x <= round_pos y.
Proof.
  intros Hx Hxy.
  pose proof (Qfloor_nonneg x Hx) as Hfx.
  pose proof (Qfloor_resp_le _ _ Hxy) as Hf.
  pose proof (Z.log2_le_mono _ _ Hf) as Hl.
  pose proof (spacing_pos x) as Hgx.
  pose proof (spacing_pos y) as Hgy.
  destruct (Z.eq_dec (shift_of (Qfloor x)) (shift_of (Qfloor y))) as [E | NE].
  - rewrite !round_pos_rne.
    assert (Eg : spacing x = spacing y) by (unfold spacing; rewrite E; reflexivity).
    rewrite Eg.
    apply Z.mul_le_mono_nonneg_r; [lia |].
    apply rne_mono.
    apply Qmult_le_compat_r; [assumption |].
    apply Qlt_le_weak, Qinv_lt_0_compat, inject_Z_pos; assumption.
  - (* the spacing grows: a power of two lies between [x] and [y] *)
    assert (Hs : shift_of (Qfloor x) < shift_of (Qfloor y)) by (unfold shift_of in *; lia).
    set (dx := Z.log2 (Qfloor x) + 1).
    set (dy := Z.log2 (Qfloor y) + 1).
    pose proof (Z.log2_nonneg (Qfloor x)) as Hlx.
    assert (Hsy : shift_of (Qfloor y) = dy - prec) by (unfold shift_of, dy in *; lia).
    assert (Hdxy : dx <= dy - 1) by (unfold shift_of, dx, dy, prec in *; lia).
    assert (Hfy : 0 < Qfloor y).
    { destruct (Z.eq_dec (Qfloor y) 0) as [E0 | N0]; [| lia].
      rewrite E0 in Hs. change (shift_of 0) with 0 in Hs.
      pose proof (shift_of_nonneg (Qfloor x)). lia. }
    pose proof (Z.log2_spec _ Hfy) as [Hlo _].
    assert (Hx2 : round_pos x <= 2 ^ (dy - 1)).
    { assert (Ep : 2 ^ (dy - 1) = 2 ^ (dy - 1 - shift_of (Qfloor x)) * spacing x).
      { unfold spacing. rewrite <- Z.pow_add_r.
        - f_equal. lia.
        - unfold prec in *. lia.
        - apply shift_of_nonneg. }
      rewrite Ep. apply round_pos_le_multiple. rewrite <- Ep.
      pose proof (Qlt_floor x) as Hlt.
      pose proof (lt_pow2_digits _ Hfx) as Hd. fold dx in Hd.
      assert (Hp : 2 ^ dx <= 2 ^ (dy - 1)) by (apply Z.pow_le_mono_r; lia).
      apply Qlt_le_weak. eapply Qlt_le_trans; [exact Hlt |].
      rewrite <- Zle_Qle. lia. }
    assert (Hy2 : 2 ^ (dy - 1) <= round_pos y).
    { assert (Ep : 2 ^ (dy - 1) = 2 ^ (prec - 1) * spacing y).
      { unfold spacing. rewrite Hsy. rewrite <- Z.pow_add_r.
        - f_equal. lia.
        - unfold prec. lia.
        - pose proof (shift_of_nonneg (Qfloor y)). lia. }
      rewrite Ep. apply round_pos_ge_multiple. rewrite <- Ep.
      eapply Qle_trans; [| apply Qfloor_le].
      rewrite <- Zle_Qle. unfold dy.
      replace (Z.log2 (Qfloor y) + 1 - 1) with (Z.log2 (Qfloor y)) by lia.
      exact Hlo. }
    lia.
Qed.

(** ** Signed rounding *)

Lemma rne_comp (p q : Q) : (p == q)%Q -> rne p = rne q.
Proof.
  intros E. unfold rne.
  rewrite (Qfloor_comp _ _ E).
  assert (E' : (p - inject_Z (Qfloor q) == q - inject_Z (Qfloor q))%Q) by (rewrite E; reflexivity).
  rewrite E'. reflexivity.
Qed.

Lemma round_pos_comp (x y : Q) : (x == y)%Q -> round_pos x = round_pos y.
Proof.
  intros E. rewrite !round_pos_rne. unfold spacing.
  rewrite (Qfloor_comp _ _ E).
  f_equal. apply rne_comp. rewrite E. reflexivity.
Qed.

Lemma round_units_comp (x y : Q) : (x == y)%Q -> round_units x = round_units y.
Proof.
  intros E. unfold round_units.
  rewrite E at 1.
  rewrite (round_pos_comp x y E).
  assert (E' : (- x == - y)%Q) by (rewrite E; reflexivity).
  rewrite (round_pos_comp _ _ E'). reflexivity.
Qed.

Lemma of_units_comp (x y : Q) : (x == y)%Q -> of_units x = of_units y.
Proof.
  intros E. unfold of_units. rewrite (round_units_comp x y E). reflexivity.
Qed.

Lemma round_units_nonneg (x : Q) : (0 <= x)%Q -> round_units x = round_pos x.
Proof.
  intros Hx. unfold round_units.
  destruct (Qcompare_spec x 0) as [E | L | G]; try reflexivity.
  exfalso. lra.
Qed.

Lemma round_units_neg (x : Q) : (x < 0)%Q -> round_units x = - round_pos (- x).
Proof.
  intros Hx. unfold round_units.
  destruct (Qcompare_spec x 0) as [E | L | G]; try reflexivity; exfalso; lra.
Qed.

Lemma round_pos_0 (x : Q) : (x == 0)%Q -> round_pos x = 0.
Proof. intros E. rewrite (round_pos_comp x 0 E). reflexivity. Qed.

Theorem round_units_opp (x : Q) : round_units (- x) = - round_units x.
Proof.
  destruct (Qcompare_spec x 0) as [E | L | G].
  - rewrite (round_units_nonneg x) by lra.
    rewrite (round_units_nonneg (- x)) by lra.
    rewrite !round_pos_0; [reflexivity | assumption | lra].
  - rewrite (round_units_neg x) by assumption.
    rewrite (round_units_nonneg (- x)) by lra. lia.
  - rewrite (round_units_nonneg x) by lra.
    rewrite (round_units_neg (- x)) by lra.
    rewrite (round_pos_comp (- - x) x); [reflexivity | ring].
Qed.

(** Rounding is monotone. *)
Theorem round_units_mono (x y : Q) : (x <= y)%Q -> round_units x <= round_units y.
Proof.
  intros Hxy.
  destruct (Qlt_le_dec x 0) as [Hx | Hx]; destruct (Qlt_le_dec y 0) as [Hy | Hy].
  - rewrite !round_units_neg by assumption.
    apply Z.opp_le_mono. rewrite !Z.opp_involutive.
    apply round_pos_mono; lra.
  - rewrite round_units_neg, round_units_nonneg by assumption.
    assert (Hnx : (0 <= - x)%Q) by lra.
    pose proof (round_pos_nonneg (- x) Hnx). pose proof (round_pos_nonneg y Hy). lia.
  - exfalso. lra.
  - rewrite !round_units_nonneg by assumption.
    apply round_pos_mono; assumption.
Qed.

(** *** Representable quantities are not changed *)

Lemma round_pos_exact (n : Z) :
  0 <= n -> representable n -> round_pos (inject_Z n) = n.
Proof.
  intros Hn [k Hk].
  rewrite Z.abs_eq in Hk by assumption.
  rewrite round_pos_rne. unfold spacing. rewrite Qfloor_Z.
  pose proof (shift_of_nonneg n) as Hsh.
  assert (Hg : 0 < 2 ^ shift_of n) by (apply Z.pow_pos_nonneg; lia).
  set (g := 2 ^ shift_of n) in *. clearbody g.
  rewrite (rne_comp _ (inject_Z k)).
  - rewrite rne_int. lia.
  - rewrite Hk at 1. rewrite inject_Z_mult. field.
    pose proof (inject_Z_pos g Hg). intros E. rewrite E in H. apply (Qlt_irrefl 0). exact H.
Qed.

Lemma round_units_exact (n : Z) : representable n -> round_units (inject_Z n) = n.
Proof.
  intros Hr.
  destruct (Z_lt_le_dec n 0) as [Hn | Hn].
  - rewrite round_units_neg by (rewrite Zlt_Qlt in Hn; exact Hn).
    rewrite <- inject_Z_opp.
    rewrite round_pos_exact; [lia | lia |].
    unfold representable in *. rewrite Z.abs_opp.
    apply Z.divide_opp_r. exact Hr.
  - rewrite round_units_nonneg by (rewrite Zle_Qle in Hn; exact Hn).
    apply round_pos_exact; assumption.
Qed.

(** A significand of at most [prec] bits, scaled by a power of two. *)
Lemma representable_scaled (m e : Z) :
  0 <= e -> Z.abs m <= 2 ^ prec -> representable (m * 2 ^ e).
Proof.
  intros He Hm. unfold representable.
  assert (Hpe : 0 < 2 ^ e) by (apply Z.pow_pos_nonneg; lia).
  destruct (Z.eq_dec m 0) as [-> | Hm0].
  - rewrite Z.mul_0_l. apply Z.divide_0_r.
  - rewrite Z.abs_mul, (Z.abs_eq (2 ^ e)) by lia.
    unfold shift_of.
    rewrite Z.log2_mul_pow2 by lia.
    destruct (Z.eq_dec (Z.abs m) (2 ^ prec)) as [Ep | Np].
    + rewrite Ep, Z.log2_pow2 by (unfold prec; lia).
      replace (Z.max (e + prec + 1 - prec) 0) with (e + 1) by lia.
      rewrite Z.pow_add_r by lia.
      assert (Hd : (2 ^ 1 | m)).
      { destruct (Z.abs_eq_or_opp m) as [E | E]; rewrite E in Ep.
        - rewrite Ep. exists (2 ^ (prec - 1)). reflexivity.
        - assert (Em : m = - 2 ^ prec) by lia. rewrite Em. exists (- 2 ^ (prec - 1)). reflexivity. }
      rewrite (Z.mul_comm m). apply Z.mul_divide_mono_l. exact Hd.
    + assert (Hl : Z.log2 (Z.abs m) < prec).
      { apply Z.log2_lt_pow2; lia. }
      assert (Hle : Z.max (e + Z.log2 (Z.abs m) + 1 - prec) 0 <= e) by lia.
      apply Z.divide_trans with (2 ^ e).
      * exists (2 ^ (e - Z.max (e + Z.log2 (Z.abs m) + 1 - prec) 0)).
        rewrite <- Z.pow_add_r by lia. f_equal. lia.
      * apply Z.divide_factor_r.
Qed.

Lemma U_eq : U = 2 ^ unit_exp.
Proof. reflexivity. Qed.

Lemma Upos_eq : Z.pos Upos = U.
Proof. reflexivity. Qed.

Lemma huge_eq : huge = 2 ^ (emax + unit_exp).
Proof. reflexivity. Qed.

Lemma U_pos : 0 < U.
Proof. reflexivity. Qed.

(** An integer of at most [prec] bits is a float. *)
Lemma representable_int (c : Z) : Z.abs c <= 2 ^ prec -> representable (c * U).
Proof.
  intros Hc. rewrite U_eq. apply representable_scaled; [unfold unit_exp; lia | assumption].
Qed.

(** ** The operations round the exact result *)

Lemma F2Q_units (n : Z) : (F2Q n * inject_Z U == inject_Z n)%Q.
Proof.
  unfold F2Q, Qeq, Qmult, inject_Z. cbn [Qnum Qden]. rewrite <- Upos_eq. lia.
Qed.

Lemma fadd_exact (a b : Z) : fadd (Finite a) (Finite b) = round (F2Q a + F2Q b).
Proof.
  unfold fadd, round. apply of_units_comp.
  rewrite Qmult_plus_distr_l, !F2Q_units, inject_Z_plus. reflexivity.
Qed.

Lemma fmul_exact (a b : Z) : fmul (Finite a) (Finite b) = round (F2Q a * F2Q b).
Proof.
  unfold fmul, round. apply of_units_comp.
  rewrite <- Qmult_assoc, F2Q_units.
  unfold F2Q, Qeq, Qmult, inject_Z. cbn [Qnum Qden]. lia.
Qed.

Lemma fdiv_exact (a b : Z) :
  b <> 0 -> fdiv (Finite a) (Finite b) = round (F2Q a / F2Q b).
Proof.
  intros Hb. unfold fdiv, round. apply of_units_comp.
  assert (Hq : ~ (inject_Z b == 0)%Q).
  { unfold Qeq, inject_Z. cbn [Qnum Qden]. lia. }
  assert (Hu : ~ (inject_Z U == 0)%Q).
  { unfold Qeq, inject_Z. cbn [Qnum Qden]. pose proof U_pos. lia. }
  assert (Ea : (F2Q a == inject_Z a / inject_Z U)%Q).
  { rewrite <- (F2Q_units a). field. exact Hu. }
  assert (Eb : (F2Q b == inject_Z b / inject_Z U)%Q).
  { rewrite <- (F2Q_units b). field. exact Hu. }
  rewrite Ea, Eb, inject_Z_mult. field. split; assumption.
Qed.

(** A literal of the source is the rounding of its decimal value. *)
Lemma literal_round (n d : Z) : 0 < d -> literal n d = round (inject_Z n / inject_Z d).
Proof.
  intros Hd. unfold literal, quotient, round. apply of_units_comp.
  rewrite inject_Z_mult. field.
  unfold Qeq, inject_Z. cbn [Qnum Qden]. lia.
Qed.

(** ** Floats of the script *)

Lemma rz_mono (j k : Z) : j <= k -> rz j <= rz k.
Proof. intros H. apply round_units_mono. rewrite <- Zle_Qle. exact H. Qed.

Lemma rz_exact (k : Z) : representable k -> rz k = k.
Proof. apply round_units_exact. Qed.

Lemma rz_opp (k : Z) : rz (- k) = - rz k.
Proof. unfold rz. rewrite inject_Z_opp. apply round_units_opp. Qed.

Lemma representable_opp (k : Z) : representable k -> representable (- k).
Proof.
  unfold representable. rewrite Z.abs_opp. intros H. apply Z.divide_opp_r. exact H.
Qed.

Lemma rz_abs_le (k B : Z) : representable B -> Z.abs k <= B -> Z.abs (rz k) <= B.
Proof.
  intros HB Hk.
  assert (H1 : rz k <= rz B) by (apply rz_mono; lia).
  assert (H2 : rz (- B) <= rz k) by (apply rz_mono; lia).
  rewrite rz_opp in H2. rewrite (rz_exact B HB) in *. lia.
Qed.

Lemma of_units_finite (x : Q) :
  Z.abs (round_units x) < huge -> of_units x = Finite (round_units x).
Proof.
  intros H. unfold of_units.
  apply Z.ltb_lt in H. rewrite H. reflexivity.
Qed.

Lemma of_units_rz (k : Z) : Z.abs (rz k) < huge -> of_units (inject_Z k) = Finite (rz k).
Proof. apply of_units_finite. Qed.

Lemma pow2_prec_U_lt_huge : 2 ^ (prec + 1) * U < huge.
Proof. reflexivity. Qed.

Lemma float_of_int_small (c : Z) :
  Z.abs c <= 2 ^ prec -> float_of_int c = Ok (Finite (c * U)).
Proof.
  intros Hc. unfold float_of_int.
  pose proof (rz_exact _ (representable_int c Hc)) as E.
  rewrite of_units_rz; rewrite E; [reflexivity |].
  pose proof pow2_prec_U_lt_huge. pose proof U_pos.
  rewrite Z.abs_mul, (Z.abs_eq U) by lia.
  assert (Z.abs c * U <= 2 ^ prec * U) by (apply Z.mul_le_mono_nonneg_r; lia).
  assert (2 ^ prec * U <= 2 ^ (prec + 1) * U).
  { apply Z.mul_le_mono_nonneg_r; [lia |]. apply Z.pow_le_mono_r; unfold prec; lia. }
  lia.
Qed.

(** The product of an integer-valued float and a float. *)
Lemma fmul_scaled (c b : Z) :
  fmul (Finite (c * U)) (Finite b) = of_units (inject_Z (c * b)).
Proof.
  unfold fmul. apply of_units_comp.
  unfold Qeq, inject_Z. cbn [Qnum Qden]. rewrite Upos_eq. ring.
Qed.

(** *** The gradient *)

Lemma Qdiv_le_mono (a b : Z) (s : Z) :
  0 < s -> a <= b -> (inject_Z a / inject_Z s <= inject_Z b / inject_Z s)%Q.
Proof.
  intros Hs Hab.
  apply Qmult_le_compat_r.
  - rewrite <- Zle_Qle. exact Hab.
  - apply Qlt_le_weak, Qinv_lt_0_compat, inject_Z_pos. exact Hs.
Qed.

Lemma ratio_mono (size y1 y2 : Z) :
  0 < size -> y1 <= y2 -> ratio_units size y1 <= ratio_units size y2.
Proof.
  intros Hs Hy. unfold ratio_units.
  apply round_units_mono, Qdiv_le_mono; [assumption |].
  pose proof U_pos. apply Z.mul_le_mono_nonneg_r; lia.
Qed.

Lemma representable_U : representable U.
Proof. replace U with (1 * U) by lia. apply representable_int. unfold prec. simpl. lia. Qed.

Lemma representable_0 : representable 0.
Proof. exists 0. reflexivity. Qed.

Lemma ratio_units_0 (size : Z) : 0 < size -> ratio_units size 0 = 0.
Proof.
  intros Hs. unfold ratio_units.
  rewrite (round_units_comp _ (inject_Z 0)).
  - apply (round_units_exact 0 representable_0).
  - rewrite Z.mul_0_l. unfold Qdiv. ring.
Qed.

Lemma ratio_units_full (size : Z) : 0 < size -> ratio_units size size = U.
Proof.
  intros Hs. unfold ratio_units.
  rewrite (round_units_comp _ (inject_Z U)).
  - apply (round_units_exact U representable_U).
  - rewrite inject_Z_mult. field.
    pose proof (inject_Z_pos size Hs) as H. intros E. rewrite E in H. apply (Qlt_irrefl 0). exact H.
Qed.

Lemma ratio_bounds (size y : Z) :
  0 < size -> 0 <= y <= size -> 0 <= ratio_units size y <= U.
Proof.
  intros Hs Hy.
  split.
  - pose proof (ratio_mono size 0 y Hs ltac:(lia)) as H.
    rewrite ratio_units_0 in H by assumption. exact H.
  - pose proof (ratio_mono size y size Hs ltac:(lia)) as H.
    rewrite ratio_units_full in H by assumption. exact H.
Qed.

Lemma U_lt_huge : U < huge.
Proof. reflexivity. Qed.

Lemma truediv_ratio (size y : Z) :
  0 < size -> 0 <= y <= size ->
  (Int y / Int size)%py = Ok (PyFloat (Finite (ratio_units size y))).
Proof.
  intros Hs Hy.
  pose proof (ratio_bounds size y Hs Hy) as Hb.
  unfold Int, binop, bindR, py_truediv.
  assert (E : (size =? 0) = false) by (apply Z.eqb_neq; lia).
  rewrite E. unfold quotient. fold (ratio_units size y).
  rewrite of_units_finite; [reflexivity |].
  fold (ratio_units size y). pose proof U_lt_huge. lia.
Qed.

Lemma representable_2U (c : Z) : Z.abs c <= 2 ^ prec -> representable (c * (2 * U)).
Proof.
  intros Hc. rewrite U_eq.
  replace (2 * 2 ^ unit_exp) with (2 ^ (unit_exp + 1)) by (rewrite Z.pow_add_r; unfold unit_exp; lia).
  apply representable_scaled; [unfold unit_exp; lia | assumption].
Qed.

Lemma channel_eval (c d n : Z) :
  Z.abs c <= 2 ^ prec -> Z.abs d <= 2 ^ prec -> 0 <= n <= U ->
  int_ (Int c + Int d * Val (PyFloat (Finite n)))%py = Ok (channel c d n).
Proof.
  intros Hc Hd Hn.
  pose proof U_pos as HU. pose proof pow2_prec_U_lt_huge as Hh.
  assert (Hp : 2 ^ (prec + 1) = 2 * 2 ^ prec) by reflexivity.
  assert (Hp0 : 0 < 2 ^ prec) by reflexivity.
  assert (H1 : Z.abs (rz (d * n)) <= 2 ^ prec * U).
  { apply rz_abs_le.
    - apply representable_int. rewrite Z.abs_eq; lia.
    - rewrite Z.abs_mul, (Z.abs_eq n) by lia.
      apply Z.mul_le_mono_nonneg; lia. }
  assert (H2 : Z.abs (rz (c * U + rz (d * n))) <= 2 ^ prec * (2 * U)).
  { apply rz_abs_le.
    - apply representable_2U. rewrite Z.abs_eq; lia.
    - assert (Z.abs (c * U) <= 2 ^ prec * U).
      { rewrite Z.abs_mul, (Z.abs_eq U) by lia. apply Z.mul_le_mono_nonneg_r; lia. }
      lia. }
  unfold int_, Int, Val, binop, bindR.
  unfold py_mul, py_add, arith, to_float, bindR.
  rewrite (float_of_int_small d Hd), (float_of_int_small c Hc).
  rewrite fmul_scaled.
  rewrite (of_units_rz (d * n)) by lia.
  unfold fadd. rewrite of_units_rz by lia.
  reflexivity.
Qed.

Theorem gradient_color_eq (size y : Z) :
  0 < size -> 0 <= y < size ->
  gradient_color size y =
    Ok (channel 74 81 (ratio_units size y),
        channel 144 (-55) (ratio_units size y),
        channel 226 (-44) (ratio_units size y)).
Proof.
  intros Hs Hy.
  pose proof (ratio_bounds size y Hs ltac:(lia)) as Hb.
  unfold gradient_color.
  rewrite truediv_ratio by lia.
  cbv beta iota zeta. unfold bindR at 1.
  change (155 - 74) with 81. change (89 - 144) with (-55). change (182 - 226) with (-44).
  rewrite !channel_eval by (try assumption; unfold prec; simpl; lia).
  reflexivity.
Qed.

Lemma channel_mono (c d n1 n2 : Z) :
  0 <= d -> n1 <= n2 -> channel c d n1 <= channel c d n2.
Proof.
  intros Hd Hn. unfold channel.
  apply Z.quot_le_mono; [apply U_pos |].
  apply rz_mono. apply Z.add_le_mono_l. apply rz_mono.
  apply Z.mul_le_mono_nonneg_l; assumption.
Qed.

Lemma channel_anti (c d n1 n2 : Z) :
  d <= 0 -> n1 <= n2 -> channel c d n2 <= channel c d n1.
Proof.
  intros Hd Hn. unfold channel.
  apply Z.quot_le_mono; [apply U_pos |].
  apply rz_mono. apply Z.add_le_mono_l. apply rz_mono.
  apply Z.mul_le_mono_nonpos_l; assumption.
Qed.

Lemma channel_start (c d : Z) : Z.abs c <= 2 ^ prec -> channel c d 0 = c.
Proof.
  intros Hc. unfold channel.
  rewrite Z.mul_0_r, (rz_exact 0 representable_0), Z.add_0_r.
  rewrite (rz_exact _ (representable_int c Hc)).
  apply Z.quot_mul. pose proof U_pos. lia.
Qed.

Lemma channel_end (c d : Z) :
  Z.abs d <= 2 ^ prec -> Z.abs (c + d) <= 2 ^ prec -> channel c d U = c + d.
Proof.
  intros Hd Hcd. unfold channel.
  rewrite (rz_exact _ (representable_int d Hd)).
  replace (c * U + d * U) with ((c + d) * U) by ring.
  rewrite (rz_exact _ (representable_int _ Hcd)).
  apply Z.quot_mul. pose proof U_pos. lia.
Qed.

(** ** The image as a function of [size] *)

(** * Running the script's computations *)

Lemma bind_lift {A B : Type} (r : result A) (k : A -> M B) (w : world) :
  bind (lift r) k w = match r with Ok a => k a w | Raise e => (Raise e, w) end.
Proof. unfold bind, lift. destruct r; reflexivity. Qed.

Lemma bind_ret {A B : Type} (a : A) (k : A -> M B) (w : world) :
  bind (ret a) k w = k a w.
Proof. reflexivity. Qed.

Lemma bind_assoc {A B C : Type} (c : M A) (k : A -> M B) (k' : B -> M C) (w : world) :
  bind (bind c k) k' w = bind c (fun a => bind (k a) k') w.
Proof.
  unfold bind. destruct (c w) as [[a | e] w']; [| reflexivity].
  reflexivity.
Qed.

Lemma nth_error_app_plus {A : Type} (h l : list A) (k : nat) :
  nth_error (h ++ l) (length h + k) = nth_error l k.
Proof.
  rewrite nth_error_app2 by lia. f_equal. lia.
Qed.

Lemma update_app_plus {A : Type} (h l : list A) (k : nat) (a : A) :
  update (h ++ l) (length h + k) a = h ++ update l k a.
Proof.
  induction h as [| b h IH]; simpl; [reflexivity |]. rewrite IH. reflexivity.
Qed.

Lemma update_same {A : Type} (l : list A) (i : nat) (a : A) :
  nth_error l i = Some a -> update l i a = l.
Proof.
  revert i. induction l as [| b l IH]; intros [| i] Hi; simpl in *; try congruence.
  f_equal. apply IH. exact Hi.
Qed.

Lemma nth_error_update {A : Type} (l : list A) (i : nat) (a b : A) :
  nth_error l i = Some a -> nth_error (update l i b) i = Some b.
Proof.
  revert i. induction l as [| c l IH]; intros [| i] Hi; simpl in *; try congruence.
  apply IH. exact Hi.
Qed.

Lemma update_update {A : Type} (l : list A) (i : nat) (a b : A) :
  update (update l i a) i b = update l i b.
Proof.
  revert i. induction l as [| c l IH]; intros [| i]; simpl; try reflexivity.
  f_equal. apply IH.
Qed.

Lemma length_update {A : Type} (l : list A) (i : nat) (a : A) :
  length (update l i a) = length l.
Proof.
  revert i. induction l as [| c l IH]; intros [| i]; simpl; try reflexivity.
  f_equal. apply IH.
Qed.

Section Run.

Context `{Backend}.
Variable w : world.
Hypothesis Hpil : pil_ready w.

Lemma bind_Image_new {B : Type} (m : mode) (sz : Z * Z) (c : color) (k : ref -> M B)
    (h : list image) :
  bind (Image_new m sz c) k (set_heap w h) =
  match new_image m sz c with
  | Ok im => k (length h) (set_heap w (h ++ [im]))
  | Raise e => (Raise e, set_heap w h)
  end.
Proof.
  unfold Image_new. rewrite bind_assoc.
  unfold bind at 1. unfold need.
  replace (has_module "PIL" (set_heap w h)) with true by (symmetry; exact Hpil).
  rewrite bind_assoc, bind_lift. destruct (new_image m sz c); reflexivity.
Qed.

Lemma bind_Draw {B : Type} (r : ref) (k : ref -> M B) (h : list image) (im : image) :
  nth_error h r = Some im ->
  bind (ImageDraw_Draw r) k (set_heap w h) = k r (set_heap w h).
Proof.
  intros Hr. unfold ImageDraw_Draw. rewrite bind_assoc.
  unfold bind at 1. unfold need.
  replace (has_module "PIL" (set_heap w h)) with true by (symmetry; exact Hpil).
  rewrite bind_assoc. unfold bind at 1. unfold load. cbn [heap set_heap].
  rewrite Hr. reflexivity.
Qed.

Lemma bind_draw_rectangle {B : Type} (d : ref) (p0 p1 : Z * Z) (c : color)
    (k : unit -> M B) (h : list image) (im : image) :
  nth_error h d = Some im ->
  bind (draw_rectangle d p0 p1 c) k (set_heap w h) =
  match fill_rectangle p0 p1 c im with
  | Ok im' => k tt (set_heap w (update h d im'))
  | Raise e => (Raise e, set_heap w h)
  end.
Proof.
  intros Hd. unfold draw_rectangle. rewrite bind_assoc.
  unfold bind at 1. unfold load. cbn [heap set_heap]. rewrite Hd.
  rewrite bind_assoc, bind_lift. destruct (fill_rectangle p0 p1 c im); reflexivity.
Qed.

Lemma bind_draw_polygon {B : Type} (d : ref) (xy : list point) (c : color)
    (k : unit -> M B) (h : list image) (im : image) :
  nth_error h d = Some im ->
  bind (draw_polygon d xy c) k (set_heap w h) =
  match fill_polygon xy c im with
  | Ok im' => k tt (set_heap w (update h d im'))
  | Raise e => (Raise e, set_heap w h)
  end.
Proof.
  intros Hd. unfold draw_polygon. rewrite bind_assoc.
  unfold bind at 1. unfold load. cbn [heap set_heap]. rewrite Hd.
  rewrite bind_assoc, bind_lift. destruct (fill_polygon xy c im); reflexivity.
Qed.

Lemma bind_convert {B : Type} (r : ref) (m : mode) (k : ref -> M B)
    (h : list image) (im : image) :
  nth_error h r = Some im ->
  bind (Image_convert r m) k (set_heap w h) =
  k (length h) (set_heap w (h ++ [convert_image m im])).
Proof.
  intros Hr. unfold Image_convert. rewrite bind_assoc.
  unfold bind at 1. unfold load. cbn [heap set_heap]. rewrite Hr.
  reflexivity.
Qed.

Lemma bind_alpha_composite {B : Type} (r1 r2 : ref) (k : ref -> M B)
    (h : list image) (im1 im2 : image) :
  nth_error h r1 = Some im1 -> nth_error h r2 = Some im2 ->
  bind (Image_alpha_composite r1 r2) k (set_heap w h) =
  match alpha_composite im1 im2 with
  | Ok im => k (length h) (set_heap w (h ++ [im]))
  | Raise e => (Raise e, set_heap w h)
  end.
Proof.
  intros H1 H2. unfold Image_alpha_composite. rewrite bind_assoc.
  unfold bind at 1. unfold need.
  replace (has_module "PIL" (set_heap w h)) with true by (symmetry; exact Hpil).
  rewrite bind_assoc. unfold bind at 1. unfold load. cbn [heap set_heap]. rewrite H1.
  rewrite bind_assoc. unfold bind at 1. unfold load. cbn [heap set_heap]. rewrite H2.
  rewrite bind_assoc, bind_lift. destruct (alpha_composite im1 im2); reflexivity.
Qed.

(** The gradient loop draws into one image. *)
Lemma draw_gradient_loop {B : Type} (d : ref) (size : Z) (ys : list Z) :
  forall (h : list image) (im : image) (k : unit -> M B),
  nth_error h d = Some im ->
  exists im'',
    bind (for_ ys (fun y =>
      (color <- lift (gradient_color size y) ;;
       let '(r, g, b) := color in
       draw_rectangle d (0, y) (size, y + 1) (ColorTuple3 r g b))%M)) k (set_heap w h) =
    match foldR (gradient_step size) ys im with
    | Ok im' => k tt (set_heap w (update h d im'))
    | Raise e => (Raise e, set_heap w (update h d im''))
    end.
Proof.
  induction ys as [| y ys IH]; intros h im k Hd.
  - exists im. cbn [for_ foldR]. rewrite bind_ret.
    rewrite (update_same h d im Hd). reflexivity.
  - cbn [for_ foldR]. rewrite bind_assoc, bind_assoc, bind_lift.
    unfold gradient_step at 1.
    destruct (gradient_color size y) as [[[r g] b] | e]; cbn [bindR];
      [| exists im; rewrite (update_same h d im Hd); reflexivity].
    rewrite (bind_draw_rectangle d _ _ _ _ h im Hd).
    destruct (fill_rectangle (0, y) (size, y + 1) (ColorTuple3 r g b) im) as [im1 | e];
      cbn [bindR]; [| exists im; rewrite (update_same h d im Hd); reflexivity].
    pose proof (nth_error_update h d im im1 Hd) as Hd1.
    destruct (IH (update h d im1) im1 k Hd1) as [im'' Eh].
    exists im''. rewrite Eh.
    destruct (foldR (gradient_step size) ys im1); rewrite update_update; reflexivity.
Qed.

End Run.

Section Simulation.

Context `{Backend}.
Variable w : world.
Hypothesis Hpil : pil_ready w.
Variable h0 : list image.

Lemma bind_Image_new' {B : Type} (m : mode) (sz : Z * Z) (c : color) (k : ref -> M B)
    (l : list image) :
  bind (Image_new m sz c) k (set_heap w (h0 ++ l)) =
  match new_image m sz c with
  | Ok im => k (length h0 + length l)%nat (set_heap w (h0 ++ (l ++ [im])))
  | Raise e => (Raise e, set_heap w (h0 ++ l))
  end.
Proof.
  rewrite (bind_Image_new w Hpil).
  destruct (new_image m sz c); [| reflexivity].
  rewrite length_app, <- app_assoc. reflexivity.
Qed.

Lemma bind_Draw' {B : Type} (j : nat) (k : ref -> M B) (l : list image) (im : image) :
  nth_error l j = Some im ->
  bind (ImageDraw_Draw (length h0 + j)%nat) k (set_heap w (h0 ++ l)) =
  k (length h0 + j)%nat (set_heap w (h0 ++ l)).
Proof.
  intros Hj. apply (bind_Draw w Hpil) with (im := im).
  rewrite nth_error_app_plus. exact Hj.
Qed.

Lemma bind_draw_rectangle' {B : Type} (j : nat) (p0 p1 : Z * Z) (c : color)
    (k : unit -> M B) (l : list image) (im : image) :
  nth_error l j = Some im ->
  bind (draw_rectangle (length h0 + j)%nat p0 p1 c) k (set_heap w (h0 ++ l)) =
  match fill_rectangle p0 p1 c im with
  | Ok im' => k tt (set_heap w (h0 ++ update l j im'))
  | Raise e => (Raise e, set_heap w (h0 ++ l))
  end.
Proof.
  intros Hj. rewrite (bind_draw_rectangle w) with (im := im).
  - destruct (fill_rectangle p0 p1 c im); [| reflexivity].
    rewrite update_app_plus. reflexivity.
  - rewrite nth_error_app_plus. exact Hj.
Qed.

Lemma bind_draw_polygon' {B : Type} (j : nat) (xy : list point) (c : color)
    (k : unit -> M B) (l : list image) (im : image) :
  nth_error l j = Some im ->
  bind (draw_polygon (length h0 + j)%nat xy c) k (set_heap w (h0 ++ l)) =
  match fill_polygon xy c im with
  | Ok im' => k tt (set_heap w (h0 ++ update l j im'))
  | Raise e => (Raise e, set_heap w (h0 ++ l))
  end.
Proof.
  intros Hj. rewrite (bind_draw_polygon w) with (im := im).
  - destruct (fill_polygon xy c im); [| reflexivity].
    rewrite update_app_plus. reflexivity.
  - rewrite nth_error_app_plus. exact Hj.
Qed.

Lemma bind_convert' {B : Type} (j : nat) (m : mode) (k : ref -> M B)
    (l : list image) (im : image) :
  nth_error l j = Some im ->
  bind (Image_convert (length h0 + j)%nat m) k (set_heap w (h0 ++ l)) =
  k (length h0 + length l)%nat (set_heap w (h0 ++ (l ++ [convert_image m im]))).
Proof.
  intros Hj. rewrite (bind_convert w) with (im := im).
  - rewrite length_app, <- app_assoc. reflexivity.
  - rewrite nth_error_app_plus. exact Hj.
Qed.

Lemma bind_alpha_composite' {B : Type} (j1 j2 : nat) (k : ref -> M B)
    (l : list image) (im1 im2 : image) :
  nth_error l j1 = Some im1 -> nth_error l j2 = Some im2 ->
  bind (Image_alpha_composite (length h0 + j1)%nat (length h0 + j2)%nat) k (set_heap w (h0 ++ l)) =
  match alpha_composite im1 im2 with
  | Ok im => k (length h0 + length l)%nat (set_heap w (h0 ++ (l ++ [im])))
  | Raise e => (Raise e, set_heap w (h0 ++ l))
  end.
Proof.
  intros Hj1 Hj2. rewrite (bind_alpha_composite w Hpil) with (im1 := im1) (im2 := im2).
  - destruct (alpha_composite im1 im2); [| reflexivity].
    rewrite length_app, <- app_assoc. reflexivity.
  - rewrite nth_error_app_plus. exact Hj1.
  - rewrite nth_error_app_plus. exact Hj2.
Qed.

Lemma bind_draw_gradient' {B : Type} (j : nat) (size : Z) (k : unit -> M B)
    (l : list image) (im : image) :
  nth_error l j = Some im ->
  exists l',
    bind (draw_gradient (length h0 + j)%nat size) k (set_heap w (h0 ++ l)) =
    match gradient_image size im with
    | Ok im' => k tt (set_heap w (h0 ++ update l j im'))
    | Raise e => (Raise e, set_heap w (h0 ++ l'))
    end.
Proof.
  intros Hj.
  destruct (draw_gradient_loop w (length h0 + j)%nat size (range size) (h0 ++ l) im k) as [im'' E].
  { rewrite nth_error_app_plus. exact Hj. }
  unfold draw_gradient, gradient_image.
  exists (update l j im''). rewrite E.
  destruct (foldR (gradient_step size) (range size) im) as [im' | e];
    rewrite update_app_plus; reflexivity.
Qed.

Ltac raise_case := eexists; reflexivity.

Ltac pure_step :=
  match goal with
  | Hq : ?c = Ok _ |- simulates _ _ _ (match ?c with _ => _ end) => rewrite Hq
  | |- simulates _ _ (bindR ?c _) _ =>
      destruct c eqn:?; cbn [bindR]; [| raise_case]
  end.

Ltac gradient_step_tac :=
  match goal with
  | |- simulates _ _ _ (bind (draw_gradient _ ?size) ?k (set_heap _ (_ ++ ?l))) =>
      let l' := fresh "l'" in
      let E := fresh "E" in
      destruct (bind_draw_gradient' 0 size k l _ eq_refl) as [l' E]; rewrite E; clear E
  end.

Ltac overlay_step :=
  match goal with
  | |- simulates _ _ (bindR (overlay_on ?a ?b) _) _ =>
      unfold overlay_on at 1;
      destruct (alpha_composite (convert_image RGBA a) b) eqn:?; cbn [bindR];
      [| raise_case]
  | |- simulates _ _ (overlay_on ?a ?b) _ =>
      unfold overlay_on at 1;
      destruct (alpha_composite (convert_image RGBA a) b) eqn:?; cbn [bindR];
      [| raise_case]
  end.

Ltac run_step :=
  match goal with
  | |- simulates _ _ _ (bind (Image_new _ _ _) _ _) =>
      rewrite bind_Image_new'; pure_step; cbn [length app]
  | |- simulates _ _ _ (bind (ImageDraw_Draw _) _ _) =>
      erewrite bind_Draw' by reflexivity
  | |- simulates _ _ _ (bind (draw_gradient _ _) _ _) =>
      gradient_step_tac; pure_step; cbn [update]
  | |- simulates _ _ _ (bind (draw_polygon _ _ _) _ _) =>
      erewrite bind_draw_polygon' by reflexivity; pure_step; cbn [update]
  | |- simulates _ _ _ (bind (draw_rectangle _ _ _ _) _ _) =>
      erewrite bind_draw_rectangle' by reflexivity; pure_step; cbn [update]
  | |- simulates _ _ _ (bind (Image_convert _ _) _ _) =>
      erewrite bind_convert' by reflexivity; cbn [length app]
  | |- simulates _ _ _ (bind (Image_alpha_composite _ _) _ _) =>
      erewrite bind_alpha_composite' by reflexivity; overlay_step; cbn [length app]
  | |- simulates _ _ _ (bind (lift _) _ _) =>
      rewrite bind_lift; pure_step
  end.

Theorem create_play_store_icon_simulates (size : Z) :
  simulates w h0 (render_image size) (create_play_store_icon size (set_heap w (h0 ++ []))).
Proof.
  unfold create_play_store_icon, render_image.
  repeat run_step.
  unfold ret, simulates.
  do 2 eexists. split; [reflexivity |].
  split; [rewrite nth_error_app_plus; reflexivity |].
  split; reflexivity.
Qed.

End Simulation.

(** ** Rasters *)

Lemma length_mapi_from {A B : Type} (f : Z -> A -> B) (i : Z) (l : list A) :
  length (mapi_from f i l) = length l.
Proof.
  revert i. induction l as [| a l IH]; intros i; simpl; [reflexivity |].
  rewrite IH. reflexivity.
Qed.

Lemma nth_error_mapi_from {A B : Type} (f : Z -> A -> B) (i : Z) (l : list A) (k : nat) :
  nth_error (mapi_from f i l) k = option_map (f (i + Z.of_nat k)) (nth_error l k).
Proof.
  revert i k. induction l as [| a l IH]; intros i [| k]; simpl; try reflexivity.
  - rewrite Z.add_0_r. reflexivity.
  - rewrite IH. do 2 f_equal. lia.
Qed.

Lemma mapi_from_id {A : Type} (f : Z -> A -> A) (i : Z) (l : list A) :
  (forall j a, f j a = a) -> mapi_from f i l = l.
Proof.
  intros Hf. revert i. induction l as [| a l IH]; intros i; simpl; [reflexivity |].
  rewrite Hf, IH. reflexivity.
Qed.

Lemma mapi_from_const {A B : Type} (f : Z -> A -> B) (b : B) (i : Z) (l : list A) :
  (forall j a, i <= j < i + Z.of_nat (length l) -> f j a = b) ->
  mapi_from f i l = repeat b (length l).
Proof.
  revert i. induction l as [| a l IH]; intros i Hf; simpl; [reflexivity |].
  rewrite Hf by (simpl length; lia). f_equal.
  apply IH. intros j a' Hj. apply Hf. simpl length. lia.
Qed.

Lemma square_blank {A : Type} (size : Z) (ink : A) :
  square (Z.to_nat size) (blank (size, size) ink).
Proof.
  unfold square, blank. cbn [fst snd]. split.
  - apply repeat_length.
  - apply Forall_forall. intros row Hrow.
    apply repeat_spec in Hrow. subst row. apply repeat_length.
Qed.

Lemma square_paint {A : Type} (n : nat) (covers : Z -> Z -> bool) (ink : A)
    (rows : list (list A)) :
  square n rows -> square n (paint covers ink rows).
Proof.
  intros [Hl Hr]. unfold square, paint. split.
  - rewrite length_mapi_from. exact Hl.
  - apply Forall_forall. intros row Hrow.
    apply In_nth_error in Hrow. destruct Hrow as [k Hk].
    rewrite nth_error_mapi_from in Hk.
    destruct (nth_error rows k) as [row0 |] eqn:E; [| discriminate].
    simpl in Hk. injection Hk as <-.
    rewrite length_mapi_from.
    rewrite Forall_forall in Hr. apply Hr. eapply nth_error_In. exact E.
Qed.

Lemma square_map {A B : Type} (n : nat) (f : A -> B) (rows : list (list A)) :
  square n rows -> square n (map (map f) rows).
Proof.
  intros [Hl Hr]. unfold square. split.
  - rewrite length_map. exact Hl.
  - apply Forall_forall. intros row Hrow.
    apply in_map_iff in Hrow. destruct Hrow as [row0 [<- Hin]].
    rewrite length_map. rewrite Forall_forall in Hr. apply Hr. exact Hin.
Qed.

Lemma length_zip_with {A B C : Type} (f : A -> B -> C) (l : list A) (l' : list B) :
  length l = length l' -> length (zip_with f l l') = length l.
Proof.
  intros E. unfold zip_with. rewrite length_map, length_combine. lia.
Qed.

Lemma square_zip_with {A B C : Type} (n : nat) (f : A -> B -> C)
    (rows : list (list A)) (rows' : list (list B)) :
  square n rows -> square n rows' -> square n (zip_with (zip_with f) rows rows').
Proof.
  intros [Hl Hr] [Hl' Hr']. unfold square. split.
  - rewrite length_zip_with; congruence.
  - apply Forall_forall. intros row Hrow.
    unfold zip_with at 1 in Hrow.
    apply in_map_iff in Hrow. destruct Hrow as [[r r'] [<- Hin]].
    pose proof (in_combine_l _ _ _ _ Hin) as H1.
    pose proof (in_combine_r _ _ _ _ Hin) as H2.
    rewrite Forall_forall in Hr, Hr'.
    cbn [fst snd]. rewrite length_zip_with; [apply Hr; exact H1 |].
    rewrite (Hr _ H1), (Hr' _ H2). reflexivity.
Qed.

Lemma new_image_ok (m : mode) (size : Z) (c : color) :
  0 <= size -> color_ok c ->
  exists im, new_image m (size, size) c = Ok im /\ well_formed size m im.
Proof.
  intros Hs Hc. unfold new_image. cbn [fst snd].
  assert (E : (size <? 0) = false) by (apply Z.ltb_ge; lia).
  rewrite E. cbn [orb].
  destruct m.
  - assert (Hi : exists ink, ink_rgb c = Ok ink).
    { destruct c; cbn [ink_rgb]; try (eexists; reflexivity). exact Hc. }
    destruct Hi as [ink Hi]. rewrite Hi. cbn [bindR].
    eexists. split; [reflexivity |].
    split; [reflexivity |]. cbn [im_data]. split; [reflexivity | apply square_blank].
  - assert (Hi : exists ink, ink_rgba c = Ok ink).
    { destruct c; cbn [ink_rgba]; try (eexists; reflexivity).
      destruct Hc as [[[r g] b] Hv]. rewrite Hv. eexists. reflexivity. }
    destruct Hi as [ink Hi]. rewrite Hi. cbn [bindR].
    eexists. split; [reflexivity |].
    split; [reflexivity |]. cbn [im_data]. split; [reflexivity | apply square_blank].
Qed.

Lemma fill_ok (size : Z) (m : mode) (covers : Z -> Z -> bool) (c : color) (im : image) :
  color_ok c -> well_formed size m im ->
  exists im', fill covers c im = Ok im' /\ well_formed size m im'.
Proof.
  intros Hc [Hsz Hd]. unfold fill.
  destruct (im_data im) as [rows | rows] eqn:E; destruct Hd as [-> Hsq].
  - assert (Hi : exists ink, ink_rgb c = Ok ink).
    { destruct c; cbn [ink_rgb]; try (eexists; reflexivity). exact Hc. }
    destruct Hi as [ink Hi]. rewrite Hi. cbn [bindR].
    eexists. split; [reflexivity |].
    split; [exact Hsz |]. cbn [im_data]. split; [reflexivity | apply square_paint; exact Hsq].
  - assert (Hi : exists ink, ink_rgba c = Ok ink).
    { destruct c; cbn [ink_rgba]; try (eexists; reflexivity).
      destruct Hc as [[[r g] b] Hv]. rewrite Hv. eexists. reflexivity. }
    destruct Hi as [ink Hi]. rewrite Hi. cbn [bindR].
    eexists. split; [reflexivity |].
    split; [exact Hsz |]. cbn [im_data]. split; [reflexivity | apply square_paint; exact Hsq].
Qed.

Lemma convert_image_wf (size : Z) (m m' : mode) (im : image) :
  well_formed size m im -> well_formed size m' (convert_image m' im).
Proof.
  intros [Hsz Hd]. unfold convert_image, well_formed.
  destruct m'; destruct (im_data im) as [rows | rows] eqn:E; destruct Hd as [-> Hsq];
    cbn [im_size im_data]; try rewrite E;
    (split; [exact Hsz | split; [reflexivity |]]);
    first [exact Hsq | apply square_map; exact Hsq].
Qed.

Section Compose.

Context `{Backend}.

Lemma fill_polygon_ok (size : Z) (m : mode) (xy : list point) (c : color) (im : image) :
  color_ok c -> well_formed size m im ->
  exists im', fill_polygon xy c im = Ok im' /\ well_formed size m im'.
Proof. apply fill_ok. Qed.

Lemma alpha_composite_ok (size : Z) (im1 im2 : image) :
  well_formed size RGBA im1 -> well_formed size RGBA im2 ->
  exists im, alpha_composite im1 im2 = Ok im /\ well_formed size RGBA im.
Proof.
  intros [Hs1 Hd1] [Hs2 Hd2]. unfold alpha_composite.
  destruct (im_data im1) as [r1 | r1]; destruct Hd1 as [Hm1 Hq1]; [discriminate |].
  destruct (im_data im2) as [r2 | r2]; destruct Hd2 as [Hm2 Hq2]; [discriminate |].
  rewrite Hs1, Hs2. cbn [fst snd]. rewrite Z.eqb_refl. cbn [andb].
  eexists. split; [reflexivity |].
  split; [reflexivity |]. cbn [im_data]. split; [reflexivity |].
  apply square_zip_with; assumption.
Qed.

Lemma overlay_on_ok (size : Z) (img overlay : image) :
  well_formed size RGB img -> well_formed size RGBA overlay ->
  exists im, overlay_on img overlay = Ok im /\ well_formed size RGB im.
Proof.
  intros Hi Ho. unfold overlay_on.
  destruct (alpha_composite_ok size (convert_image RGBA img) overlay) as [c [Ec Hc]].
  - apply (convert_image_wf size RGB). exact Hi.
  - exact Ho.
  - rewrite Ec. cbn [bindR]. eexists. split; [reflexivity |].
    apply (convert_image_wf size RGBA). exact Hc.
Qed.

End Compose.

(** ** The gradient pass *)

Lemma channel_range (c d lo hi n : Z) :
  Z.abs c <= 2 ^ prec -> Z.abs d <= 2 ^ prec -> Z.abs (c + d) <= 2 ^ prec ->
  lo <= c -> lo <= c + d -> c <= hi -> c + d <= hi ->
  0 <= n <= U -> lo <= channel c d n <= hi.
Proof.
  intros Hc Hd Hcd H1 H2 H3 H4 Hn.
  pose proof (channel_start c d Hc) as Es.
  pose proof (channel_end c d Hd Hcd) as Ee.
  destruct (Z_le_gt_dec 0 d) as [Hp | Hp].
  - pose proof (channel_mono c d 0 n Hp ltac:(lia)).
    pose proof (channel_mono c d n U Hp ltac:(lia)). lia.
  - pose proof (channel_anti c d 0 n ltac:(lia) ltac:(lia)).
    pose proof (channel_anti c d n U ltac:(lia) ltac:(lia)). lia.
Qed.

Lemma row_color_range (size y : Z) :
  0 < size -> 0 <= y < size ->
  let '(r, g, b) := row_color size y in
  74 <= r <= 155 /\ 89 <= g <= 144 /\ 182 <= b <= 226.
Proof.
  intros Hs Hy. unfold row_color.
  pose proof (ratio_bounds size y Hs ltac:(lia)) as Hb.
  assert (Hp : 2 ^ prec = 9007199254740992) by reflexivity.
  split; [| split]; apply channel_range; rewrite ?Hp; simpl; lia.
Qed.

Lemma clip8_id (z : Z) : 0 <= z <= 255 -> clip8 z = z.
Proof. unfold clip8. lia. Qed.

Lemma gradient_step_eq (size y : Z) (im : image) (rows : list (list rgb)) :
  0 < size -> 0 <= y < size ->
  im_size im = (size, size) -> im_data im = RasterRGB rows ->
  gradient_step size im y =
    Ok {| im_size := (size, size);
          im_data := RasterRGB (paint (in_box (0, y) (size, y + 1)) (row_color size y) rows) |}.
Proof.
  intros Hs Hy Hsz Hd. unfold gradient_step.
  rewrite gradient_color_eq by assumption. cbn [bindR].
  pose proof (row_color_range size y Hs Hy) as Hr. unfold row_color in *.
  unfold fill_rectangle. cbn [fst snd].
  assert (E1 : (size <? 0) = false) by (apply Z.ltb_ge; lia).
  assert (E2 : (y + 1 <? y) = false) by (apply Z.ltb_ge; lia).
  rewrite E1, E2. cbn [orb].
  unfold fill. rewrite Hd, Hsz. cbn [ink_rgb bindR].
  rewrite !clip8_id by lia. reflexivity.
Qed.

Lemma foldR_app {A B : Type} (f : B -> A -> result B) (l l' : list A) (b : B) :
  foldR f (l ++ l') b = bindR (foldR f l b) (foldR f l').
Proof.
  revert b. induction l as [| a l IH]; intros b; simpl; [reflexivity |].
  destruct (f b a); simpl; [apply IH | reflexivity].
Qed.

Lemma range_succ (k : nat) :
  range (Z.of_nat (S k)) = range (Z.of_nat k) ++ [Z.of_nat k].
Proof.
  unfold range. rewrite !Nat2Z.id. rewrite seq_S, map_app. reflexivity.
Qed.

Lemma gradient_prefix (size : Z) (im : image) (rows : list (list rgb)) (k : nat) :
  0 < size -> Z.of_nat k <= size ->
  im_size im = (size, size) -> im_data im = RasterRGB rows ->
  square (Z.to_nat size) rows ->
  exists rows',
    foldR (gradient_step size) (range (Z.of_nat k)) im =
      Ok {| im_size := (size, size); im_data := RasterRGB rows' |}
    /\ square (Z.to_nat size) rows'
    /\ forall j, (j < k)%nat ->
         nth_error rows' j = Some (repeat (row_color size (Z.of_nat j)) (Z.to_nat size)).
Proof.
  intros Hs Hk Hsz Hd Hsq.
  induction k as [| k IH].
  - exists rows. cbn [range Z.of_nat Z.to_nat seq map foldR].
    split; [| split; [exact Hsq | intros j Hj; lia]].
    f_equal. destruct im. cbn in *. congruence.
  - destruct IH as [rows' [E [Hsq' Hrows]]]; [lia |].
    rewrite range_succ, foldR_app, E. cbn [bindR foldR].
    rewrite (gradient_step_eq size (Z.of_nat k) _ rows') by (try reflexivity; lia).
    cbn [bindR].
    eexists. split; [reflexivity |]. split; [apply square_paint; exact Hsq' |].
    intros j Hj. unfold paint. rewrite nth_error_mapi_from.
    destruct Hsq' as [Hl Hr]. rewrite Forall_forall in Hr.
    destruct (Nat.eq_dec j k) as [-> | Hne].
    + destruct (nth_error rows' k) as [row |] eqn:Erow.
      * cbn [option_map]. f_equal.
        assert (Hlen : length row = Z.to_nat size) by (apply Hr; eapply nth_error_In; exact Erow).
        rewrite <- Hlen at 1.
        apply mapi_from_const. intros x a Hx.
        unfold in_box. cbn [fst snd].
        replace (0 <=? x) with true by (symmetry; apply Z.leb_le; lia).
        replace (x <=? size) with true by (symmetry; apply Z.leb_le; lia).
        replace (Z.of_nat k <=? 0 + Z.of_nat k) with true by (symmetry; apply Z.leb_le; lia).
        replace (0 + Z.of_nat k <=? Z.of_nat k + 1) with true by (symmetry; apply Z.leb_le; lia).
        reflexivity.
      * exfalso. apply nth_error_None in Erow. lia.
    + rewrite (Hrows j) by lia. cbn [option_map]. f_equal.
      apply mapi_from_id. intros x a.
      unfold in_box. cbn [fst snd].
      replace (Z.of_nat k <=? 0 + Z.of_nat j) with false by (symmetry; apply Z.leb_gt; lia).
      rewrite andb_false_r. reflexivity.
Qed.

(** After the pass, row [y] of the image is [size] pixels of the colour
    [gradient_color size y]. *)
Theorem gradient_image_rows (size : Z) (im : image) :
  0 < size -> well_formed size RGB im ->
  exists rows,
    gradient_image size im = Ok {| im_size := (size, size); im_data := RasterRGB rows |}
    /\ square (Z.to_nat size) rows
    /\ forall y, 0 <= y < size ->
         gradient_color size y = Ok (row_color size y)
         /\ nth_error rows (Z.to_nat y) = Some (repeat (row_color size y) (Z.to_nat size)).
Proof.
  intros Hs [Hsz Hd].
  destruct (im_data im) as [rows | rows] eqn:E; destruct Hd as [Hm Hsq]; [| discriminate].
  destruct (gradient_prefix size im rows (Z.to_nat size) Hs ltac:(lia) Hsz E Hsq)
    as [rows' [Ef [Hsq' Hrows]]].
  exists rows'. unfold gradient_image.
  rewrite Z2Nat.id in Ef by lia.
  split; [exact Ef |]. split; [exact Hsq' |].
  intros y Hy. split.
  - apply gradient_color_eq; assumption.
  - rewrite (Hrows (Z.to_nat y)) by lia. rewrite Z2Nat.id by lia. reflexivity.
Qed.

(** ** Magnitudes: when the arithmetic stays finite *)

Lemma representable_pow2 (l : Z) : 0 <= l -> representable (2 ^ l).
Proof.
  intros Hl. replace (2 ^ l) with (1 * 2 ^ l) by lia.
  apply representable_scaled; [assumption |]. simpl. unfold prec. lia.
Qed.

Lemma round_units_abs_le (x : Q) (B : Z) :
  representable B -> (- inject_Z B <= x)%Q -> (x <= inject_Z B)%Q ->
  Z.abs (round_units x) <= B.
Proof.
  intros HB Hlo Hhi.
  pose proof (round_units_mono _ _ Hhi) as H1.
  rewrite <- inject_Z_opp in Hlo.
  pose proof (round_units_mono _ _ Hlo) as H2.
  rewrite (round_units_exact B HB) in H1.
  rewrite (round_units_exact (- B) (representable_opp B HB)) in H2.
  lia.
Qed.

Lemma pow2_lt_huge (l : Z) : 0 <= l < top -> 2 ^ l < huge.
Proof.
  intros Hl. rewrite huge_eq. apply Z.pow_lt_mono_r; unfold top in *; lia.
Qed.

Lemma of_units_mag (x : Q) (l : Z) :
  0 <= l < top ->
  (- inject_Z (2 ^ l) <= x)%Q -> (x <= inject_Z (2 ^ l))%Q ->
  exists n, of_units x = Finite n /\ Z.abs n <= 2 ^ l.
Proof.
  intros Hl Hlo Hhi.
  pose proof (round_units_abs_le x (2 ^ l) (representable_pow2 l ltac:(lia)) Hlo Hhi) as Hb.
  pose proof (pow2_lt_huge l Hl).
  exists (round_units x). split; [| exact Hb].
  apply of_units_finite. lia.
Qed.

Lemma of_units_mag_Z (a l : Z) :
  0 <= l < top -> Z.abs a <= 2 ^ l ->
  exists n, of_units (inject_Z a) = Finite n /\ Z.abs n <= 2 ^ l.
Proof.
  intros Hl Ha. apply of_units_mag; [exact Hl | |].
  - rewrite <- inject_Z_opp, <- Zle_Qle. lia.
  - rewrite <- Zle_Qle. lia.
Qed.

Lemma to_float_mag (v : num) (k : Z) :
  0 <= k < top -> mag k v ->
  exists n, to_float v = Ok (Finite n) /\ Z.abs n <= 2 ^ k.
Proof.
  intros Hk Hv. destruct v as [z | [n | s |]]; cbn [mag] in Hv; try contradiction.
  - unfold to_float, float_of_int.
    destruct (of_units_mag_Z (z * U) k Hk) as [n [E Hn]].
    + pose proof U_pos. rewrite Z.abs_mul, (Z.abs_eq U); lia.
    + rewrite E. exists n. split; [reflexivity | exact Hn].
  - exists n. split; [reflexivity | exact Hv].
Qed.

Lemma pow2_split (j k l : Z) :
  0 <= j -> 0 <= k -> j + k - unit_exp <= l -> 0 <= l ->
  2 ^ j * 2 ^ k <= 2 ^ l * U.
Proof.
  intros Hj Hk Hl Hl0. rewrite U_eq, <- !Z.pow_add_r by (unfold unit_exp; lia).
  apply Z.pow_le_mono_r; lia.
Qed.

Lemma py_mul_mag (a b : num) (j k l : Z) :
  0 <= j < top -> 0 <= k < top -> j + k - unit_exp <= l -> 0 <= l < top ->
  mag j a -> mag k b ->
  exists v, py_mul a b = Ok v /\ mag l v.
Proof.
  intros Hj Hk Hl Hl0 Ha Hb.
  pose proof U_pos as HU.
  pose proof (pow2_split j k l ltac:(lia) ltac:(lia) Hl ltac:(lia)) as Hp.
  assert (Hfl : forall x y, Z.abs x <= 2 ^ j -> Z.abs y <= 2 ^ k ->
            exists n, fmul (Finite x) (Finite y) = Finite n /\ Z.abs n <= 2 ^ l).
  { intros x y Hx Hy. unfold fmul.
    assert (Hxy : Z.abs (x * y) <= 2 ^ l * U).
    { rewrite Z.abs_mul.
      assert (Z.abs x * Z.abs y <= 2 ^ j * 2 ^ k) by (apply Z.mul_le_mono_nonneg; lia).
      lia. }
    apply of_units_mag; [lia | |]; unfold Qle, Qopp, inject_Z; cbn [Qnum Qden];
      rewrite Upos_eq; lia. }
  destruct a as [x | fa]; destruct b as [y | fb].
  - exists (PyInt (x * y)). split; [reflexivity |]. cbn [mag] in *.
    rewrite Z.abs_mul.
    assert (Hm : (Z.abs x * U) * (Z.abs y * U) <= 2 ^ j * 2 ^ k).
    { apply Z.mul_le_mono_nonneg; lia. }
    replace ((Z.abs x * U) * (Z.abs y * U)) with ((Z.abs x * Z.abs y * U) * U) in Hm by ring.
    apply Z.mul_le_mono_pos_r with (p := U); [lia |]. lia.
  - destruct (to_float_mag (PyInt x) j Hj Ha) as [n [E Hn]].
    destruct (to_float_mag (PyFloat fb) k Hk Hb) as [m [E' Hm]].
    destruct (Hfl n m Hn Hm) as [r [Er Hr]].
    unfold py_mul, arith. rewrite E, E'. cbn [bindR]. rewrite Er.
    exists (PyFloat (Finite r)). split; [reflexivity | exact Hr].
  - destruct (to_float_mag (PyFloat fa) j Hj Ha) as [n [E Hn]].
    destruct (to_float_mag (PyInt y) k Hk Hb) as [m [E' Hm]].
    destruct (Hfl n m Hn Hm) as [r [Er Hr]].
    unfold py_mul, arith. rewrite E, E'. cbn [bindR]. rewrite Er.
    exists (PyFloat (Finite r)). split; [reflexivity | exact Hr].
  - destruct (to_float_mag (PyFloat fa) j Hj Ha) as [n [E Hn]].
    destruct (to_float_mag (PyFloat fb) k Hk Hb) as [m [E' Hm]].
    destruct (Hfl n m Hn Hm) as [r [Er Hr]].
    unfold py_mul, arith. rewrite E, E'. cbn [bindR]. rewrite Er.
    exists (PyFloat (Finite r)). split; [reflexivity | exact Hr].
Qed.

Lemma pow2_sum (j k l : Z) :
  0 <= j -> 0 <= k -> Z.max j k + 1 <= l -> 2 ^ j + 2 ^ k <= 2 ^ l.
Proof.
  intros Hj Hk Hl.
  assert (2 ^ j <= 2 ^ Z.max j k) by (apply Z.pow_le_mono_r; lia).
  assert (2 ^ k <= 2 ^ Z.max j k) by (apply Z.pow_le_mono_r; lia).
  assert (2 ^ (Z.max j k + 1) <= 2 ^ l) by (apply Z.pow_le_mono_r; lia).
  rewrite Z.pow_add_r in * by lia. lia.
Qed.

Lemma py_addsub_mag (sub : bool) (a b : num) (j k l : Z) :
  0 <= j < top -> 0 <= k < top -> Z.max j k + 1 <= l -> 0 <= l < top ->
  mag j a -> mag k b ->
  exists v, (if sub then py_sub a b else py_add a b) = Ok v /\ mag l v.
Proof.
  intros Hj Hk Hl Hl0 Ha Hb.
  pose proof U_pos as HU.
  pose proof (pow2_sum j k l ltac:(lia) ltac:(lia) Hl) as Hp.
  assert (Hfl : forall x y, Z.abs x <= 2 ^ j -> Z.abs y <= 2 ^ k ->
            exists n, (if sub then fsub (Finite x) (Finite y) else fadd (Finite x) (Finite y))
                      = Finite n /\ Z.abs n <= 2 ^ l).
  { intros x y Hx Hy.
    destruct sub; unfold fsub, fneg, fadd;
      (apply of_units_mag_Z; [lia |]; lia). }
  destruct a as [x | fa]; destruct b as [y | fb].
  - cbn [mag] in *. destruct sub.
    + exists (PyInt (x - y)). split; [reflexivity |]. cbn [mag]. nia.
    + exists (PyInt (x + y)). split; [reflexivity |]. cbn [mag]. nia.
  - destruct (to_float_mag (PyInt x) j Hj Ha) as [n [E Hn]].
    destruct (to_float_mag (PyFloat fb) k Hk Hb) as [m [E' Hm]].
    destruct (Hfl n m Hn Hm) as [r [Er Hr]].
    destruct sub; unfold py_sub, py_add, arith; rewrite E, E'; cbn [bindR]; rewrite Er;
      (exists (PyFloat (Finite r)); split; [reflexivity | exact Hr]).
  - destruct (to_float_mag (PyFloat fa) j Hj Ha) as [n [E Hn]].
    destruct (to_float_mag (PyInt y) k Hk Hb) as [m [E' Hm]].
    destruct (Hfl n m Hn Hm) as [r [Er Hr]].
    destruct sub; unfold py_sub, py_add, arith; rewrite E, E'; cbn [bindR]; rewrite Er;
      (exists (PyFloat (Finite r)); split; [reflexivity | exact Hr]).
  - destruct (to_float_mag (PyFloat fa) j Hj Ha) as [n [E Hn]].
    destruct (to_float_mag (PyFloat fb) k Hk Hb) as [m [E' Hm]].
    destruct (Hfl n m Hn Hm) as [r [Er Hr]].
    destruct sub; unfold py_sub, py_add, arith; rewrite E, E'; cbn [bindR]; rewrite Er;
      (exists (PyFloat (Finite r)); split; [reflexivity | exact Hr]).
Qed.

Lemma py_int_mag (v : num) (k : Z) :
  mag k v -> exists z, py_int v = Ok z /\ Z.abs z * U <= 2 ^ k.
Proof.
  intros Hv. destruct v as [z | [n | s |]]; cbn [mag] in Hv; try contradiction.
  - exists z. split; [reflexivity | exact Hv].
  - exists (Z.quot n U). split; [reflexivity |].
    pose proof U_pos as HU.
    assert (E : Z.abs (Z.quot n U) = Z.quot (Z.abs n) U).
    { rewrite <- (Z.abs_eq U) at 2 by lia. symmetry. apply Z.quot_abs. lia. }
    rewrite E.
    pose proof (Z.mul_quot_le (Z.abs n) U (Z.abs_nonneg n) ltac:(lia)). lia.
Qed.

(** *** Expressions *)

Lemma mag_weaken (j k : Z) (v : num) : 0 <= j <= k -> mag j v -> mag k v.
Proof.
  intros Hjk Hv.
  assert (2 ^ j <= 2 ^ k) by (apply Z.pow_le_mono_r; lia).
  destruct v as [z | [n | s |]]; cbn [mag] in *; try contradiction; lia.
Qed.

Lemma emag_Val (k : Z) (v : num) : mag k v -> emag k (Val v).
Proof. intros Hv. exists v. split; [reflexivity | exact Hv]. Qed.

Lemma emag_Int (k z : Z) : Z.abs z * U <= 2 ^ k -> emag k (Int z).
Proof. intros Hz. exists (PyInt z). split; [reflexivity | exact Hz]. Qed.

(** The integer literals of the script are below [64]. *)
Lemma emag_small (z : Z) : Z.abs z <= 64 -> emag (unit_exp + 6) (Int z).
Proof.
  intros Hz. apply emag_Int.
  rewrite Z.pow_add_r by (unfold unit_exp; lia). rewrite <- U_eq.
  pose proof U_pos. change (2 ^ 6) with 64. nia.
Qed.

Lemma emag_mul (j k l : Z) (a b : result num) :
  0 <= j < top -> 0 <= k < top -> j + k - unit_exp <= l -> 0 <= l < top ->
  emag j a -> emag k b -> emag l (a * b)%py.
Proof.
  intros Hj Hk Hl Hl0 [x [-> Hx]] [y [-> Hy]].
  unfold emag, binop. cbn [bindR]. apply (py_mul_mag x y j k l); assumption.
Qed.

Lemma emag_add (j k l : Z) (a b : result num) :
  0 <= j < top -> 0 <= k < top -> Z.max j k + 1 <= l -> 0 <= l < top ->
  emag j a -> emag k b -> emag l (a + b)%py.
Proof.
  intros Hj Hk Hl Hl0 [x [-> Hx]] [y [-> Hy]].
  unfold emag, binop. cbn [bindR]. apply (py_addsub_mag false x y j k l); assumption.
Qed.

Lemma emag_sub (j k l : Z) (a b : result num) :
  0 <= j < top -> 0 <= k < top -> Z.max j k + 1 <= l -> 0 <= l < top ->
  emag j a -> emag k b -> emag l (a - b)%py.
Proof.
  intros Hj Hk Hl Hl0 [x [-> Hx]] [y [-> Hy]].
  unfold emag, binop. cbn [bindR]. apply (py_addsub_mag true x y j k l); assumption.
Qed.

Lemma int_mag (k : Z) (e : result num) :
  emag k e -> exists z, int_ e = Ok z /\ Z.abs z * U <= 2 ^ k.
Proof.
  intros [v [-> Hv]]. unfold int_. cbn [bindR]. apply py_int_mag. exact Hv.
Qed.

Ltac lit_mag := cbn [mag]; apply Z.leb_le; vm_compute; reflexivity.

Lemma mag_lit_0_7 : mag lit_bound lit_0_7. Proof. lit_mag. Qed.
Lemma mag_lit_16_2 : mag lit_bound lit_16_2. Proof. lit_mag. Qed.
Lemma mag_lit_0_6 : mag lit_bound lit_0_6. Proof. lit_mag. Qed.
Lemma mag_lit_0_9 : mag lit_bound lit_0_9. Proof. lit_mag. Qed.
Lemma mag_lit_1_1 : mag lit_bound lit_1_1. Proof. lit_mag. Qed.
Lemma mag_lit_0_3 : mag lit_bound lit_0_3. Proof. lit_mag. Qed.
Lemma mag_lit_0_8 : mag lit_bound lit_0_8. Proof. lit_mag. Qed.
Lemma mag_lit_0_85 : mag lit_bound lit_0_85. Proof. lit_mag. Qed.
Lemma mag_lit_0_15 : mag lit_bound lit_0_15. Proof. lit_mag. Qed.
Lemma mag_lit_0_5 : mag lit_bound lit_0_5. Proof. lit_mag. Qed.
Lemma mag_lit_0_2 : mag lit_bound lit_0_2. Proof. lit_mag. Qed.
Lemma mag_lit_0_4 : mag lit_bound lit_0_4. Proof. lit_mag. Qed.

Create HintDb mag.

#[global] Hint Resolve mag_lit_0_7 mag_lit_16_2 mag_lit_0_6 mag_lit_0_9 mag_lit_1_1
  mag_lit_0_3 mag_lit_0_8 mag_lit_0_85 mag_lit_0_15 mag_lit_0_5 mag_lit_0_2
  mag_lit_0_4 : mag.

Lemma scale_mag (size : Z) :
  0 < size <= max_size -> emag (size_exp + unit_exp) (Int size / Int 108)%py.
Proof.
  intros Hs. unfold Int, binop, bindR, py_truediv.
  change (108 =? 0) with false. cbv iota. unfold quotient.
  destruct (of_units_mag (inject_Z (size * U) / inject_Z 108) (size_exp + unit_exp))
    as [n [E Hn]].
  - unfold top, size_exp, emax, unit_exp. lia.
  - apply Qle_trans with 0%Q.
    + rewrite <- inject_Z_opp. change 0%Q with (inject_Z 0). rewrite <- Zle_Qle.
      pose proof (Z.pow_pos_nonneg 2 (size_exp + unit_exp) ltac:(lia)
                    ltac:(unfold size_exp, unit_exp; lia)). lia.
    + apply Qle_shift_div_l; [reflexivity |]. rewrite Qmult_0_l.
      change 0%Q with (inject_Z 0). rewrite <- Zle_Qle. pose proof U_pos. nia.
  - apply Qle_shift_div_r; [reflexivity |].
    rewrite <- inject_Z_mult, <- Zle_Qle.
    rewrite Z.pow_add_r by (unfold size_exp, unit_exp; lia). rewrite <- U_eq.
    fold max_size. pose proof U_pos. nia.
  - rewrite E. exists (PyFloat (Finite n)). split; [reflexivity | exact Hn].
Qed.

Lemma side_spec (j k l : Z) :
  side j k l = true -> 0 <= j < top /\ 0 <= k < top /\ 0 <= l < top.
Proof.
  unfold side. rewrite !andb_true_iff, !Z.leb_le, !Z.ltb_lt. lia.
Qed.

Lemma emag_mul' (j k : Z) (a b : result num) :
  emag j a -> emag k b -> side j k (j + k - unit_exp) = true ->
  emag (j + k - unit_exp) (a * b)%py.
Proof.
  intros Ha Hb Hs. apply side_spec in Hs.
  apply (emag_mul j k); try assumption; lia.
Qed.

Lemma emag_add' (j k : Z) (a b : result num) :
  emag j a -> emag k b -> side j k (Z.max j k + 1) = true ->
  emag (Z.max j k + 1) (a + b)%py.
Proof.
  intros Ha Hb Hs. apply side_spec in Hs.
  apply (emag_add j k); try assumption; lia.
Qed.

Lemma emag_sub' (j k : Z) (a b : result num) :
  emag j a -> emag k b -> side j k (Z.max j k + 1) = true ->
  emag (Z.max j k + 1) (a - b)%py.
Proof.
  intros Ha Hb Hs. apply side_spec in Hs.
  apply (emag_sub j k); try assumption; lia.
Qed.

Lemma emag_weaken (j k : Z) (e : result num) :
  emag j e -> (0 <=? j) && (j <=? k) = true -> emag k e.
Proof.
  intros [v [-> Hv]] Hjk.
  rewrite andb_true_iff, !Z.leb_le in Hjk.
  exists v. split; [reflexivity |]. apply (mag_weaken j k); [lia | exact Hv].
Qed.

Ltac emag_solve :=
  lazymatch goal with
  | |- emag _ (Val _) => apply emag_Val; first [eassumption | solve [eauto with mag]]
  | |- emag _ (Int _) => first [apply emag_Int; eassumption | apply emag_small; lia]
  | |- emag _ (binop py_mul _ _) =>
      eapply emag_mul'; [emag_solve | emag_solve | vm_compute; reflexivity]
  | |- emag _ (binop py_add _ _) =>
      eapply emag_add'; [emag_solve | emag_solve | vm_compute; reflexivity]
  | |- emag _ (binop py_sub _ _) =>
      eapply emag_sub'; [emag_solve | emag_solve | vm_compute; reflexivity]
  end.

Ltac emag_upto := eapply emag_weaken; [emag_solve | vm_compute; reflexivity].

(** *** The layout is defined *)

Lemma compute_placement_ok (size : Z) :
  0 < size <= max_size ->
  exists p, compute_placement size = Ok p /\ placement_ok p.
Proof.
  intros Hs. unfold compute_placement.
  destruct (scale_mag size Hs) as [sc [E Hsc]]. rewrite E. cbn [bindR].
  change (size_exp + unit_exp) with 2034 in Hsc.
  assert (Hfs : emag 2039 (Val lit_0_7 * Val sc)%py) by emag_upto.
  destruct Hfs as [fs [E1 Hfs]]. rewrite E1. cbn [bindR].
  assert (Htx : emag 2039 (Val lit_16_2 * Val sc)%py) by emag_upto.
  destruct Htx as [tx [E2 Htx]]. rewrite E2. cbn [bindR].
  eexists. split; [reflexivity |].
  repeat split; assumption.
Qed.

Lemma int_upto (j k : Z) (e : result num) :
  emag j e -> (0 <=? j) && (j <=? k) = true -> exists z, int_ e = Ok z /\ zmag k z.
Proof.
  intros He Hjk. apply int_mag. eapply emag_weaken; eassumption.
Qed.

Ltac int_solve := eapply int_upto; [emag_solve | vm_compute; reflexivity].

Section Layout.

Variable p : placement.
Hypothesis Hp : placement_ok p.

Let Hsc : mag 2034 (scale p) := proj1 Hp.
Let Hfs : mag 2039 (foreground_scale p) := proj1 (proj2 Hp).
Let Htx : mag 2039 (translate_x p) := proj1 (proj2 (proj2 Hp)).
Let Hty : mag 2039 (translate_y p) := proj2 (proj2 (proj2 Hp)).

Lemma compute_base_x_ok : exists z, compute_base_x p = Ok z /\ zmag 2046 z.
Proof using Hfs Htx. unfold compute_base_x. int_solve. Qed.

Lemma compute_base_y_ok : exists z, compute_base_y p = Ok z /\ zmag 2046 z.
Proof using Hfs Hty. unfold compute_base_y. int_solve. Qed.

Lemma compute_shield_size_ok : exists z, compute_shield_size p = Ok z /\ zmag 2046 z.
Proof using Hfs. unfold compute_shield_size. int_solve. Qed.

Lemma compute_check_size_ok : exists z, compute_check_size p = Ok z /\ zmag 2046 z.
Proof using Hfs. unfold compute_check_size. int_solve. Qed.

Lemma compute_star_y_ok : exists z, compute_star_y p = Ok z /\ zmag 2046 z.
Proof using Hfs Hty. unfold compute_star_y. int_solve. Qed.

Lemma compute_star_radius_ok : exists z, compute_star_radius p = Ok z /\ zmag 2046 z.
Proof using Hfs. unfold compute_star_radius. int_solve. Qed.

End Layout.

Lemma pt_ok (k : Z) (x y : result num) :
  emag k x -> emag k y -> exists q, pt x y = Ok q /\ pmag k q.
Proof.
  intros [a [-> Ha]] [b [-> Hb]]. exists (a, b). split; [reflexivity | split; assumption].
Qed.

Lemma sequence_cons_ok {A : Type} (P : A -> Prop) (c : result A) (l : list (result A)) :
  (exists a, c = Ok a /\ P a) ->
  (exists r, sequence l = Ok r /\ Forall P r) ->
  exists r, sequence (c :: l) = Ok r /\ Forall P r.
Proof.
  intros [a [-> Ha]] [r [E Hr]]. cbn [sequence bindR]. rewrite E. cbn [bindR].
  exists (a :: r). split; [reflexivity | constructor; assumption].
Qed.

Lemma sequence_nil_ok {A : Type} (P : A -> Prop) :
  exists r, sequence (@nil (result A)) = Ok r /\ Forall P r.
Proof. exists []. split; [reflexivity | constructor]. Qed.

Ltac path_solve k :=
  repeat (apply sequence_cons_ok; [apply (pt_ok k); emag_upto |]);
  apply sequence_nil_ok.

Lemma compute_shield_path_ok (base_x base_y shield_size : Z) :
  zmag 2046 base_x -> zmag 2046 base_y -> zmag 2046 shield_size ->
  exists path, compute_shield_path base_x base_y shield_size = Ok path
               /\ Forall (pmag 2052) path.
Proof.
  intros Hx Hy Hs. unfold compute_shield_path. path_solve 2052.
Qed.

Lemma compute_check_points_ok (base_x base_y check_size : Z) :
  zmag 2046 base_x -> zmag 2046 base_y -> zmag 2046 check_size ->
  exists path, compute_check_points base_x base_y check_size = Ok path
               /\ Forall (pmag 2052) path.
Proof.
  intros Hx Hy Hs. unfold compute_check_points. path_solve 2052.
Qed.

Lemma sequence_map_ok {A B : Type} (P : A -> Prop) (Q : B -> Prop)
    (f : A -> result B) (l : list A) :
  (forall a, P a -> exists b, f a = Ok b /\ Q b) ->
  Forall P l -> exists r, sequence (map f l) = Ok r /\ Forall Q r.
Proof.
  intros Hf Hl. induction Hl as [| a l Ha Hl IH]; cbn [map].
  - apply sequence_nil_ok.
  - apply sequence_cons_ok; [apply Hf; exact Ha | exact IH].
Qed.

Lemma compute_inner_shield_ok (base_x base_y : Z) (path : list point) :
  zmag 2046 base_x -> zmag 2046 base_y -> Forall (pmag 2052) path ->
  exists inner, compute_inner_shield base_x base_y path = Ok inner
                /\ Forall (pmag 2058) inner.
Proof.
  intros Hx Hy Hpath. unfold compute_inner_shield.
  apply (sequence_map_ok (pmag 2052)); [| exact Hpath].
  intros [a b] [Ha Hb]. cbn [fst snd] in *.
  assert (H1 : exists z, int_ (Val a * Val lit_0_85 + Int base_x * Val lit_0_15)%py = Ok z
                         /\ zmag 2058 z) by int_solve.
  assert (H2 : exists z, int_ (Val b * Val lit_0_85 + Int base_y * Val lit_0_15)%py = Ok z
                         /\ zmag 2058 z) by int_solve.
  destruct H1 as [x [E1 Hzx]]. destruct H2 as [y [E2 Hzy]].
  rewrite E1. cbn [bindR]. rewrite E2. cbn [bindR].
  eexists. split; [reflexivity |]. split; assumption.
Qed.

(** The unused [angle] of an iteration of the star loop is defined. *)
Lemma star_angle_defined (i : Z) :
  0 <= i < 10 ->
  exists v, ((Int i * Val lit_3_14159 / Int 5) - Val lit_1_5708)%py = Ok v.
Proof.
  intros Hi.
  assert (Hc : i = 0 \/ i = 1 \/ i = 2 \/ i = 3 \/ i = 4 \/ i = 5 \/ i = 6 \/ i = 7
               \/ i = 8 \/ i = 9) by lia.
  repeat (destruct Hc as [-> | Hc]); try subst i; vm_compute; eexists; reflexivity.
Qed.

Lemma star_vertex_ok (star_x star_y star_radius i : Z) :
  0 <= i < 10 ->
  zmag 2046 star_x -> zmag 2046 star_y -> zmag 2046 star_radius ->
  exists q, star_vertex star_x star_y star_radius i = Ok q /\ pmag 2063 q.
Proof.
  intros Hi Hx Hy Hr. unfold star_vertex.
  destruct (star_angle_defined i Hi) as [angle Ea]. rewrite Ea. cbn [bindR].
  assert (Hrad : emag 2051 (if i mod 2 =? 0 then Int star_radius
                            else Int star_radius * Val lit_0_4)%py).
  { destruct (i mod 2 =? 0); emag_upto. }
  destruct Hrad as [radius [Er Hrad]]. rewrite Er. cbn [bindR].
  assert (Hd : exists z, int_ (Val radius * Int (if i mod 2 =? 0 then 1 else -1)
                               * Val lit_0_7)%py = Ok z /\ zmag 2062 z).
  { destruct (i mod 2 =? 0); int_solve. }
  destruct Hd as [d [Ed Hd]]. rewrite Ed. cbn [bindR].
  assert (Hxx : emag 2063 (Int star_x + Int d)%py) by emag_upto.
  assert (Hyy : emag 2063 (Int star_y + Int d)%py) by emag_upto.
  destruct Hxx as [x [Ex Hxx]]. destruct Hyy as [y [Ey Hyy]].
  rewrite Ex. cbn [bindR]. rewrite Ey. cbn [bindR].
  eexists. split; [reflexivity |]. split; assumption.
Qed.

Lemma append_loop_ok {A B : Type} (P : B -> Prop) (f : A -> result B) (l : list A) :
  (forall a, In a l -> exists b, f a = Ok b /\ P b) ->
  forall acc, Forall P acc ->
  exists r,
    fold_left (fun acc a => (xs <- acc ;; v <- f a ;; Ok (xs ++ [v]))%res) l (Ok acc) = Ok r
    /\ Forall P r /\ length r = (length acc + length l)%nat.
Proof.
  induction l as [| a l IH]; intros Hf acc Hacc; cbn [fold_left].
  - exists acc. split; [reflexivity |]. split; [exact Hacc | cbn; lia].
  - destruct (Hf a (or_introl eq_refl)) as [b [E Hb]].
    cbn [bindR]. rewrite E. cbn [bindR].
    destruct (IH (fun a' Ha' => Hf a' (or_intror Ha')) (acc ++ [b])) as [r [Er [Hr Hl]]].
    + apply Forall_app. split; [exact Hacc | constructor; [exact Hb | constructor]].
    + exists r. split; [exact Er |]. split; [exact Hr |].
      rewrite Hl, length_app. cbn. lia.
Qed.

Lemma in_range (n i : Z) : In i (range n) -> 0 <= i < n.
Proof.
  unfold range. rewrite in_map_iff. intros [k [<- Hk]]. apply in_seq in Hk. lia.
Qed.

Lemma compute_star_points_ok (star_x star_y star_radius : Z) :
  zmag 2046 star_x -> zmag 2046 star_y -> zmag 2046 star_radius ->
  exists pts, compute_star_points star_x star_y star_radius = Ok pts
              /\ Forall (pmag 2063) pts /\ length pts = 10%nat.
Proof.
  intros Hx Hy Hr. unfold compute_star_points.
  destruct (append_loop_ok (pmag 2063) (star_vertex star_x star_y star_radius) (range 10))
    with (acc := @nil point) as [r [E [Hf Hl]]].
  - intros i Hi. apply star_vertex_ok; try assumption. apply in_range. exact Hi.
  - constructor.
  - exists r. split; [exact E |]. split; [exact Hf | exact Hl].
Qed.

(** ** The rendered image *)

Lemma color_ok_name_white : color_ok (ColorName "#FFFFFF").
Proof. eexists. reflexivity. Qed.

Lemma color_ok_name_pale : color_ok (ColorName "#E8F4FD").
Proof. eexists. reflexivity. Qed.

Lemma color_ok_name_green : color_ok (ColorName "#27AE60").
Proof. eexists. reflexivity. Qed.

Lemma color_ok_name_gold : color_ok (ColorName "#FFD93D").
Proof. eexists. reflexivity. Qed.

Lemma fill_rectangle_ok (size : Z) (m : mode) (p0 p1 : Z * Z) (c : color) (im : image) :
  fst p0 <= fst p1 -> snd p0 <= snd p1 ->
  color_ok c -> well_formed size m im ->
  exists im', fill_rectangle p0 p1 c im = Ok im' /\ well_formed size m im'.
Proof.
  intros Hx Hy Hc Hw. unfold fill_rectangle.
  assert (E1 : (fst p1 <? fst p0) = false) by (apply Z.ltb_ge; lia).
  assert (E2 : (snd p1 <? snd p0) = false) by (apply Z.ltb_ge; lia).
  rewrite E1, E2. cbn [orb]. apply fill_ok; assumption.
Qed.

Section Rendered.

Context `{Backend}.

Ltac take L :=
  let x := fresh "x" in
  let E := fresh "E" in
  let W := fresh "W" in
  destruct L as [x [E W]]; rewrite E; cbn [bindR].

Theorem render_image_ok (size : Z) :
  0 < size <= max_size ->
  exists im, render_image size = Ok im /\ well_formed size RGB im.
Proof.
  intros Hs. unfold render_image.
  take (new_image_ok RGB size (ColorName "#FFFFFF") ltac:(lia) color_ok_name_white).
  destruct (gradient_image_rows size x ltac:(lia) W) as [rows [E0 [Hsq _]]].
  rewrite E0. cbn [bindR].
  assert (W0 : well_formed size RGB
                 {| im_size := (size, size); im_data := RasterRGB rows |}).
  { split; [reflexivity | split; [reflexivity | exact Hsq]]. }
  take (new_image_ok RGBA size (ColorTuple4 0 0 0 0) ltac:(lia) I).
  take (fill_polygon_ok size RGBA
          [(PyInt 0, PyInt 0); (PyInt size, PyInt (size / 2)); (PyInt 0, PyInt size)]
          (ColorTuple4 255 217 61 76) x0 I W1).
  take (overlay_on_ok size _ x1 W0 W2).
  take (fill_rectangle_ok size RGBA (0, 0) (size, size) (ColorTuple4 155 89 182 153) x0
          ltac:(cbn; lia) ltac:(cbn; lia) I W1).
  take (overlay_on_ok size x2 x3 W3 W4).
  take (compute_placement_ok size Hs).
  take (compute_base_x_ok x5 W6).
  take (compute_base_y_ok x5 W6).
  take (compute_shield_size_ok x5 W6).
  take (compute_shield_path_ok x6 x7 x8 W7 W8 W9).
  take (fill_polygon_ok size RGBA x9 (ColorName "#FFFFFF") x0 color_ok_name_white W1).
  take (compute_inner_shield_ok x6 x7 x9 W7 W8 W10).
  take (fill_polygon_ok size RGBA x11 (ColorName "#E8F4FD") x10 color_ok_name_pale W11).
  take (compute_check_size_ok x5 W6).
  take (compute_check_points_ok x6 x7 x13 W7 W8 W14).
  take (fill_polygon_ok size RGBA x14 (ColorName "#27AE60") x12 color_ok_name_green W13).
  cbv zeta.
  take (compute_star_y_ok x5 W6).
  take (compute_star_radius_ok x5 W6).
  destruct (compute_star_points_ok x6 x16 x17 W7 W17 W18) as [pts [Ep [_ _]]].
  rewrite Ep. cbn [bindR].
  take (fill_polygon_ok size RGBA pts (ColorName "#FFD93D") x15 color_ok_name_gold W16).
  apply (overlay_on_ok size); assumption.
Qed.

End Rendered.

(** ** The file system *)

Lemma fs_lookup_filter (p q : string) (f : list (string * entry)) :
  p <> q ->
  fs_lookup p (filter (fun pe => negb (String.eqb (fst pe) q)) f) = fs_lookup p f.
Proof.
  intros Hpq. induction f as [| [k e] f IH]; cbn [filter fs_lookup fst]; [reflexivity |].
  destruct (String.eqb k q) eqn:Ekq; cbn [negb fs_lookup].
  - apply String.eqb_eq in Ekq. subst k.
    destruct (String.eqb q p) eqn:Eqp; [apply String.eqb_eq in Eqp; congruence | exact IH].
  - destruct (String.eqb k p); [reflexivity | exact IH].
Qed.

Lemma fs_lookup_set_same (p : string) (e : entry) (f : list (string * entry)) :
  fs_lookup p (fs_set p e f) = Some e.
Proof. unfold fs_set. cbn [fs_lookup]. rewrite String.eqb_refl. reflexivity. Qed.

Lemma fs_lookup_set_other (p q : string) (e : entry) (f : list (string * entry)) :
  p <> q -> fs_lookup p (fs_set q e f) = fs_lookup p f.
Proof.
  intros Hpq. unfold fs_set. cbn [fs_lookup].
  destruct (String.eqb q p) eqn:E; [apply String.eqb_eq in E; congruence |].
  apply fs_lookup_filter. exact Hpq.
Qed.

(** ** Running the driver *)

Lemma run_bind {A B : Type} (c : M A) (k : A -> M B) (w w1 : world) (a : A) :
  c w = (Ok a, w1) -> bind c k w = k a w1.
Proof. intros E. unfold bind. rewrite E. reflexivity. Qed.

Lemma run_bind_raise {A B : Type} (c : M A) (k : A -> M B) (w w1 : world) (e : exn) :
  c w = (Raise e, w1) -> bind c k w = (Raise e, w1).
Proof. intros E. unfold bind. rewrite E. reflexivity. Qed.

Lemma set_heap_id (w : world) : set_heap w (heap w) = w.
Proof. destruct w. reflexivity. Qed.

Section Driver.

Context `{Backend}.

(** A call of [create_play_store_icon] from any world in which Pillow has
    been imported. *)
Theorem create_play_store_icon_outcome (size : Z) (w : world) :
  pil_ready w ->
  match render_image size with
  | Ok im =>
      exists r l, create_play_store_icon size w = (Ok r, set_heap w (heap w ++ l))
                  /\ nth_error (heap w ++ l) r = Some im
                  /\ r = (length (heap w) + 12)%nat /\ length l = 13%nat
  | Raise e =>
      exists l, create_play_store_icon size w = (Raise e, set_heap w (heap w ++ l))
  end.
Proof.
  intros Hw.
  pose proof (create_play_store_icon_simulates w Hw (heap w) size) as Hsim.
  rewrite app_nil_r, set_heap_id in Hsim. exact Hsim.
Qed.

Lemma create_play_store_icon_run (size : Z) (w : world) :
  pil_ready w -> 0 < size <= max_size ->
  exists r l im,
    create_play_store_icon size w = (Ok r, set_heap w (heap w ++ l))
    /\ nth_error (heap w ++ l) r = Some im
    /\ render_image size = Ok im
    /\ well_formed size RGB im.
Proof.
  intros Hw Hs.
  pose proof (create_play_store_icon_outcome size w Hw) as Ho.
  destruct (render_image_ok size Hs) as [im [E Wf]].
  rewrite E in Ho. destruct Ho as [r [l [Er [Hn _]]]].
  exists r, l, im. split; [exact Er | split; [exact Hn | split; [exact E | exact Wf]]].
Qed.

End Driver.

Lemma print_run (s : string) (w : world) :
  print s w = (Ok tt, set_stdout w (stdout w ++ [s])).
Proof. reflexivity. Qed.

Lemma os_makedirs_new (path : string) (w : world) :
  fs_lookup path (fs w) = None -> io_fails w path = false ->
  os_makedirs path w = (Ok tt, set_fs w (fs_set path Directory (fs w))).
Proof. intros Hl Hio. unfold os_makedirs. rewrite Hl, Hio. reflexivity. Qed.

Lemma os_makedirs_exists (path : string) (w : world) :
  fs_lookup path (fs w) = Some Directory -> os_makedirs path w = (Ok tt, w).
Proof. intros Hl. unfold os_makedirs. rewrite Hl. reflexivity. Qed.

Lemma Image_save_run (r : ref) (path : string) (w : world) (im : image) :
  nth_error (heap w) r = Some im ->
  fs_lookup (dirname path) (fs w) = Some Directory ->
  String.eqb (dirname path) EmptyString = false ->
  fs_lookup path (fs w) <> Some Directory ->
  io_fails w path = false ->
  Image_save r path w = (Ok tt, set_fs w (fs_set path (PngFile im) (fs w))).
Proof.
  intros Hr Hd Hne Hp Hio. unfold Image_save, bind, load. rewrite Hr.
  rewrite Hne, Hd, Hio.
  destruct (fs_lookup path (fs w)) as [[| c] |]; try reflexivity. congruence.
Qed.

Ltac wsimpl :=
  cbn [installed io_fails modules heap fs stdout
       set_modules set_heap set_fs set_stdout].

Ltac wsimpl_all :=
  cbn [installed io_fails modules heap fs stdout
       set_modules set_heap set_fs set_stdout] in *.

Section Main.

Context `{Backend}.

Lemma size_512_ok : 0 < 512 <= max_size.
Proof. split; [lia |]. apply Z.leb_le. reflexivity. Qed.

Lemma size_1024_ok : 0 < 1024 <= max_size.
Proof. split; [lia |]. apply Z.leb_le. reflexivity. Qed.

Theorem main_run_from (w : world) (f0 : list (string * entry)) :
  pil_ready w ->
  os_makedirs output_dir w = (Ok tt, set_fs w f0) ->
  fs_lookup output_dir f0 = Some Directory ->
  fs_lookup path_512 f0 <> Some Directory ->
  fs_lookup path_1024 f0 <> Some Directory ->
  io_fails w path_512 = false ->
  io_fails w path_1024 = false ->
  main_post w f0 (main w).
Proof.
  intros Hpil Hmk Hd H512 H1024 Io512 Io1024.
  destruct w as [inst iof mods hp f out]. wsimpl_all.
  unfold main. cbv zeta.
  change "play_store_icons"%string with output_dir.
  rewrite (run_bind _ _ _ _ _ Hmk).
  unfold set_fs. wsimpl.
  rewrite (run_bind _ _ _ _ _ (print_run _ _)). unfold set_stdout. wsimpl.
  rewrite (run_bind _ _ _ _ _ (print_run _ _)). unfold set_stdout. wsimpl.
  unfold sizes. cbn [for_].
  repeat rewrite bind_assoc.
  rewrite (run_bind _ _ _ _ _ (print_run _ _)). unfold set_stdout. wsimpl.
  repeat rewrite bind_assoc.
  match goal with
  | |- main_post _ _ (bind (create_play_store_icon _) _ ?W) =>
      destruct (create_play_store_icon_run 512 W Hpil size_512_ok)
        as (r1 & l1 & im1 & E1 & N1 & R1 & W1)
  end.
  unfold set_heap in E1. wsimpl_all.
  rewrite (run_bind _ _ _ _ _ E1).
  change (os_path_join output_dir "chorequest_icon_512x512.png") with path_512.
  change (os_path_join output_dir "chorequest_icon_1024x1024.png") with path_1024.
  repeat rewrite bind_assoc.
  erewrite run_bind.
  2:{ apply Image_save_run with (im := im1); wsimpl.
      - exact N1.
      - change (dirname path_512) with output_dir. exact Hd.
      - reflexivity.
      - exact H512.
      - exact Io512. }
  unfold set_fs. wsimpl.
  rewrite (run_bind _ _ _ _ _ (print_run _ _)). unfold set_stdout. wsimpl.
  repeat rewrite bind_assoc.
  rewrite (run_bind _ _ _ _ _ (print_run _ _)). unfold set_stdout. wsimpl.
  repeat rewrite bind_assoc.
  match goal with
  | |- main_post _ _ (bind (create_play_store_icon _) _ ?W) =>
      destruct (create_play_store_icon_run 1024 W Hpil size_1024_ok)
        as (r2 & l2 & im2 & E2 & N2 & R2 & W2)
  end.
  unfold set_heap in E2. wsimpl_all.
  rewrite (run_bind _ _ _ _ _ E2).
  repeat rewrite bind_assoc.
  erewrite run_bind.
  2:{ apply Image_save_run with (im := im2); wsimpl.
      - exact N2.
      - change (dirname path_1024) with output_dir.
        rewrite fs_lookup_set_other by discriminate. exact Hd.
      - reflexivity.
      - rewrite fs_lookup_set_other by discriminate. exact H1024.
      - exact Io1024. }
  unfold set_fs. wsimpl.
  rewrite (run_bind _ _ _ _ _ (print_run _ _)). unfold set_stdout. wsimpl.
  rewrite bind_ret.
  do 4 (rewrite (run_bind _ _ _ _ _ (print_run _ _)); unfold set_stdout; wsimpl).
  rewrite print_run. unfold set_stdout. wsimpl.
  exists im1, im2, (l1 ++ l2).
  split; [| exact (conj R1 (conj W1 (conj R2 W2)))].
  unfold set_stdout, set_fs, set_heap. wsimpl.
  rewrite <- !app_assoc. reflexivity.
Qed.

(** A first run: the directory is created. *)
Theorem main_run (w : world) :
  pil_ready w ->
  fs_lookup output_dir (fs w) = None ->
  fs_lookup path_512 (fs w) = None ->
  fs_lookup path_1024 (fs w) = None ->
  io_fails w output_dir = false ->
  io_fails w path_512 = false ->
  io_fails w path_1024 = false ->
  main_post w (fs_set output_dir Directory (fs w)) (main w).
Proof.
  intros Hpil Hd H512 H1024 Iod Io512 Io1024.
  apply main_run_from; try assumption.
  - apply os_makedirs_new; assumption.
  - apply fs_lookup_set_same.
  - rewrite fs_lookup_set_other by discriminate. rewrite H512. discriminate.
  - rewrite fs_lookup_set_other by discriminate. rewrite H1024. discriminate.
Qed.

Lemma set_fs_id (w : world) : set_fs w (fs w) = w.
Proof. destruct w. reflexivity. Qed.

(** A later run: the directory is there, and files of the two names are
    replaced. *)
Theorem main_rerun (w : world) :
  pil_ready w ->
  fs_lookup output_dir (fs w) = Some Directory ->
  fs_lookup path_512 (fs w) <> Some Directory ->
  fs_lookup path_1024 (fs w) <> Some Directory ->
  io_fails w path_512 = false ->
  io_fails w path_1024 = false ->
  main_post w (fs w) (main w).
Proof.
  intros Hpil Hd H512 H1024 Io512 Io1024.
  apply main_run_from; try assumption.
  rewrite set_fs_id. apply os_makedirs_exists. exact Hd.
Qed.

End Main.

Section Script.

Context `{Backend}.

(** The guard fails as soon as one of the two packages cannot be imported:
    two lines are printed and [sys.exit(1)] is raised.  Nothing else has
    happened: no file or directory, no image object. *)
Lemma import_guard_missing (w : world) :
  installed w "PIL" && installed w "cairosvg" = false ->
  exists w',
    import_guard w = (Raise (SystemExit 1), w')
    /\ fs w' = fs w /\ heap w' = heap w
    /\ stdout w' = stdout w ++ missing_output
    /\ installed w' = installed w /\ io_fails w' = io_fails w.
Proof.
  intros Hm. unfold import_guard, try_except_ImportError, bind, import_.
  destruct (installed w "PIL") eqn:E1.
  - cbn [andb] in Hm. wsimpl. rewrite Hm.
    eexists. split; [reflexivity |]. wsimpl.
    rewrite <- app_assoc. repeat split; reflexivity.
  - eexists. split; [reflexivity |]. wsimpl.
    rewrite <- app_assoc. repeat split; reflexivity.
Qed.

Lemma import_guard_ok (w : world) :
  installed w "PIL" = true -> installed w "cairosvg" = true ->
  import_guard w = (Ok tt, set_modules w ("cairosvg" :: "PIL" :: modules w)%string).
Proof.
  intros H1 H2. unfold import_guard, try_except_ImportError, bind, import_.
  rewrite H1. wsimpl. rewrite H2. reflexivity.
Qed.

Lemma run_script_missing (w : world) :
  installed w "PIL" && installed w "cairosvg" = false ->
  exists w',
    run_script w = (1, w')
    /\ fs w' = fs w /\ heap w' = heap w
    /\ stdout w' = stdout w ++ missing_output.
Proof.
  intros Hm. destruct (import_guard_missing w Hm) as [w' [E [Hf [Hh [Ho _]]]]].
  exists w'. unfold run_script, script.
  rewrite (run_bind_raise _ _ _ _ _ E). cbn [exit_status].
  repeat split; assumption.
Qed.

Lemma run_script_ok (w : world) :
  installed w "PIL" = true -> installed w "cairosvg" = true ->
  fs_lookup output_dir (fs w) = None ->
  fs_lookup path_512 (fs w) = None ->
  fs_lookup path_1024 (fs w) = None ->
  io_fails w output_dir = false ->
  io_fails w path_512 = false ->
  io_fails w path_1024 = false ->
  exists w' im512 im1024,
    run_script w = (0, w')
    /\ fs w' = fs_set path_1024 (PngFile im1024)
                 (fs_set path_512 (PngFile im512) (fs_set output_dir Directory (fs w)))
    /\ stdout w' = stdout w ++ main_output
    /\ render_image 512 = Ok im512 /\ well_formed 512 RGB im512
    /\ render_image 1024 = Ok im1024 /\ well_formed 1024 RGB im1024.
Proof.
  intros H1 H2 Hd H512 H1024 Iod Io512 Io1024.
  unfold run_script, script.
  rewrite (run_bind _ _ _ _ _ (import_guard_ok w H1 H2)).
  destruct (main_run (set_modules w ("cairosvg" :: "PIL" :: modules w)%string))
    as (im1 & im2 & l & E & R1 & W1 & R2 & W2); try assumption.
  { reflexivity. }
  rewrite E. cbn [exit_status].
  eexists. exists im1, im2. split; [reflexivity |]. wsimpl.
  exact (conj eq_refl (conj eq_refl (conj R1 (conj W1 (conj R2 W2))))).
Qed.

End Script.

(** ** The relative error of one rounding *)

Lemma round_pos_rel (x : Q) :
  (inject_Z (2 ^ 52) <= x)%Q ->
  (x * (1 - eps) <= inject_Z (round_pos x) <= x * (1 + eps))%Q.
Proof.
  intros Hx.
  pose proof (Qfloor_resp_le _ _ Hx) as Hf. rewrite Qfloor_Z in Hf.
  assert (Hf0 : 0 < Qfloor x) by (pose proof (Z.pow_pos_nonneg 2 52); lia).
  pose proof (Z.log2_spec _ Hf0) as [Hlo _].
  assert (Hl : 52 <= Z.log2 (Qfloor x)).
  { apply Z.log2_le_pow2; assumption. }
  pose proof (spacing_pos x) as Hg.
  assert (Eg : spacing x * 2 ^ 52 = 2 ^ Z.log2 (Qfloor x)).
  { unfold spacing, shift_of, prec.
    replace (Z.max (Z.log2 (Qfloor x) + 1 - 53) 0) with (Z.log2 (Qfloor x) - 52) by lia.
    rewrite <- Z.pow_add_r by lia. f_equal. lia. }
  assert (Hgx : (inject_Z (spacing x) * inject_Z (2 ^ 52) <= x)%Q).
  { rewrite <- inject_Z_mult, Eg.
    eapply Qle_trans; [| apply Qfloor_le]. rewrite <- Zle_Qle. exact Hlo. }
  rewrite round_pos_rne.
  pose proof (rne_error (x / inject_Z (spacing x))) as [He1 He2].
  pose proof (inject_Z_pos _ Hg) as Hgq.
  set (g := inject_Z (spacing x)) in *.
  set (r := inject_Z (rne (x / g))) in *.
  rewrite inject_Z_mult. fold g. fold r.
  assert (Hxg : (x == (x / g) * g)%Q).
  { field. intros E. rewrite E in Hgq. apply (Qlt_irrefl 0). exact Hgq. }
  assert (H1 : ((r - (1 # 2)) * g <= (x / g) * g)%Q) by (apply Qmult_le_compat_r; lra).
  assert (H2 : ((x / g) * g <= (r + (1 # 2)) * g)%Q) by (apply Qmult_le_compat_r; lra).
  rewrite <- Hxg in H1, H2.
  change (inject_Z (2 ^ 52)) with (4503599627370496 # 1)%Q in Hgx.
  unfold eps. change (2 ^ 53)%positive with 9007199254740992%positive.
  split; lra.
Qed.

Lemma of_units_rel (x : Q) :
  (inject_Z (2 ^ 52) <= x)%Q -> (x <= inject_Z big)%Q ->
  exists n, of_units x = Finite n
            /\ (x * (1 - eps) <= inject_Z n <= x * (1 + eps))%Q.
Proof.
  intros Hlo Hhi.
  assert (Hx0 : (0 <= x)%Q).
  { eapply Qle_trans; [| exact Hlo]. rewrite <- (Zle_Qle 0). apply Z.pow_nonneg. lia. }
  exists (round_units x). split.
  - apply of_units_finite.
    assert (Hb : Z.abs (round_units x) <= big).
    { apply round_units_abs_le.
      - apply representable_pow2. lia.
      - eapply Qle_trans; [| exact Hx0]. rewrite <- inject_Z_opp, <- (Zle_Qle _ 0).
        pose proof (Z.pow_nonneg 2 2000). unfold big. lia.
      - exact Hhi. }
    assert (big < huge) by reflexivity. lia.
  - rewrite round_units_nonneg by exact Hx0. apply round_pos_rel. exact Hlo.
Qed.

Ltac by_computation := unfold Qle; vm_compute; let H := fresh in intro H; discriminate H.

Lemma lit_0_7_rel :
  exists n, lit_0_7 = PyFloat (Finite n)
            /\ ((7 # 10) * (1 - eps) <= n # Upos <= (7 # 10) * (1 + eps))%Q.
Proof. unfold lit_0_7. eexists. split; [reflexivity |]. split; by_computation. Qed.

Lemma lit_16_2_rel :
  exists n, lit_16_2 = PyFloat (Finite n)
            /\ ((162 # 10) * (1 - eps) <= n # Upos <= (162 # 10) * (1 + eps))%Q.
Proof. unfold lit_16_2. eexists. split; [reflexivity |]. split; by_computation. Qed.

Lemma Qmult_interval (x y a b c d : Q) :
  (0 <= a)%Q -> (a <= x <= b)%Q -> (0 <= c)%Q -> (c <= y <= d)%Q ->
  (a * c <= x * y <= b * d)%Q.
Proof.
  intros Ha [H1 H2] Hc [H3 H4].
  split.
  - apply Qle_trans with (a * y)%Q.
    + rewrite !(Qmult_comm a). apply Qmult_le_compat_r; assumption.
    + apply Qmult_le_compat_r; [assumption | lra].
  - apply Qle_trans with (x * d)%Q.
    + rewrite !(Qmult_comm x). apply Qmult_le_compat_r; [assumption | lra].
    + apply Qmult_le_compat_r; [assumption | lra].
Qed.

(** A product of two positive floats in the normal range: the factors'
    enclosures multiply, and the rounding adds one relative [eps]. *)
Lemma fmul_rel (n s : Z) (c a1 a2 b1 b2 : Q) :
  c = n # Upos ->
  (a1 <= c <= a2)%Q -> (b1 <= inject_Z s <= b2)%Q ->
  (0 <= a1)%Q -> (0 <= b1)%Q ->
  (inject_Z (2 ^ 52) <= a1 * b1)%Q -> (a2 * b2 <= inject_Z big)%Q ->
  exists r, fmul (Finite n) (Finite s) = Finite r
            /\ (a1 * b1 * (1 - eps) <= inject_Z r <= a2 * b2 * (1 + eps))%Q.
Proof.
  intros -> Hn Hs Ha Hb Hlo Hhi.
  pose proof (Qmult_interval _ _ _ _ _ _ Ha Hn Hb Hs) as [H1 H2].
  assert (E : ((n * s) # Upos == (n # Upos) * inject_Z s)%Q).
  { unfold Qeq, Qmult, inject_Z. cbn [Qnum Qden]. rewrite Pos.mul_1_r. reflexivity. }
  destruct (of_units_rel ((n # Upos) * inject_Z s)) as [r [Er Hr]].
  - eapply Qle_trans; eassumption.
  - eapply Qle_trans; eassumption.
  - exists r. split.
    + unfold fmul. rewrite (of_units_comp _ _ E). exact Er.
    + assert (He1 : (0 <= 1 - eps)%Q) by (unfold Qle; vm_compute; intro H; discriminate H).
      assert (He2 : (0 <= 1 + eps)%Q) by (unfold Qle; vm_compute; intro H; discriminate H).
      destruct Hr as [Hr1 Hr2]. split.
      * eapply Qle_trans; [| exact Hr1]. apply Qmult_le_compat_r; assumption.
      * eapply Qle_trans; [exact Hr2 |]. apply Qmult_le_compat_r; assumption.
Qed.

Ltac qlra :=
  repeat match goal with H : @eq Q _ _ |- _ => clear H end;
  unfold eps in *; change (2 ^ 53)%positive with 9007199254740992%positive in *; lra.

(** C4 (amended): for every size with [0 < size <= 2^50] the two
    coordinates of the shield anchor are equal, and twice the coordinate
    is [size], [size - 1] or [size - 2]: the anchor is the centre of the
    canvas up to truncation, so that [base_x / size] is at most one half
    and at most [1 / size] below it. *)
Theorem shield_anchor_centre (size : Z) :
  0 < size <= 2 ^ 50 ->
  exists b, shield_anchor size = Ok (b, b) /\ size - 2 <= 2 * b <= size.
Proof.
  intros Hsz.
  pose proof lit_0_7_rel as [n07 [E07 H07]].
  pose proof lit_16_2_rel as [n162 [E162 H162]].
  assert (Hu : (inject_Z (2 ^ 52) * 432 <= inject_Z U)%Q) by by_computation.
  assert (Hbig : (inject_Z U * (72057594037927936 # 1) <= inject_Z big)%Q) by by_computation.
  assert (Hlo0 : (0 < inject_Z (2 ^ 52))%Q) by reflexivity.
  assert (HV1 : (inject_Z U <= inject_Z size * inject_Z U)%Q).
  { rewrite <- inject_Z_mult, <- Zle_Qle. pose proof U_pos. nia. }
  assert (HV2 : (inject_Z size * inject_Z U <= (1125899906842624 # 1) * inject_Z U)%Q).
  { change (1125899906842624 # 1)%Q with (inject_Z (2 ^ 50)).
    rewrite <- !inject_Z_mult, <- Zle_Qle. pose proof U_pos. nia. }
  assert (H54 : (54 <= (54 * U) # Upos <= 54)%Q) by (split; by_computation).
  remember (n07 # Upos) as c07 eqn:Ec07. remember (n162 # Upos) as c162 eqn:Ec162.
  remember ((54 * U) # Upos) as c54 eqn:Ec54.
  remember (inject_Z U) as u eqn:Eu. remember (inject_Z size * u)%Q as V eqn:EV.
  remember (inject_Z (2 ^ 52)) as lo eqn:Elo. remember (inject_Z big) as B eqn:EB.
  (* scale *)
  destruct (of_units_rel (V * (1 # 108))) as [s [Es Hs]]; rewrite <- ?Elo, <- ?EB; [qlra | qlra |].
  assert (Exs : (inject_Z (size * U) / inject_Z 108 == V * (1 # 108))%Q).
  { rewrite inject_Z_mult, <- Eu, <- EV. unfold Qdiv. reflexivity. }
  (* foreground_scale *)
  destruct (fmul_rel n07 s _ _ _ _ _ Ec07 H07 Hs) as [fs [Efs Hfs]];
    rewrite <- ?Elo, <- ?EB; [qlra | qlra | qlra | qlra |].
  (* translate_x, translate_y *)
  destruct (fmul_rel n162 s _ _ _ _ _ Ec162 H162 Hs) as [tx [Etx Htx]];
    rewrite <- ?Elo, <- ?EB; [qlra | qlra | qlra | qlra |].
  (* 54 * foreground_scale *)
  destruct (fmul_rel (54 * U) fs _ _ _ _ _ Ec54 H54 Hfs) as [t [Et Ht]];
    rewrite <- ?Elo, <- ?EB; [qlra | qlra | qlra | qlra |].
  (* the sum *)
  destruct (of_units_rel (inject_Z t + inject_Z tx)) as [a [Ea Ha]]; rewrite <- ?Elo, <- ?EB; [qlra | qlra |].
  assert (Esum : (inject_Z (t + tx) == inject_Z t + inject_Z tx)%Q) by (rewrite inject_Z_plus; reflexivity).
  exists (Z.quot a U). split.
  - unfold shield_anchor, compute_placement, compute_base_x, compute_base_y.
    unfold Int, Val, binop, py_truediv. cbn [bindR].
    change (108 =? 0) with false. cbv iota. unfold quotient.
    rewrite (of_units_comp _ _ Exs), Es. cbn [bindR].
    rewrite E07, E162. unfold py_mul, py_add, arith. cbn [bindR to_float].
    rewrite Efs, Etx. cbn [bindR foreground_scale translate_x translate_y to_float].
    rewrite (float_of_int_small 54) by (vm_compute; discriminate). cbn [bindR].
    rewrite Et. cbn [bindR]. unfold int_. cbn [bindR to_float].
    unfold fadd. rewrite (of_units_comp _ _ Esum), Ea. cbn [py_int bindR].
    reflexivity.
  - assert (Ha0 : 0 <= a).
    { rewrite Zle_Qle. change (inject_Z 0) with 0%Q. qlra. }
    assert (Hup : 2 * a < (size + 1) * U).
    { rewrite Zlt_Qlt, !inject_Z_mult, inject_Z_plus, <- Eu.
      change (inject_Z 2) with 2%Q. change (inject_Z 1) with 1%Q.
      assert (Hupos : (0 < u)%Q) by qlra.
      rewrite Qmult_plus_distr_l, <- EV. qlra. }
    assert (Hdn : (size - 1) * U < 2 * a).
    { rewrite Zlt_Qlt, !inject_Z_mult. unfold Z.sub. rewrite inject_Z_plus, <- Eu.
      change (inject_Z 2) with 2%Q. change (inject_Z (- (1))) with (-1 # 1)%Q.
      rewrite Qmult_plus_distr_l, <- EV. qlra. }
    pose proof U_pos as HU.
    rewrite Z.quot_div_nonneg by lia.
    pose proof (Z.mul_div_le a U HU) as Hq1.
    pose proof (Z.mul_succ_div_gt a U HU) as Hq2.
    nia.
Qed.

Ltac take L :=
  let x := fresh "x" in
  let E := fresh "E" in
  let W := fresh "W" in
  destruct L as [x [E W]]; rewrite E; cbn [bindR].

Section Failure.

Context `{Backend}.


End Failure.




(** ** The last row of the gradient *)

Lemma Qdiv_le_cross (a b c d : Z) :
  0 < b -> 0 < d -> a * d <= c * b ->
  (inject_Z a / inject_Z b <= inject_Z c / inject_Z d)%Q.
Proof.
  intros Hb Hd Hc.
  destruct b as [| b | b]; try lia. destruct d as [| d | d]; try lia.
  unfold Qle, Qdiv, Qmult, Qinv, inject_Z. cbn [Qnum Qden]. nia.
Qed.

Lemma ratio_last_ge (size : Z) :
  81 <= size -> ratio_units 81 80 <= ratio_units size (size - 1).
Proof.
  intros Hs. unfold ratio_units. apply round_units_mono.
  apply Qdiv_le_cross; try lia. pose proof U_pos. nia.
Qed.

Lemma channels_at_80_81 :
  channel 74 81 (ratio_units 81 80) = 154
  /\ channel 144 (-55) (ratio_units 81 80) = 89
  /\ channel 226 (-44) (ratio_units 81 80) = 182.
Proof. vm_compute. repeat split. Qed.

Lemma row_color_last (size : Z) :
  81 <= size ->
  exists r, row_color size (size - 1) = (r, 89, 182) /\ 154 <= r <= 155.
Proof.
  intros Hs.
  pose proof (ratio_last_ge size Hs) as Hn.
  pose proof (row_color_range size (size - 1) ltac:(lia) ltac:(lia)) as Hr.
  destruct channels_at_80_81 as [Er [Eg Eb]].
  unfold row_color in *.
  pose proof (channel_mono 74 81 _ _ ltac:(lia) Hn) as H1.
  pose proof (channel_anti 144 (-55) _ _ ltac:(lia) Hn) as H2.
  pose proof (channel_anti 226 (-44) _ _ ltac:(lia) Hn) as H3.
  rewrite Er in H1. rewrite Eg in H2. rewrite Eb in H3.
  destruct Hr as [Hr1 [Hr2 Hr3]].
  exists (channel 74 81 (ratio_units size (size - 1))).
  split; [| lia].
  f_equal; [f_equal |]; lia.
Qed.

Lemma row_color_first (size : Z) : 0 < size -> row_color size 0 = (74, 144, 226).
Proof.
  intros Hs. unfold row_color. rewrite ratio_units_0 by assumption.
  rewrite !channel_start by (unfold prec; simpl; lia). reflexivity.
Qed.

Lemma row_color_monotone (size y1 y2 : Z) :
  0 < size -> y1 <= y2 ->
  let '(r1, g1, b1) := row_color size y1 in
  let '(r2, g2, b2) := row_color size y2 in
  r1 <= r2 /\ g2 <= g1 /\ b2 <= b1.
Proof.
  intros Hs Hy. unfold row_color.
  pose proof (ratio_mono size y1 y2 Hs Hy) as Hn.
  split; [| split].
  - apply channel_mono; [lia | exact Hn].
  - apply channel_anti; [lia | exact Hn].
  - apply channel_anti; [lia | exact Hn].
Qed.

Lemma bind_ret_r {A : Type} (c : M A) (w : world) : bind c ret w = c w.
Proof. unfold bind, ret. destruct (c w) as [[a | e] w']; reflexivity. Qed.


Lemma returned_image_raise (out : result ref * world) (e : exn) (w' : world) :
  out = (Raise e, w') -> returned_image out = Raise e.
Proof. intros ->. reflexivity. Qed.

Lemma returned_image_ok (out : result ref * world) (r : ref) (w' : world) (im : image) :
  out = (Ok r, w') -> nth_error (heap w') r = Some im -> returned_image out = Ok im.
Proof. intros -> Hn. cbn [returned_image]. rewrite Hn. reflexivity. Qed.

Lemma draw_gradient_run (size : Z) (w : world) (draw : ref) (im : image) :
  0 < size -> nth_error (heap w) draw = Some im -> well_formed size RGB im ->
  exists rows,
    draw_gradient draw size w
    = (Ok tt, set_heap w (update (heap w) draw
                            {| im_size := (size, size); im_data := RasterRGB rows |}))
    /\ square (Z.to_nat size) rows
    /\ forall y, 0 <= y < size ->
         gradient_color size y = Ok (row_color size y)
         /\ nth_error rows (Z.to_nat y) = Some (repeat (row_color size y) (Z.to_nat size)).
Proof.
  intros Hs Hd Hwf.
  destruct (gradient_image_rows size im Hs Hwf) as [rows [E [Hsq Hrows]]].
  destruct (draw_gradient_loop w draw size (range size) (heap w) im ret Hd) as [im'' El].
  rewrite bind_ret_r, set_heap_id in El.
  unfold gradient_image in E. rewrite E in El.
  exists rows. split; [exact El |]. split; [exact Hsq | exact Hrows].
Qed.

(** ** The claims *)




(** C2: the star of [size = 512] as the code computes it.  The ten
    vertices are two points, taken in turn: no angle enters them. *)
Theorem star_points_512 :
  star_points 512 =
  Ok [(PyInt 268, PyInt 156); (PyInt 250, PyInt 138);
      (PyInt 268, PyInt 156); (PyInt 250, PyInt 138);
      (PyInt 268, PyInt 156); (PyInt 250, PyInt 138);
      (PyInt 268, PyInt 156); (PyInt 250, PyInt 138);
      (PyInt 268, PyInt 156); (PyInt 250, PyInt 138)].
Proof. vm_compute. reflexivity. Qed.

Lemma white_canvas_ok (size : Z) : 0 <= size -> well_formed size RGB (white_canvas size).
Proof.
  intros Hs. split; [reflexivity |]. cbn [white_canvas im_data].
  split; [reflexivity | apply square_blank].
Qed.

(** C3 (amended): after the gradient pass on a canvas of [size] rows, the
    top row is the start colour exactly; from a row to any row below it
    the red channel does not decrease and the green and blue channels do
    not increase, all within the two declared colours; and for
    [size >= 81] the bottom row is the end colour in green and blue, and
    the end colour or one below it in red. *)
Theorem draw_gradient_top_bottom_monotone (size : Z) (w : world) (draw : ref) (im : image) :
  0 < size -> nth_error (heap w) draw = Some im -> well_formed size RGB im ->
  exists rows,
    draw_gradient draw size w
    = (Ok tt, set_heap w (update (heap w) draw
                            {| im_size := (size, size); im_data := RasterRGB rows |}))
    /\ nth_error rows 0 = Some (repeat (0x4A, 0x90, 0xE2) (Z.to_nat size))
    /\ (forall y1 y2, 0 <= y1 -> y1 <= y2 -> y2 < size ->
          exists r1 g1 b1 r2 g2 b2,
            nth_error rows (Z.to_nat y1) = Some (repeat (r1, g1, b1) (Z.to_nat size))
            /\ nth_error rows (Z.to_nat y2) = Some (repeat (r2, g2, b2) (Z.to_nat size))
            /\ 0x4A <= r1 <= r2 /\ r2 <= 0x9B
            /\ 0x59 <= g2 <= g1 /\ g1 <= 0x90
            /\ 0xB6 <= b2 <= b1 /\ b1 <= 0xE2)
    /\ (81 <= size ->
          exists r,
            nth_error rows (Z.to_nat (size - 1))
            = Some (repeat (r, 0x59, 0xB6) (Z.to_nat size))
            /\ 0x9B - 1 <= r <= 0x9B).
Proof.
  intros Hs Hd Hwf.
  destruct (draw_gradient_run size w draw im Hs Hd Hwf) as [rows [E [_ Hrows]]].
  exists rows. split; [exact E |]. split; [| split].
  - destruct (Hrows 0 ltac:(lia)) as [_ H0].
    rewrite row_color_first in H0 by exact Hs. exact H0.
  - intros y1 y2 H1 H12 H2.
    destruct (Hrows y1 ltac:(lia)) as [_ R1].
    destruct (Hrows y2 ltac:(lia)) as [_ R2].
    pose proof (row_color_monotone size y1 y2 Hs H12) as Hm.
    pose proof (row_color_range size y1 Hs ltac:(lia)) as Hr1.
    pose proof (row_color_range size y2 Hs ltac:(lia)) as Hr2.
    destruct (row_color size y1) as [[r1 g1] b1].
    destruct (row_color size y2) as [[r2 g2] b2].
    exists r1, g1, b1, r2, g2, b2.
    split; [exact R1 |]. split; [exact R2 |]. lia.
  - intros H81.
    destruct (row_color_last size H81) as [r [Er Hr]].
    destruct (Hrows (size - 1) ltac:(lia)) as [_ Rl].
    rewrite Er in Rl. exists r. split; [exact Rl | lia].
Qed.

Lemma draw_gradient_top_bottom_monotone_witness :
  0 < 2 /\ nth_error (heap canvas_world) 0 = Some (white_canvas 2)
  /\ well_formed 2 RGB (white_canvas 2)
  /\ exists rows,
       draw_gradient 0%nat 2 canvas_world
       = (Ok tt, set_heap canvas_world
                   (update (heap canvas_world) 0
                      {| im_size := (2, 2); im_data := RasterRGB rows |}))
       /\ nth_error rows 0 = Some (repeat (0x4A, 0x90, 0xE2) (Z.to_nat 2)).
Proof.
  assert (Hwf : well_formed 2 RGB (white_canvas 2)) by (apply white_canvas_ok; lia).
  split; [reflexivity |]. split; [reflexivity |]. split; [exact Hwf |].
  destruct (draw_gradient_top_bottom_monotone 2 canvas_world 0%nat (white_canvas 2)
              ltac:(reflexivity) ltac:(reflexivity) Hwf) as [rows [E [Htop _]]].
  exists rows. split; [exact E | exact Htop].
Defined.

(** C3 as stated fails: with [size = 1] the bottom row is the top row,
    of the start colour, [81] away from the end colour in red. *)
Lemma bottom_row_not_at_end_size_1 : ~ bottom_row_at_end 1.
Proof.
  intros [c [E Hc]].
  assert (E1 : gradient_color 1 (1 - 1) = Ok (74, 144, 226)) by (vm_compute; reflexivity).
  rewrite E1 in E. injection E as <-.
  cbn [within_one] in Hc. lia.
Qed.

Lemma shield_anchor_centre_witness :
  0 < 512 <= 2 ^ 50
  /\ exists b, shield_anchor 512 = Ok (b, b) /\ 512 - 2 <= 2 * b <= 512.
Proof.
  assert (Hs : 0 < 512 <= 2 ^ 50) by lia.
  split; [exact Hs | exact (shield_anchor_centre 512 Hs)].
Defined.

(** C4 as stated fails: the anchors of [512] and [1024] are [(255, 255)]
    and [(511, 511)], and [255 / 512 <> 511 / 1024]. *)
Lemma anchors_512_1024_not_proportional : ~ proportional_anchors 512 1024.
Proof.
  intros (x1 & y1 & x2 & y2 & E1 & E2 & Hx & _).
  assert (A1 : shield_anchor 512 = Ok (255, 255)) by (vm_compute; reflexivity).
  assert (A2 : shield_anchor 1024 = Ok (511, 511)) by (vm_compute; reflexivity).
  rewrite A1 in E1. rewrite A2 in E2.
  injection E1 as <- <-. injection E2 as <- <-. lia.
Qed.



Lemma pil_ready_set_heap (w : world) (h : list image) : pil_ready w -> pil_ready (set_heap w h).
Proof. intros Hw. exact Hw. Qed.

(** The result of a call does not depend on the world it is made in. *)
Lemma returned_image_render `{Backend} (size : Z) (w : world) :
  pil_ready w -> returned_image (create_play_store_icon size w) = render_image size.
Proof.
  intros Hw. pose proof (create_play_store_icon_outcome size w Hw) as Ho.
  destruct (render_image size) as [im | e].
  - destruct Ho as [r [l [E [Hn _]]]]. exact (returned_image_ok _ _ _ _ E Hn).
  - destruct Ho as [l E]. exact (returned_image_raise _ _ _ E).
Qed.

(** C6: two calls with the same [size], one after the other in a world
    where Pillow is imported, give the same outcome: the two returned
    objects hold equal images, pixel for pixel (or both calls raise the
    same exception), and the image of the first call is not changed by
    the second call. *)
Theorem create_play_store_icon_twice `{Backend} (size : Z) (w : world)
    (first second : result ref * world) :
  pil_ready w ->
  first = create_play_store_icon size w ->
  second = create_play_store_icon size (snd first) ->
  returned_image first = returned_image second
  /\ returned_image (fst first, snd second) = returned_image first.
Proof.
  intros Hw -> ->.
  pose proof (returned_image_render size w Hw) as R1.
  pose proof (create_play_store_icon_outcome size w Hw) as O1.
  destruct (render_image size) as [im | e] eqn:Er.
  - destruct O1 as [r1 [l1 [E1 [N1 _]]]]. rewrite E1 in R1 |- *. cbn [fst snd].
    assert (Hw1 : pil_ready (set_heap w (heap w ++ l1))) by exact Hw.
    pose proof (returned_image_render size _ Hw1) as R2.
    pose proof (create_play_store_icon_outcome size _ Hw1) as O2.
    rewrite Er in R2, O2.
    destruct O2 as [r2 [l2 [E2 [N2 _]]]]. rewrite E2 in R2 |- *. cbn [fst snd].
    split; [congruence |].
    rewrite R1. cbn [returned_image heap set_heap].
    rewrite nth_error_app1 by (apply nth_error_Some; rewrite N1; discriminate).
    rewrite N1. reflexivity.
  - destruct O1 as [l1 E1]. rewrite E1 in R1 |- *. cbn [fst snd].
    assert (Hw1 : pil_ready (set_heap w (heap w ++ l1))) by exact Hw.
    pose proof (returned_image_render size _ Hw1) as R2.
    rewrite Er in R2.
    split; [congruence | reflexivity].
Qed.

Lemma create_play_store_icon_twice_witness :
  pil_ready pil_world
  /\ returned_image (@create_play_store_icon box_backend 2 pil_world)
     = returned_image
         (@create_play_store_icon box_backend 2
            (snd (@create_play_store_icon box_backend 2 pil_world))).
Proof.
  split; [reflexivity |].
  exact (proj1 (@create_play_store_icon_twice box_backend 2 pil_world _ _
                  eq_refl eq_refl eq_refl)).
Defined.

Section Program.

Context `{Backend}.

(** C7: when Pillow is not installed, the script prints the two lines of
    the message (the second is the installation hint) and exits with
    status 1; the file system is as before, so no directory and no file
    has been created, and no image object exists that did not before. *)
Theorem script_without_pillow (w : world) :
  installed w "PIL" = false ->
  exists w',
    run_script w = (1, w')
    /\ 1 <> 0
    /\ stdout w' = stdout w ++ ["Error: Missing required packages.";
                                "Install with: pip install cairosvg pillow"]%string
    /\ fs w' = fs w
    /\ fs_lookup output_dir (fs w') = fs_lookup output_dir (fs w)
    /\ heap w' = heap w.
Proof.
  intros Hm.
  destruct (run_script_missing w) as [w' [E [Hf [Hh Ho]]]].
  { rewrite Hm. reflexivity. }
  exists w'. split; [exact E |]. split; [discriminate |].
  split; [exact Ho |]. split; [exact Hf |]. split; [rewrite Hf; reflexivity | exact Hh].
Qed.

(** C8: with both packages installed, no entry of the names
    [play_store_icons], [play_store_icons/chorequest_icon_512x512.png] and
    [play_store_icons/chorequest_icon_1024x1024.png], and no I/O failure,
    the script exits with status 0; afterwards the directory exists, the
    two paths are PNG files holding images of 512 by 512 and 1024 by 1024
    pixels, and every other path is as before. *)
Theorem script_writes_two_icons (w : world) :
  installed w "PIL" = true -> installed w "cairosvg" = true ->
  fs_lookup output_dir (fs w) = None ->
  fs_lookup path_512 (fs w) = None ->
  fs_lookup path_1024 (fs w) = None ->
  io_fails w output_dir = false ->
  io_fails w path_512 = false ->
  io_fails w path_1024 = false ->
  exists w' im512 im1024,
    run_script w = (0, w')
    /\ fs_lookup output_dir (fs w') = Some Directory
    /\ fs_lookup path_512 (fs w') = Some (PngFile im512)
    /\ im_size im512 = (512, 512)
    /\ fs_lookup path_1024 (fs w') = Some (PngFile im1024)
    /\ im_size im1024 = (1024, 1024)
    /\ forall p, p <> output_dir -> p <> path_512 -> p <> path_1024 ->
         fs_lookup p (fs w') = fs_lookup p (fs w).
Proof.
  intros H1 H2 Hd H512 H1024 Iod Io512 Io1024.
  destruct (run_script_ok w H1 H2 Hd H512 H1024 Iod Io512 Io1024)
    as (w' & im1 & im2 & E & Hf & _ & _ & [S1 _] & _ & [S2 _]).
  exists w', im1, im2. rewrite Hf.
  split; [exact E |].
  split; [rewrite !fs_lookup_set_other by discriminate; apply fs_lookup_set_same |].
  split; [rewrite fs_lookup_set_other by discriminate; apply fs_lookup_set_same |].
  split; [exact S1 |].
  split; [apply fs_lookup_set_same |].
  split; [exact S2 |].
  intros p Hp1 Hp2 Hp3. rewrite !fs_lookup_set_other by assumption. reflexivity.
Qed.


End Program.

Section Guard.

Context `{Backend}.

(** C10: with Pillow installed and cairosvg not, on a machine where a run
    could write its output, the script exits with status 1 at the import
    guard and writes nothing; yet [main] itself, run after the import of
    Pillow alone, ends normally with the directory and the two icons
    written. *)
Theorem script_needs_unused_cairosvg (w : world) :
  installed w "PIL" = true -> installed w "cairosvg" = false ->
  fs_lookup output_dir (fs w) = None ->
  fs_lookup path_512 (fs w) = None ->
  fs_lookup path_1024 (fs w) = None ->
  io_fails w output_dir = false ->
  io_fails w path_512 = false ->
  io_fails w path_1024 = false ->
  (exists w', run_script w = (1, w') /\ fs w' = fs w)
  /\ exists w'' im512 im1024,
       (import_ "PIL" ;; main)%M w = (Ok tt, w'')
       /\ fs w'' = fs_set path_1024 (PngFile im1024)
                     (fs_set path_512 (PngFile im512)
                        (fs_set output_dir Directory (fs w)))
       /\ im_size im512 = (512, 512) /\ im_size im1024 = (1024, 1024).
Proof.
  intros H1 H2 Hd H512 H1024 Iod Io512 Io1024. split.
  - destruct (run_script_missing w) as [w' [E [Hf _]]].
    { rewrite H1, H2. reflexivity. }
    exists w'. split; [exact E | exact Hf].
  - assert (Ei : import_ "PIL" w = (Ok tt, set_modules w ("PIL" :: modules w)%string)).
    { unfold import_. rewrite H1. reflexivity. }
    destruct (main_run (set_modules w ("PIL" :: modules w)%string))
      as (im1 & im2 & l & E & _ & [S1 _] & _ & [S2 _]); try assumption.
    { reflexivity. }
    rewrite (run_bind _ _ _ _ _ Ei). rewrite E.
    eexists. exists im1, im2.
    split; [reflexivity |]. split; [reflexivity |]. split; [exact S1 | exact S2].
Qed.

End Guard.

Lemma script_without_pillow_witness :
  installed bare_machine "PIL" = false
  /\ exists w', @run_script box_backend bare_machine = (1, w') /\ fs w' = fs bare_machine.
Proof.
  split; [reflexivity |].
  destruct (@script_without_pillow box_backend bare_machine eq_refl)
    as [w' [E [_ [_ [Hf _]]]]].
  exists w'. split; [exact E | exact Hf].
Defined.

Lemma script_writes_two_icons_witness :
  installed full_machine "PIL" = true /\ installed full_machine "cairosvg" = true
  /\ fs_lookup output_dir (fs full_machine) = None
  /\ fs_lookup path_512 (fs full_machine) = None
  /\ fs_lookup path_1024 (fs full_machine) = None
  /\ io_fails full_machine output_dir = false
  /\ io_fails full_machine path_512 = false
  /\ io_fails full_machine path_1024 = false
  /\ exists w', @run_script box_backend full_machine = (0, w')
                /\ fs_lookup output_dir (fs w') = Some Directory.
Proof.
  repeat (split; [reflexivity |]).
  destruct (@script_writes_two_icons box_backend full_machine
              eq_refl eq_refl eq_refl eq_refl eq_refl eq_refl eq_refl eq_refl)
    as (w' & im1 & im2 & E & Hd & _).
  exists w'. split; [exact E | exact Hd].
Defined.



Lemma script_needs_unused_cairosvg_witness :
  installed pil_only_machine "PIL" = true /\ installed pil_only_machine "cairosvg" = false
  /\ fs_lookup output_dir (fs pil_only_machine) = None
  /\ fs_lookup path_512 (fs pil_only_machine) = None
  /\ fs_lookup path_1024 (fs pil_only_machine) = None
  /\ io_fails pil_only_machine output_dir = false
  /\ io_fails pil_only_machine path_512 = false
  /\ io_fails pil_only_machine path_1024 = false
  /\ (exists w', @run_script box_backend pil_only_machine = (1, w')
                 /\ fs w' = fs pil_only_machine)
  /\ exists w'', (import_ "PIL" ;; @main box_backend)%M pil_only_machine = (Ok tt, w'').
Proof.
  repeat (split; [reflexivity |]).
  destruct (@script_needs_unused_cairosvg box_backend pil_only_machine
              eq_refl eq_refl eq_refl eq_refl eq_refl eq_refl eq_refl eq_refl)
    as [Hexit (w'' & im1 & im2 & E & _)].
  split; [exact Hexit |]. exists w''. exact E.
Defined.

(** ** The star *)

(** An iteration of the star loop depends on [i] through its parity only. *)
Lemma star_vertex_parity (star_x star_y star_radius i : Z) :
  0 <= i < 10 ->
  star_vertex star_x star_y star_radius i
  = star_vertex star_x star_y star_radius (i mod 2).
Proof.
  intros Hi.
  assert (Hm : 0 <= i mod 2 < 10) by (pose proof (Z.mod_pos_bound i 2); lia).
  destruct (star_angle_defined i Hi) as [v Ev].
  destruct (star_angle_defined (i mod 2) Hm) as [v' Ev'].
  unfold star_vertex. rewrite Ev, Ev'. cbn [bindR].
  rewrite Z.mod_mod by lia. reflexivity.
Qed.

Lemma star_vertex_even (star_x star_y star_radius i : Z) (a : point) :
  0 <= i < 10 -> i mod 2 = 0 ->
  star_vertex star_x star_y star_radius 0 = Ok a ->
  star_vertex star_x star_y star_radius i = Ok a.
Proof. intros Hi Hm Ea. rewrite star_vertex_parity by exact Hi. rewrite Hm. exact Ea. Qed.

Lemma star_vertex_odd (star_x star_y star_radius i : Z) (b : point) :
  0 <= i < 10 -> i mod 2 = 1 ->
  star_vertex star_x star_y star_radius 1 = Ok b ->
  star_vertex star_x star_y star_radius i = Ok b.
Proof. intros Hi Hm Eb. rewrite star_vertex_parity by exact Hi. rewrite Hm. exact Eb. Qed.

Lemma compute_star_points_two (star_x star_y star_radius : Z) (a b : point) :
  star_vertex star_x star_y star_radius 0 = Ok a ->
  star_vertex star_x star_y star_radius 1 = Ok b ->
  compute_star_points star_x star_y star_radius = Ok [a; b; a; b; a; b; a; b; a; b].
Proof.
  intros Ea Eb.
  pose proof (star_vertex_even star_x star_y star_radius 2 a ltac:(lia) eq_refl Ea) as E2.
  pose proof (star_vertex_odd star_x star_y star_radius 3 b ltac:(lia) eq_refl Eb) as E3.
  pose proof (star_vertex_even star_x star_y star_radius 4 a ltac:(lia) eq_refl Ea) as E4.
  pose proof (star_vertex_odd star_x star_y star_radius 5 b ltac:(lia) eq_refl Eb) as E5.
  pose proof (star_vertex_even star_x star_y star_radius 6 a ltac:(lia) eq_refl Ea) as E6.
  pose proof (star_vertex_odd star_x star_y star_radius 7 b ltac:(lia) eq_refl Eb) as E7.
  pose proof (star_vertex_even star_x star_y star_radius 8 a ltac:(lia) eq_refl Ea) as E8.
  pose proof (star_vertex_odd star_x star_y star_radius 9 b ltac:(lia) eq_refl Eb) as E9.
  unfold compute_star_points.
  change (range 10) with [0; 1; 2; 3; 4; 5; 6; 7; 8; 9].
  cbn [fold_left bindR].
  rewrite Ea. cbn [bindR app]. rewrite Eb. cbn [bindR app].
  rewrite E2. cbn [bindR app]. rewrite E3. cbn [bindR app].
  rewrite E4. cbn [bindR app]. rewrite E5. cbn [bindR app].
  rewrite E6. cbn [bindR app]. rewrite E7. cbn [bindR app].
  rewrite E8. cbn [bindR app]. rewrite E9. cbn [bindR app].
  reflexivity.
Qed.

(** X1: for every size up to [2^960] the star polygon has ten vertices at
    no more than two positions: the even iterations of the loop give one
    point and the odd iterations another, in turn. *)
Theorem star_points_two_positions (size : Z) :
  0 < size <= max_size ->
  exists a b, star_points size = Ok [a; b; a; b; a; b; a; b; a; b].
Proof.
  intros Hs. unfold star_points.
  destruct (compute_placement_ok size Hs) as [p [Ep Hp]].
  destruct (compute_base_x_ok p Hp) as [bx [Ebx Hbx]].
  destruct (compute_star_y_ok p Hp) as [sy [Esy Hsy]].
  destruct (compute_star_radius_ok p Hp) as [sr [Esr Hsr]].
  rewrite Ep. cbn [bindR]. rewrite Ebx. cbn [bindR]. rewrite Esy. cbn [bindR].
  rewrite Esr. cbn [bindR].
  destruct (star_vertex_ok bx sy sr 0 ltac:(lia) Hbx Hsy Hsr) as [a [Ea _]].
  destruct (star_vertex_ok bx sy sr 1 ltac:(lia) Hbx Hsy Hsr) as [b [Eb _]].
  exists a, b. apply compute_star_points_two; assumption.
Qed.

Lemma star_points_two_positions_witness :
  0 < 1024 <= max_size
  /\ exists a b, star_points 1024 = Ok [a; b; a; b; a; b; a; b; a; b].
Proof.
  assert (Hs : 0 < 1024 <= max_size) by (split; [reflexivity | apply Z.leb_le; reflexivity]).
  split; [exact Hs | exact (star_points_two_positions 1024 Hs)].
Defined.

(** ** Objects *)

Section Objects.

Context `{Backend}.


(** X3: a negative size is refused by [Image.new]: the call raises
    [ValueError] at line 28 and changes nothing. *)
Theorem create_play_store_icon_negative (size : Z) (w : world) :
  pil_ready w -> size < 0 ->
  create_play_store_icon size w = (Raise ValueError, w).
Proof.
  intros Hw Hs. unfold create_play_store_icon, Image_new.
  unfold bind at 1. unfold bind at 1. unfold need. rewrite Hw.
  unfold bind at 1. unfold lift, new_image. cbn [fst snd].
  assert (E : (size <? 0) = true) by (apply Z.ltb_lt; exact Hs).
  rewrite E. reflexivity.
Qed.

(** X4: size [0] gives an image without pixels: the loop of the gradient
    does not run, so that the ratio [y / size] is never taken. *)
Theorem create_play_store_icon_zero (w : world) :
  pil_ready w ->
  exists r w',
    create_play_store_icon 0 w = (Ok r, w')
    /\ nth_error (heap w') r = Some {| im_size := (0, 0); im_data := RasterRGB [] |}.
Proof.
  intros Hw.
  pose proof (create_play_store_icon_outcome 0 w Hw) as Ho.
  assert (E : render_image 0 = Ok {| im_size := (0, 0); im_data := RasterRGB [] |})
    by (vm_compute; reflexivity).
  rewrite E in Ho. destruct Ho as [r [l [Er [Hn _]]]].
  exists r. eexists. split; [exact Er | exact Hn].
Qed.

End Objects.


Lemma create_play_store_icon_negative_witness :
  pil_ready pil_world /\ -1 < 0
  /\ @create_play_store_icon box_backend (-1) pil_world = (Raise ValueError, pil_world).
Proof.
  split; [reflexivity |]. split; [reflexivity |].
  exact (@create_play_store_icon_negative box_backend (-1) pil_world eq_refl eq_refl).
Defined.

Lemma create_play_store_icon_zero_witness :
  pil_ready pil_world
  /\ exists r w',
       @create_play_store_icon box_backend 0 pil_world = (Ok r, w')
       /\ nth_error (heap w') r = Some {| im_size := (0, 0); im_data := RasterRGB [] |}.
Proof.
  split; [reflexivity |].
  exact (@create_play_store_icon_zero box_backend pil_world eq_refl).
Defined.

(** ** The driver *)

Ltac neq := let X := fresh in intro X; discriminate X.


Lemma os_makedirs_file (path : string) (w : world) (c : image) :
  fs_lookup path (fs w) = Some (PngFile c) ->
  os_makedirs path w = (Raise FileExistsError, w).
Proof. intros Hl. unfold os_makedirs. rewrite Hl. reflexivity. Qed.

Section Reruns.

Context `{Backend}.

(** The script on a machine where an earlier run has left its output. *)
Lemma run_script_again (w : world) :
  installed w "PIL" = true -> installed w "cairosvg" = true ->
  fs_lookup output_dir (fs w) = Some Directory ->
  fs_lookup path_512 (fs w) <> Some Directory ->
  fs_lookup path_1024 (fs w) <> Some Directory ->
  io_fails w path_512 = false ->
  io_fails w path_1024 = false ->
  exists w' im512 im1024,
    run_script w = (0, w')
    /\ fs w' = fs_set path_1024 (PngFile im1024) (fs_set path_512 (PngFile im512) (fs w))
    /\ render_image 512 = Ok im512 /\ render_image 1024 = Ok im1024.
Proof.
  intros H1 H2 Hd H512 H1024 Io512 Io1024.
  unfold run_script, script.
  rewrite (run_bind _ _ _ _ _ (import_guard_ok w H1 H2)).
  destruct (main_rerun (set_modules w ("cairosvg" :: "PIL" :: modules w)%string))
    as (im1 & im2 & l & E & R1 & _ & R2 & _); try assumption.
  { reflexivity. }
  rewrite E. cbn [exit_status].
  eexists. exists im1, im2. split; [reflexivity |]. wsimpl.
  exact (conj eq_refl (conj R1 R2)).
Qed.

(** X5: the script can be run again.  After a first run on a machine
    without the output directory, a second run of the interpreter on the
    same machine exits 0 as well, and leaves every path of the file
    system as the first run left it: the directory is reused
    ([exist_ok=True]) and the two files are written again with equal
    content. *)
Theorem script_rerun_same_files (w : world) :
  installed w "PIL" = true -> installed w "cairosvg" = true ->
  fs_lookup output_dir (fs w) = None ->
  fs_lookup path_512 (fs w) = None ->
  fs_lookup path_1024 (fs w) = None ->
  io_fails w output_dir = false ->
  io_fails w path_512 = false ->
  io_fails w path_1024 = false ->
  exists w1 w2,
    run_script w = (0, w1)
    /\ run_script (restart w1) = (0, w2)
    /\ forall p, fs_lookup p (fs w2) = fs_lookup p (fs w1).
Proof.
  intros H1 H2 Hd H512 H1024 Iod Io512 Io1024.
  destruct (run_script_ok w H1 H2 Hd H512 H1024 Iod Io512 Io1024)
    as (w1 & im1 & im2 & E1 & Hf1 & _ & R1 & _ & R2 & _).
  assert (Hinst : installed w1 = installed w /\ io_fails w1 = io_fails w).
  { unfold run_script, script in E1.
    rewrite (run_bind _ _ _ _ _ (import_guard_ok w H1 H2)) in E1.
    destruct (main_run (set_modules w ("cairosvg" :: "PIL" :: modules w)%string))
      as (i1 & i2 & l & E & _); try assumption.
    { reflexivity. }
    rewrite E in E1. cbn [exit_status] in E1. injection E1 as <-.
    split; reflexivity. }
  destruct Hinst as [Hi Hio].
  destruct (run_script_again (restart w1)) as (w2 & j1 & j2 & E2 & Hf2 & S1 & S2).
  - cbn [restart installed]. rewrite Hi. exact H1.
  - cbn [restart installed]. rewrite Hi. exact H2.
  - cbn [restart fs]. rewrite Hf1.
    rewrite !fs_lookup_set_other by neq. apply fs_lookup_set_same.
  - cbn [restart fs]. rewrite Hf1.
    rewrite fs_lookup_set_other by neq. rewrite fs_lookup_set_same. neq.
  - cbn [restart fs]. rewrite Hf1. rewrite fs_lookup_set_same. neq.
  - cbn [restart io_fails]. rewrite Hio. exact Io512.
  - cbn [restart io_fails]. rewrite Hio. exact Io1024.
  - exists w1, w2. split; [exact E1 |]. split; [exact E2 |].
    intros p. rewrite Hf2. cbn [restart fs].
    assert (J1 : j1 = im1) by congruence. assert (J2 : j2 = im2) by congruence.
    subst j1 j2.
    destruct (string_dec p path_1024) as [-> | N1].
    { rewrite fs_lookup_set_same. rewrite Hf1, fs_lookup_set_same. reflexivity. }
    rewrite fs_lookup_set_other by exact N1.
    destruct (string_dec p path_512) as [-> | N2].
    { rewrite fs_lookup_set_same. rewrite Hf1.
      rewrite fs_lookup_set_other by neq. rewrite fs_lookup_set_same. reflexivity. }
    rewrite fs_lookup_set_other by exact N2. reflexivity.
Qed.

(** X6: when the name of the output directory is taken by a file,
    [os.makedirs] raises [FileExistsError] in spite of [exist_ok=True];
    the script exits with status 1 before it prints or writes anything. *)
Theorem script_directory_name_taken (w : world) (c : image) :
  installed w "PIL" = true -> installed w "cairosvg" = true ->
  fs_lookup output_dir (fs w) = Some (PngFile c) ->
  exists w',
    run_script w = (1, w')
    /\ fs w' = fs w /\ stdout w' = stdout w /\ heap w' = heap w.
Proof.
  intros H1 H2 Hd.
  unfold run_script, script.
  rewrite (run_bind _ _ _ _ _ (import_guard_ok w H1 H2)).
  unfold main. cbv zeta.
  change "play_store_icons"%string with output_dir.
  erewrite run_bind_raise by (apply os_makedirs_file with (c := c); exact Hd).
  cbn [exit_status]. eexists. split; [reflexivity |].
  split; [reflexivity |]. split; reflexivity.
Qed.


(** X8: what a successful run prints and saves.  The eleven lines of
    [main] are printed in order, the icon of 512 before the icon of 1024,
    and each file holds the image that [create_play_store_icon] returns
    for its size in any world where Pillow is imported. *)
Theorem script_output_and_files (w : world) :
  installed w "PIL" = true -> installed w "cairosvg" = true ->
  fs_lookup output_dir (fs w) = None ->
  fs_lookup path_512 (fs w) = None ->
  fs_lookup path_1024 (fs w) = None ->
  io_fails w output_dir = false ->
  io_fails w path_512 = false ->
  io_fails w path_1024 = false ->
  exists w' im512 im1024,
    run_script w = (0, w')
    /\ stdout w' = stdout w ++ main_output
    /\ fs_lookup path_512 (fs w') = Some (PngFile im512)
    /\ fs_lookup path_1024 (fs w') = Some (PngFile im1024)
    /\ forall v, pil_ready v ->
         returned_image (create_play_store_icon 512 v) = Ok im512
         /\ returned_image (create_play_store_icon 1024 v) = Ok im1024.
Proof.
  intros H1 H2 Hd H512 H1024 Iod Io512 Io1024.
  destruct (run_script_ok w H1 H2 Hd H512 H1024 Iod Io512 Io1024)
    as (w' & im1 & im2 & E & Hf & Ho & R1 & _ & R2 & _).
  exists w', im1, im2. rewrite Hf.
  split; [exact E |]. split; [exact Ho |].
  split; [rewrite fs_lookup_set_other by neq; apply fs_lookup_set_same |].
  split; [apply fs_lookup_set_same |].
  intros v Hv. rewrite !returned_image_render by exact Hv. split; assumption.
Qed.

End Reruns.

(** ** The purple overlay *)

Lemma mapi_from_const_in {A B : Type} (f : Z -> A -> B) (b : B) (i : Z) (l : list A) :
  (forall j a, In a l -> i <= j < i + Z.of_nat (length l) -> f j a = b) ->
  mapi_from f i l = repeat b (length l).
Proof.
  revert i. induction l as [| a l IH]; intros i Hf; simpl; [reflexivity |].
  rewrite Hf by (simpl; first [left; reflexivity | lia]). f_equal.
  apply IH. intros j a' Hin Hj. apply Hf; [right; exact Hin | simpl length; lia].
Qed.

Lemma paint_all {A : Type} (n : nat) (covers : Z -> Z -> bool) (ink : A)
    (rows : list (list A)) :
  square n rows ->
  (forall x y, 0 <= x < Z.of_nat n -> 0 <= y < Z.of_nat n -> covers x y = true) ->
  paint covers ink rows = repeat (repeat ink n) n.
Proof.
  intros [Hlen Hrows] Hc. unfold paint.
  rewrite Forall_forall in Hrows.
  rewrite <- Hlen at 2.
  apply mapi_from_const_in. intros y row Hin Hy.
  rewrite <- (Hrows row Hin).
  apply mapi_from_const. intros x p Hx.
  rewrite Hc; [reflexivity | rewrite <- (Hrows row Hin); lia | lia].
Qed.

(** X9: the purple rectangle of lines 52-55 covers the whole overlay:
    its corners [(0, 0)] and [(size, size)] are both inside the rectangle,
    so that every pixel of the layer takes the colour
    [(155, 89, 182, 153)], whatever the layer held. *)
Theorem purple_rectangle_covers_canvas (size : Z) (w : world) (draw : ref) (im : image) :
  0 <= size -> nth_error (heap w) draw = Some im -> well_formed size RGBA im ->
  draw_rectangle draw (0, 0) (size, size) (ColorTuple4 155 89 182 153) w
  = (Ok tt,
     set_heap w (update (heap w) draw
                   {| im_size := (size, size);
                      im_data := RasterRGBA (blank (size, size) (155, 89, 182, 153)) |})).
Proof.
  intros Hs Hd [Hsz Hdata].
  unfold draw_rectangle, bind, load. rewrite Hd.
  unfold lift, fill_rectangle. cbn [fst snd].
  assert (E : (size <? 0) = false) by (apply Z.ltb_ge; exact Hs).
  rewrite E. cbn [orb]. unfold fill.
  destruct (im_data im) as [rows | rows]; destruct Hdata as [Hm Hsq]; [discriminate Hm |].
  cbn [ink_rgba bindR]. unfold store. rewrite Hsz.
  rewrite (paint_all (Z.to_nat size) _ _ rows Hsq).
  - reflexivity.
  - intros x y Hx Hy. unfold in_box. cbn [fst snd].
    rewrite Z2Nat.id in Hx, Hy by exact Hs.
    rewrite !andb_true_iff, !Z.leb_le. lia.
Qed.

Lemma clear_layer_ok (size : Z) : 0 <= size -> well_formed size RGBA (clear_layer size).
Proof.
  intros Hs. split; [reflexivity |]. cbn [clear_layer im_data].
  split; [reflexivity | apply square_blank].
Qed.

Lemma purple_rectangle_covers_canvas_witness :
  0 <= 3 /\ nth_error (heap layer_world) 0 = Some (clear_layer 3)
  /\ well_formed 3 RGBA (clear_layer 3)
  /\ draw_rectangle 0%nat (0, 0) (3, 3) (ColorTuple4 155 89 182 153) layer_world
     = (Ok tt,
        set_heap layer_world
          (update (heap layer_world) 0
             {| im_size := (3, 3);
                im_data := RasterRGBA (blank (3, 3) (155, 89, 182, 153)) |})).
Proof.
  assert (Hwf : well_formed 3 RGBA (clear_layer 3)) by (apply clear_layer_ok; lia).
  split; [lia |]. split; [reflexivity |]. split; [exact Hwf |].
  exact (purple_rectangle_covers_canvas 3 layer_world 0%nat (clear_layer 3)
           ltac:(lia) eq_refl Hwf).
Defined.

Lemma script_rerun_same_files_witness :
  installed full_machine "PIL" = true /\ installed full_machine "cairosvg" = true
  /\ fs_lookup output_dir (fs full_machine) = None
  /\ fs_lookup path_512 (fs full_machine) = None
  /\ fs_lookup path_1024 (fs full_machine) = None
  /\ io_fails full_machine output_dir = false
  /\ io_fails full_machine path_512 = false
  /\ io_fails full_machine path_1024 = false
  /\ exists w1 w2,
       @run_script box_backend full_machine = (0, w1)
       /\ @run_script box_backend (restart w1) = (0, w2)
       /\ forall p, fs_lookup p (fs w2) = fs_lookup p (fs w1).
Proof.
  repeat (split; [reflexivity |]).
  exact (@script_rerun_same_files box_backend full_machine
           eq_refl eq_refl eq_refl eq_refl eq_refl eq_refl eq_refl eq_refl).
Defined.

Lemma script_directory_name_taken_witness :
  installed blocked_machine "PIL" = true /\ installed blocked_machine "cairosvg" = true
  /\ fs_lookup output_dir (fs blocked_machine) = Some (PngFile (white_canvas 1))
  /\ exists w',
       @run_script box_backend blocked_machine = (1, w')
       /\ fs w' = fs blocked_machine /\ stdout w' = stdout blocked_machine
       /\ heap w' = heap blocked_machine.
Proof.
  repeat (split; [reflexivity |]).
  exact (@script_directory_name_taken box_backend blocked_machine (white_canvas 1)
           eq_refl eq_refl eq_refl).
Defined.


Lemma script_output_and_files_witness :
  installed full_machine "PIL" = true /\ installed full_machine "cairosvg" = true
  /\ fs_lookup output_dir (fs full_machine) = None
  /\ fs_lookup path_512 (fs full_machine) = None
  /\ fs_lookup path_1024 (fs full_machine) = None
  /\ io_fails full_machine output_dir = false
  /\ io_fails full_machine path_512 = false
  /\ io_fails full_machine path_1024 = false
  /\ exists w', @run_script box_backend full_machine = (0, w')
                /\ stdout w' = stdout full_machine ++ main_output.
Proof.
  repeat (split; [reflexivity |]).
  destruct (@script_output_and_files box_backend full_machine
              eq_refl eq_refl eq_refl eq_refl eq_refl eq_refl eq_refl eq_refl)
    as (w' & im1 & im2 & E & Ho & _).
  exists w'. split; [exact E | exact Ho].
Defined.

(** ** The gradient against exact interpolation *)

Lemma rz_rel (k : Z) :
  2 ^ 52 <= k ->
  (inject_Z k * (1 - eps) <= inject_Z (rz k) <= inject_Z k * (1 + eps))%Q.
Proof.
  intros Hk. unfold rz.
  assert (Hq : (inject_Z (2 ^ 52) <= inject_Z k)%Q) by (rewrite <- Zle_Qle; exact Hk).
  rewrite round_units_nonneg.
  - apply round_pos_rel. exact Hq.
  - eapply Qle_trans; [| exact Hq]. rewrite <- (Zle_Qle 0). apply Z.pow_nonneg. lia.
Qed.

(** A quantity [A], in units, within a sixteenth of a unit-multiple of
    [K / size]: its integer part is the quotient of [K] by [size], or one
    less when the division is exact. *)
Lemma floor_of_close (A K size : Z) :
  0 < size -> 0 <= A ->
  16 * size * A <= 16 * K * U + U ->
  16 * K * U - U <= 16 * size * A ->
  K / size - 1 <= A / U <= K / size /\ (K mod size <> 0 -> A / U = K / size).
Proof.
  intros Hs HA Hup Hdn.
  pose proof U_pos as HU.
  pose proof (Z.div_mod K size ltac:(lia)) as HK.
  pose proof (Z.mod_pos_bound K size Hs) as Hm.
  pose proof (Z.mul_div_le A U HU) as Hr1.
  pose proof (Z.mul_succ_div_gt A U HU) as Hr2.
  set (q := K / size) in *. set (m := K mod size) in *. set (r := A / U) in *.
  assert (H1 : 16 * size * r <= 16 * K + 1).
  { assert (16 * size * r * U <= (16 * K + 1) * U) by nia.
    apply Z.mul_le_mono_pos_r with (p := U); [exact HU | lia]. }
  assert (H2 : 16 * K - 1 < 16 * size * (r + 1)).
  { assert ((16 * K - 1) * U < 16 * size * (r + 1) * U) by nia.
    apply Z.mul_lt_mono_pos_r with (p := U); [exact HU | lia]. }
  assert (Hle : r <= q) by nia.
  assert (Hge : q - 1 <= r) by nia.
  split; [lia |].
  intros Hm0. assert (q <= r) by nia. lia.
Qed.

Lemma ratio_units_rel (size y : Z) :
  0 < size <= 2 ^ 40 -> 1 <= y < size ->
  exists x : Q,
    (inject_Z size * x == inject_Z y * inject_Z U)%Q
    /\ (inject_Z (2 ^ 52) * 1024 <= x)%Q /\ (x <= inject_Z U)%Q
    /\ (x * (1 - eps) <= inject_Z (ratio_units size y) <= x * (1 + eps))%Q.
Proof.
  intros Hs Hy. pose proof U_pos as HU.
  exists (inject_Z (y * U) / inject_Z size)%Q.
  assert (Hs0 : ~ (inject_Z size == 0)%Q).
  { unfold Qeq, inject_Z. cbn [Qnum Qden]. lia. }
  assert (HU92 : 2 ^ 52 * 1024 * 2 ^ 40 <= U) by (apply Z.leb_le; reflexivity).
  assert (Hlo : (inject_Z (2 ^ 52) * 1024 <= inject_Z (y * U) / inject_Z size)%Q).
  { change 1024%Q with (inject_Z 1024). rewrite <- inject_Z_mult.
    assert (E : (inject_Z (2 ^ 52 * 1024) == inject_Z (2 ^ 52 * 1024) / inject_Z 1)%Q)
      by (unfold Qdiv; change (/ inject_Z 1)%Q with 1%Q; ring).
    rewrite E. apply Qdiv_le_cross; nia. }
  split; [| split; [| split]].
  - rewrite inject_Z_mult. field. exact Hs0.
  - exact Hlo.
  - assert (E : (inject_Z U == inject_Z U / inject_Z 1)%Q)
      by (unfold Qdiv; change (/ inject_Z 1)%Q with 1%Q; ring).
    rewrite E. apply Qdiv_le_cross; nia.
  - unfold ratio_units.
    assert (H52 : (inject_Z (2 ^ 52) <= inject_Z (y * U) / inject_Z size)%Q).
    { eapply Qle_trans; [| exact Hlo].
      change (inject_Z (2 ^ 52)) with (4503599627370496 # 1)%Q. lra. }
    rewrite round_units_nonneg.
    + apply round_pos_rel. exact H52.
    + eapply Qle_trans; [| exact H52]. rewrite <- (Zle_Qle 0). apply Z.pow_nonneg. lia.
Qed.

Ltac qlra' :=
  unfold eps in *; change (2 ^ 53)%positive with 9007199254740992%positive in *; lra.

(** The sum that the code rounds, against the exact one: closer than a
    sixteenth of a unit once multiplied by [size]. *)
Lemma scaled_bounds (size y K A : Z) (x : Q) (c d : Q) :
  0 < size <= 2 ^ 40 ->
  (inject_Z size * x == inject_Z y * inject_Z U)%Q ->
  (inject_Z K == c * inject_Z size + d * inject_Z y)%Q ->
  (- (inject_Z U * (1 # 17592186044416))
   <= inject_Z A - c * inject_Z U - d * x
   <= inject_Z U * (1 # 17592186044416))%Q ->
  16 * size * A <= 16 * K * U + U /\ 16 * K * U - U <= 16 * size * A.
Proof.
  intros Hs Ex EK [H1 H2].
  pose proof U_pos as HU.
  assert (HS0 : (0 <= inject_Z size)%Q) by (rewrite <- (Zle_Qle 0); lia).
  assert (HSu : (inject_Z size * inject_Z U <= (1099511627776 # 1) * inject_Z U)%Q).
  { change (1099511627776 # 1)%Q with (inject_Z (2 ^ 40)).
    rewrite <- !inject_Z_mult, <- Zle_Qle. nia. }
  assert (H1' : (inject_Z size * - (inject_Z U * (1 # 17592186044416))
                 <= inject_Z size * (inject_Z A - c * inject_Z U - d * x))%Q).
  { rewrite !(Qmult_comm (inject_Z size)). apply Qmult_le_compat_r; assumption. }
  assert (H2' : (inject_Z size * (inject_Z A - c * inject_Z U - d * x)
                 <= inject_Z size * (inject_Z U * (1 # 17592186044416)))%Q).
  { rewrite !(Qmult_comm (inject_Z size)). apply Qmult_le_compat_r; assumption. }
  assert (EKu : (inject_Z K * inject_Z U
                 == c * (inject_Z size * inject_Z U) + d * (inject_Z size * x))%Q).
  { rewrite EK, Ex. ring. }
  assert (Hu0 : (0 < inject_Z U)%Q) by (rewrite <- (Zlt_Qlt 0); exact HU).
  split.
  - rewrite Zle_Qle, inject_Z_plus, !inject_Z_mult.
    change (inject_Z 16) with 16%Q.
    remember (inject_Z size) as S. remember (inject_Z U) as u.
    remember (inject_Z A) as a. remember (inject_Z K) as k.
    assert (Hfin : (S * a <= k * u + u * (1 # 16))%Q).
    { rewrite EKu.
      setoid_replace (S * (a - c * u - d * x))%Q
        with (S * a - c * (S * u) - d * (S * x))%Q in H2' by ring.
      setoid_replace (S * (u * (1 # 17592186044416)))%Q
        with ((S * u) * (1 # 17592186044416))%Q in H2' by ring.
      remember (S * u)%Q as Su. remember (S * x)%Q as Sx. remember (S * a)%Q as Sa.
      lra. }
    setoid_replace (16 * S * a)%Q with (16 * (S * a))%Q by ring.
    setoid_replace (16 * k * u + u)%Q with (16 * (k * u + u * (1 # 16)))%Q by ring.
    remember (S * a)%Q as Sa. remember (k * u + u * (1 # 16))%Q as rhs. lra.
  - rewrite Zle_Qle. unfold Z.sub. rewrite inject_Z_plus, inject_Z_opp, !inject_Z_mult.
    change (inject_Z 16) with 16%Q.
    remember (inject_Z size) as S. remember (inject_Z U) as u.
    remember (inject_Z A) as a. remember (inject_Z K) as k.
    assert (Hfin : (k * u - u * (1 # 16) <= S * a)%Q).
    { rewrite EKu.
      setoid_replace (S * (a - c * u - d * x))%Q
        with (S * a - c * (S * u) - d * (S * x))%Q in H1' by ring.
      setoid_replace (S * - (u * (1 # 17592186044416)))%Q
        with (- ((S * u) * (1 # 17592186044416)))%Q in H1' by ring.
      remember (S * u)%Q as Su. remember (S * x)%Q as Sx. remember (S * a)%Q as Sa.
      lra. }
    setoid_replace (16 * S * a)%Q with (16 * (S * a))%Q by ring.
    setoid_replace (16 * k * u + - u)%Q with (16 * (k * u - u * (1 # 16)))%Q by ring.
    remember (S * a)%Q as Sa. remember (k * u - u * (1 # 16))%Q as lhs. lra.
Qed.

Ltac clear_Qeq := repeat match goal with H : @eq Q _ _ |- _ => clear H end.

Lemma channel_close_inc (c d size y : Z) :
  0 < c <= 226 -> 0 < d <= 81 ->
  0 < size <= 2 ^ 40 -> 1 <= y < size ->
  0 <= rz (c * U + rz (d * ratio_units size y))
  /\ 16 * size * rz (c * U + rz (d * ratio_units size y))
     <= 16 * (c * size + d * y) * U + U
  /\ 16 * (c * size + d * y) * U - U
     <= 16 * size * rz (c * U + rz (d * ratio_units size y)).
Proof.
  intros Hc Hd Hs Hy.
  destruct (ratio_units_rel size y Hs Hy) as [x [Ex [Hlo [Hhi Hn]]]].
  pose proof U_pos as HU.
  set (n := ratio_units size y) in *.
  assert (Hlo0 : (0 < inject_Z (2 ^ 52))%Q) by reflexivity.
  assert (HD : (1 <= inject_Z d <= 81)%Q).
  { split; [rewrite <- (Zle_Qle 1) | rewrite <- (Zle_Qle _ 81)]; lia. }
  assert (Hx0 : (0 <= x)%Q).
  { remember (inject_Z (2 ^ 52)) as lo. clear_Qeq. lra. }
  assert (Hdx : (x <= inject_Z d * x <= 81 * x)%Q).
  { split.
    - setoid_replace x with (1 * x)%Q at 1 by ring. apply Qmult_le_compat_r; tauto.
    - apply Qmult_le_compat_r; tauto. }
  assert (HdN : (inject_Z d * (x * (1 - eps)) <= inject_Z d * inject_Z n
                 <= inject_Z d * (x * (1 + eps)))%Q).
  { split; rewrite !(Qmult_comm (inject_Z d)); apply Qmult_le_compat_r; try tauto; lra. }
  assert (Hcu : (inject_Z U <= inject_Z c * inject_Z U <= 226 * inject_Z U)%Q).
  { change 226%Q with (inject_Z 226). rewrite <- !inject_Z_mult, <- !Zle_Qle. nia. }
  assert (Hk1 : 2 ^ 52 <= d * n).
  { rewrite Zle_Qle, inject_Z_mult.
    setoid_replace (inject_Z d * (x * (1 - eps)))%Q
      with ((inject_Z d * x) * (1 - eps))%Q in HdN by ring.
    remember (inject_Z d * x)%Q as dx. remember (inject_Z d * inject_Z n)%Q as dN.
    remember (inject_Z (2 ^ 52)) as lo. clear_Qeq. qlra'. }
  pose proof (rz_rel (d * n) Hk1) as Hp. rewrite inject_Z_mult in Hp.
  set (P := rz (d * n)) in *.
  assert (Hk2 : 2 ^ 52 <= c * U + P).
  { rewrite Zle_Qle, inject_Z_plus, inject_Z_mult.
    setoid_replace (inject_Z d * (x * (1 - eps)))%Q
      with ((inject_Z d * x) * (1 - eps))%Q in HdN by ring.
    remember (inject_Z d * x)%Q as dx. remember (inject_Z d * inject_Z n)%Q as dN.
    remember (inject_Z c * inject_Z U)%Q as cu.
    remember (inject_Z (2 ^ 52)) as lo. clear_Qeq. qlra'. }
  pose proof (rz_rel (c * U + P) Hk2) as Ha. rewrite inject_Z_plus, inject_Z_mult in Ha.
  set (A := rz (c * U + P)) in *.
  assert (HA0 : 0 <= A).
  { rewrite Zle_Qle.
    remember (inject_Z c * inject_Z U)%Q as cu. remember (inject_Z (2 ^ 52)) as lo.
    assert (Hs52 : (lo <= cu + inject_Z P)%Q).
    { subst lo cu. rewrite <- inject_Z_mult, <- inject_Z_plus, <- Zle_Qle. exact Hk2. }
    change (inject_Z 0) with 0%Q. clear_Qeq. qlra'. }
  split; [exact HA0 |].
  apply (scaled_bounds size y (c * size + d * y) A x (inject_Z c) (inject_Z d)).
  - exact Hs.
  - exact Ex.
  - rewrite inject_Z_plus, !inject_Z_mult. reflexivity.
  - setoid_replace (inject_Z d * (x * (1 - eps)))%Q
      with ((inject_Z d * x) * (1 - eps))%Q in HdN by ring.
    setoid_replace (inject_Z d * (x * (1 + eps)))%Q
      with ((inject_Z d * x) * (1 + eps))%Q in HdN by ring.
    remember (inject_Z d * x)%Q as dx. remember (inject_Z d * inject_Z n)%Q as dN.
    remember (inject_Z c * inject_Z U)%Q as cu. remember (inject_Z U) as u.
    remember (inject_Z (2 ^ 52)) as lo. clear_Qeq. qlra'.
Qed.

Lemma channel_close_dec (c d size y : Z) :
  0 < c <= 226 -> 0 < d <= 81 -> d + 1 <= c ->
  0 < size <= 2 ^ 40 -> 1 <= y < size ->
  0 <= rz (c * U + rz (- d * ratio_units size y))
  /\ 16 * size * rz (c * U + rz (- d * ratio_units size y))
     <= 16 * (c * size + - d * y) * U + U
  /\ 16 * (c * size + - d * y) * U - U
     <= 16 * size * rz (c * U + rz (- d * ratio_units size y)).
Proof.
  intros Hc Hd Hcd Hs Hy.
  destruct (ratio_units_rel size y Hs Hy) as [x [Ex [Hlo [Hhi Hn]]]].
  pose proof U_pos as HU.
  set (n := ratio_units size y) in *.
  replace (- d * n) with (- (d * n)) by ring.
  rewrite rz_opp.
  assert (Hlo0 : (0 < inject_Z (2 ^ 52))%Q) by reflexivity.
  assert (HD : (1 <= inject_Z d <= 81)%Q).
  { split; [rewrite <- (Zle_Qle 1) | rewrite <- (Zle_Qle _ 81)]; lia. }
  assert (Hx0 : (0 <= x)%Q).
  { remember (inject_Z (2 ^ 52)) as lo. clear_Qeq. lra. }
  assert (Hdx : (x <= inject_Z d * x <= inject_Z d * inject_Z U)%Q).
  { split.
    - setoid_replace x with (1 * x)%Q at 1 by ring. apply Qmult_le_compat_r; tauto.
    - rewrite !(Qmult_comm (inject_Z d)). apply Qmult_le_compat_r; [exact Hhi | lra]. }
  assert (HdN : (inject_Z d * (x * (1 - eps)) <= inject_Z d * inject_Z n
                 <= inject_Z d * (x * (1 + eps)))%Q).
  { split; rewrite !(Qmult_comm (inject_Z d)); apply Qmult_le_compat_r; try tauto; lra. }
  assert (Hcu : (inject_Z d * inject_Z U + inject_Z U <= inject_Z c * inject_Z U
                 /\ inject_Z c * inject_Z U <= 226 * inject_Z U
                 /\ inject_Z d * inject_Z U <= 81 * inject_Z U)%Q).
  { change 226%Q with (inject_Z 226). change 81%Q with (inject_Z 81).
    rewrite <- !inject_Z_mult, <- inject_Z_plus, <- !Zle_Qle. nia. }
  assert (Hu92 : (inject_Z (2 ^ 52) * 1024 <= inject_Z U)%Q).
  { change 1024%Q with (inject_Z 1024). rewrite <- inject_Z_mult, <- Zle_Qle.
    apply Z.leb_le. reflexivity. }
  assert (Hk1 : 2 ^ 52 <= d * n).
  { rewrite Zle_Qle, inject_Z_mult.
    setoid_replace (inject_Z d * (x * (1 - eps)))%Q
      with ((inject_Z d * x) * (1 - eps))%Q in HdN by ring.
    remember (inject_Z d * x)%Q as dx. remember (inject_Z d * inject_Z n)%Q as dN.
    remember (inject_Z (2 ^ 52)) as lo. clear_Qeq. qlra'. }
  pose proof (rz_rel (d * n) Hk1) as Hp. rewrite inject_Z_mult in Hp.
  set (P := rz (d * n)) in *.
  assert (Hk2 : 2 ^ 52 <= c * U + - P).
  { rewrite Zle_Qle, inject_Z_plus, inject_Z_opp, inject_Z_mult.
    setoid_replace (inject_Z d * (x * (1 + eps)))%Q
      with ((inject_Z d * x) * (1 + eps))%Q in HdN by ring.
    remember (inject_Z d * x)%Q as dx. remember (inject_Z d * inject_Z n)%Q as dN.
    remember (inject_Z c * inject_Z U)%Q as cu.
    remember (inject_Z d * inject_Z U)%Q as du. remember (inject_Z U) as u.
    remember (inject_Z (2 ^ 52)) as lo. clear_Qeq. qlra'. }
  pose proof (rz_rel (c * U + - P) Hk2) as Ha.
  rewrite inject_Z_plus, inject_Z_opp, inject_Z_mult in Ha.
  set (A := rz (c * U + - P)) in *.
  assert (HA0 : 0 <= A).
  { rewrite Zle_Qle.
    remember (inject_Z c * inject_Z U)%Q as cu. remember (inject_Z (2 ^ 52)) as lo.
    assert (Hs52 : (lo <= cu + - inject_Z P)%Q).
    { subst lo cu. rewrite <- inject_Z_mult, <- inject_Z_opp, <- inject_Z_plus, <- Zle_Qle.
      exact Hk2. }
    change (inject_Z 0) with 0%Q. clear_Qeq. qlra'. }
  split; [exact HA0 |].
  apply (scaled_bounds size y (c * size + - d * y) A x (inject_Z c) (- inject_Z d)).
  - exact Hs.
  - exact Ex.
  - rewrite inject_Z_plus, !inject_Z_mult, inject_Z_opp. reflexivity.
  - setoid_replace (inject_Z d * (x * (1 - eps)))%Q
      with ((inject_Z d * x) * (1 - eps))%Q in HdN by ring.
    setoid_replace (inject_Z d * (x * (1 + eps)))%Q
      with ((inject_Z d * x) * (1 + eps))%Q in HdN by ring.
    setoid_replace (inject_Z A - inject_Z c * inject_Z U - - inject_Z d * x)%Q
      with (inject_Z A - inject_Z c * inject_Z U + inject_Z d * x)%Q by ring.
    remember (inject_Z d * x)%Q as dx. remember (inject_Z d * inject_Z n)%Q as dN.
    remember (inject_Z c * inject_Z U)%Q as cu.
    remember (inject_Z d * inject_Z U)%Q as du. remember (inject_Z U) as u.
    remember (inject_Z (2 ^ 52)) as lo. clear_Qeq. qlra'.
Qed.

Lemma channel_exact (c d size y : Z) :
  (0 < c <= 226 /\ 0 < d <= 81) \/ (0 < c <= 226 /\ 0 < - d <= 81 /\ - d + 1 <= c) ->
  0 < size <= 2 ^ 40 -> 0 <= y < size ->
  exact_channel c d size y - 1 <= channel c d (ratio_units size y)
                                <= exact_channel c d size y
  /\ ((d * y) mod size <> 0 ->
      channel c d (ratio_units size y) = exact_channel c d size y).
Proof.
  intros Hcd Hs Hy. unfold exact_channel.
  destruct (Z.eq_dec y 0) as [-> | Hy0].
  - rewrite ratio_units_0 by lia.
    rewrite channel_start by (unfold prec; simpl; lia).
    rewrite Z.mul_0_r, Z.div_0_l, Zmod_0_l by lia. split; [lia | intros F; contradiction].
  - assert (E : 0 <= rz (c * U + rz (d * ratio_units size y))
                /\ 16 * size * rz (c * U + rz (d * ratio_units size y))
                   <= 16 * (c * size + d * y) * U + U
                /\ 16 * (c * size + d * y) * U - U
                   <= 16 * size * rz (c * U + rz (d * ratio_units size y))).
    { destruct Hcd as [[Hc Hd] | [Hc [Hd Hcd]]].
      - apply channel_close_inc; lia.
      - pose proof (channel_close_dec c (- d) size y Hc Hd Hcd Hs ltac:(lia)) as H.
        rewrite Z.opp_involutive in H. exact H. }
    destruct E as [HA [Hup Hdn]].
    pose proof (floor_of_close _ (c * size + d * y) size ltac:(lia) HA Hup Hdn) as [Hb He].
    unfold channel. rewrite Z.quot_div_nonneg by (pose proof U_pos; lia).
    assert (Ediv : (c * size + d * y) / size = c + (d * y) / size)
      by (rewrite Z.add_comm, Z.div_add by lia; lia).
    assert (Emod : (c * size + d * y) mod size = (d * y) mod size)
      by (rewrite Z.add_comm, Z.mod_add by lia; reflexivity).
    rewrite Ediv in Hb, He. rewrite Emod in He.
    split; [exact Hb | exact He].
Qed.

(** X10: for sizes up to [2^40], the colour of row [y] is the exact
    interpolation rounded down, [c1 + floor ((c2 - c1) * y / size)] in each
    channel, whenever [(c2 - c1) * y] is not a multiple of [size]; when it
    is a multiple, the channel is that value or one less.  The rounding
    errors of the float arithmetic of lines 33-41 have no other effect. *)
Theorem gradient_color_exact (size y : Z) :
  0 < size <= 2 ^ 40 -> 0 <= y < size ->
  exists r g b,
    gradient_color size y = Ok (r, g, b)
    /\ (exact_channel 0x4A (0x9B - 0x4A) size y - 1 <= r
        <= exact_channel 0x4A (0x9B - 0x4A) size y)
    /\ (exact_channel 0x90 (0x59 - 0x90) size y - 1 <= g
        <= exact_channel 0x90 (0x59 - 0x90) size y)
    /\ (exact_channel 0xE2 (0xB6 - 0xE2) size y - 1 <= b
        <= exact_channel 0xE2 (0xB6 - 0xE2) size y)
    /\ (((0x9B - 0x4A) * y) mod size <> 0 -> r = exact_channel 0x4A (0x9B - 0x4A) size y)
    /\ (((0x59 - 0x90) * y) mod size <> 0 -> g = exact_channel 0x90 (0x59 - 0x90) size y)
    /\ (((0xB6 - 0xE2) * y) mod size <> 0 -> b = exact_channel 0xE2 (0xB6 - 0xE2) size y).
Proof.
  intros Hs Hy.
  rewrite gradient_color_eq by lia.
  change (0x9B - 0x4A) with 81. change (0x59 - 0x90) with (-55).
  change (0xB6 - 0xE2) with (-44).
  destruct (channel_exact 74 81 size y ltac:(left; lia) Hs Hy) as [Br Er].
  destruct (channel_exact 144 (-55) size y ltac:(right; lia) Hs Hy) as [Bg Eg].
  destruct (channel_exact 226 (-44) size y ltac:(right; lia) Hs Hy) as [Bb Eb].
  eexists _, _, _. split; [reflexivity |].
  repeat (split; [assumption |]). assumption.
Qed.

Lemma gradient_color_exact_witness :
  0 < 512 <= 2 ^ 40 /\ 0 <= 100 < 512
  /\ exists r g b,
       gradient_color 512 100 = Ok (r, g, b)
       /\ r = exact_channel 0x4A (0x9B - 0x4A) 512 100.
Proof.
  assert (Hs : 0 < 512 <= 2 ^ 40) by lia.
  assert (Hy : 0 <= 100 < 512) by lia.
  split; [exact Hs |]. split; [exact Hy |].
  destruct (gradient_color_exact 512 100 Hs Hy) as (r & g & b & E & _ & _ & _ & Hr & _).
  exists r, g, b. split; [exact E |].
  apply Hr. vm_compute. discriminate.
Defined.

(** ** The picture, pixel by pixel *)












Lemma depicts_rgb_well_formed (size : Z) (im : image) (f : Z -> Z -> rgb) :
  depicts_rgb size im f -> well_formed size RGB im.
Proof.
  intros [Hsz [rows [Hd [Hsq _]]]]. split; [exact Hsz |]. rewrite Hd.
  split; [reflexivity | exact Hsq].
Qed.

Section Depicted.

Context `{Backend}.



End Depicted.


Section Rendering.

Context `{Backend}.




End Rendering.

